(** * WBS graph viewer (app/src/App.tsx)

    A shallow embedding of the three computations of the [App] component:
    the loader and hierarchy layout (first [useMemo]), the view selector
    (second [useMemo]) and the event handlers that drive the view mode and
    the context menu.

    Modelling conventions.
    - Node ids are strings.  The object literals used as dictionaries
      ([levels], [childrenByParent], [grouped]) are finite maps of their
      own properties, read through [Js.read], which also sees the
      properties every object literal inherits from [Object.prototype];
      [Set]s are finite sets.  [nodeMap], whose key order is observed
      through [Object.keys], keeps its keys in own-property order.
    - A computation that can end in an uncaught [TypeError] returns an
      [outcome].
    - Node objects live in a store ([heap]); arrays of nodes are lists of
      addresses, so that the in-place update [node.position = ...] of the
      layout and the copies [{...n, position}] of the local view are told
      apart.
    - Coordinates are kept as the arithmetic expression the code evaluates
      ([num]); [Rval] reads such an expression in real arithmetic, that is,
      with the rounding of IEEE doubles left out. *)

From Stdlib Require Import ZArith Reals Lra Lia String Ascii.
From stdpp Require Import base option list gmap sets strings sorting.

Set Warnings "-clear-no-such-hyp".

Open Scope string_scope.
Open Scope list_scope.
Open Scope nat_scope.

(** ** Built-ins of the host language *)

Module Js.

Definition digit_val (c : ascii) : option Z :=
  let n := Z.of_nat (nat_of_ascii c) in
  if ((48 <=? n) && (n <=? 57))%Z then Some (n - 48)%Z else None.

Fixpoint digits_val (acc : Z) (s : string) : option Z :=
  match s with
  | EmptyString => Some acc
  | String c r =>
      match digit_val c with
      | Some d => digits_val (10 * acc + d)%Z r
      | None => None
      end
  end.

(** [Number(s)] for a string [s]; [None] stands for [NaN].  The model is
    exact on strings of at most 15 decimal digits (the empty string
    converts to 0; longer ones are rounded by the host).  It gives [NaN]
    for every string with a character that is not a digit, which is what
    the host gives unless the string is a numeric literal of another
    form: white space, a sign, a fraction, an exponent, a radix prefix or
    [Infinity].  The properties below that depend on a value of [Number]
    read it on digit strings and on ["5x"] only. *)
Definition Number (s : string) : option Z := digits_val 0 s.

(** [a.localeCompare(b)], as -1, 0 or 1.  The host compares by the
    collation of its locale; the model compares character codes.  The two
    agree on strings of decimal digits, and on strings that start with
    distinct digits.  The properties below that depend on a value of
    [localeCompare] read it on such strings only. *)
Definition localeCompare (a b : string) : Z :=
  match String.compare a b with
  | Lt => (-1)%Z
  | Eq => 0%Z
  | Gt => 1%Z
  end.

(** The property names that an object literal inherits from
    [Object.prototype].  Reading one of them on an object without an own
    property of that name gives the inherited value (a function; for
    ["__proto__"] the prototype object), not [undefined]. *)
Definition prototypeNames : list string :=
  ["constructor"; "hasOwnProperty"; "isPrototypeOf"; "propertyIsEnumerable";
   "toLocaleString"; "toString"; "valueOf"; "__proto__";
   "__defineGetter__"; "__defineSetter__"; "__lookupGetter__"; "__lookupSetter__"].

Definition inherited (k : string) : bool := bool_decide (k ∈ prototypeNames).

(** What [o[k]] evaluates to, for an object literal [o] whose own
    properties have values in [V]: an own value, a value inherited from
    [Object.prototype] (defined and truthy; neither a number nor an
    array), or [undefined]. *)
Inductive prop (V : Type) : Type :=
  | own (v : V)
  | fromPrototype
  | undefined.
Global Arguments own {V} v.
Global Arguments fromPrototype {V}.
Global Arguments undefined {V}.

(** [o[k]], where the finite map [o] holds the own properties. *)
Definition read {V} (o : gmap string V) (k : string) : prop V :=
  match o !! k with
  | Some v => own v
  | None => if inherited k then fromPrototype else undefined
  end.

(** [o[k] = v] for a primitive value [v].  The inherited data properties
    are writable, so the assignment creates an own property; the setter
    of ["__proto__"] ignores a value that is not an object. *)
Definition assign {V} (o : gmap string V) (k : string) (v : V) : gmap string V :=
  if decide (k = "__proto__") then o else <[k := v]> o.

(** Truthiness of a [string | null] value: [null] and [""] are falsy. *)
Definition truthy (s : option string) : bool :=
  match s with
  | None => false
  | Some s => negb (String.eqb s "")
  end.

(** A property key is an array index when it is the canonical decimal
    form of an integer below 2^32 - 1. *)
Definition array_index (k : string) : option Z :=
  match k with
  | EmptyString => None
  | String c r =>
      if (10 <? String.length k)%nat then None
      else if Ascii.eqb c "0" && negb (String.eqb r "") then None
      else match digits_val 0 k with
           | Some v => if (v <? 2 ^ 32 - 1)%Z then Some v else None
           | None => None
           end
  end.

(** An ordinary object with string keys, in own-property order: array
    indices in ascending order first, then the other keys in the order
    in which they were created. *)
Definition obj (V : Type) : Type := list (string * V).

Fixpoint get {V} (o : obj V) (k : string) : option V :=
  match o with
  | [] => None
  | (k', v) :: o' => if decide (k' = k) then Some v else get o' k
  end.

Fixpoint replace {V} (o : obj V) (k : string) (v : V) : obj V :=
  match o with
  | [] => []
  | (k', v') :: o' =>
      if decide (k' = k) then (k, v) :: o' else (k', v') :: replace o' k v
  end.

Fixpoint insert_index {V} (o : obj V) (n : Z) (k : string) (v : V) : obj V :=
  match o with
  | [] => [(k, v)]
  | (k', v') :: o' =>
      match array_index k' with
      | Some n' =>
          if (n' <? n)%Z then (k', v') :: insert_index o' n k v
          else (k, v) :: o
      | None => (k, v) :: o
      end
  end.

(** [o[k] = v] *)
Definition set {V} (o : obj V) (k : string) (v : V) : obj V :=
  match get o k with
  | Some _ => replace o k v
  | None =>
      match array_index k with
      | Some n => insert_index o n k v
      | None => o ++ [(k, v)]
      end
  end.

(** [Object.keys(o)] *)
Definition keys {V} (o : obj V) : list string := o.*1.

(** [arr.sort(cmp)]: a stable insertion sort.  Where the comparator is a
    consistent order on the elements, every conforming sort leaves this
    arrangement.  Where it is not, the host leaves the arrangement to the
    implementation; the properties below then use only that the result
    holds the same elements. *)
Fixpoint sort_insert {A} (cmp : A → A → Z) (x : A) (l : list A) : list A :=
  match l with
  | [] => [x]
  | y :: l' =>
      if (cmp x y <=? 0)%Z then x :: l else y :: sort_insert cmp x l'
  end.

Definition sort {A} (cmp : A → A → Z) (l : list A) : list A :=
  foldr (sort_insert cmp) [] l.

End Js.

(** ** Computations that can throw *)

(** How a computation ends: it returns a value, an uncaught [TypeError]
    escapes from it, or the turns allowed to a loop are used up. *)
Inductive outcome (A : Type) : Type :=
  | Returns (a : A)
  | Throws
  | OutOfFuel.
Global Arguments Returns {A} a.
Global Arguments Throws {A}.
Global Arguments OutOfFuel {A}.

Global Instance outcome_ret : MRet outcome := λ A a, Returns a.
Global Instance outcome_bind : MBind outcome := λ A B f o,
  match o with
  | Returns a => f a
  | Throws => Throws
  | OutOfFuel => OutOfFuel
  end.

(** The value of a computation that returned. *)
Definition returned {A} (o : outcome A) : option A :=
  match o with
  | Returns a => Some a
  | _ => None
  end.

(** [l.forEach(x => ...)] over a state, for a body that can throw. *)
Fixpoint forEach {A B} (f : A → B → outcome A) (a : A) (l : list B) : outcome A :=
  match l with
  | [] => Returns a
  | x :: l' => a' ← f a x; forEach f a' l'
  end.

(** ** Data model *)

(** Coordinates, as the expressions the code evaluates. *)
Inductive num : Type :=
  | Int (z : Z)
  | PI
  | Add (a b : num)
  | Mul (a b : num)
  | Div (a b : num)
  | Cos (a : num)
  | Sin (a : num).

Fixpoint Rval (e : num) : R :=
  match e with
  | Int z => IZR z
  | PI => Rtrigo1.PI
  | Add a b => Rval a + Rval b
  | Mul a b => Rval a * Rval b
  | Div a b => Rval a / Rval b
  | Cos a => cos (Rval a)
  | Sin a => sin (Rval a)
  end.

Global Instance num_eq_dec : EqDecision num.
Proof. solve_decision. Defined.

(** The input document (wbs_satellite_example.json). *)
Record RawNodeData := {
  title : option string;
  name : option string;
  node_extra : list (string * string)
}.

Record RawNode := {
  raw_id : string;
  raw_type : string;
  wbs_code : option string;
  raw_data : option RawNodeData
}.

Record RawEdgeData := {
  raw_wbsType : option string;
  raw_based_on_version : option string;
  raw_approved : option bool;
  edge_extra : list (string * string)
}.

Record RawEdge := {
  edge_id : string;
  edge_type : string;
  edge_source : string;
  edge_target : string;
  edge_data : option RawEdgeData
}.

Record Wbs := {
  nodes : option (list RawNode);
  edges : option (list RawEdge)
}.

Module WbsNode.
Record NodeData := {
  label : string;
  fields : option RawNodeData
}.
Record t := {
  id : string;
  position : num * num;
  data : NodeData;
  type : string
}.
Definition with_position (n : t) (p : num * num) : t :=
  {| id := id n; position := p; data := data n; type := type n |}.
End WbsNode.

Module WbsEdge.
Record EdgeData := {
  wbsType : string;
  based_on_version : option string;
  approved : option bool;
  extra : list (string * string)
}.
Record t := {
  id : string;
  source : string;
  target : string;
  type : string;
  label : string;
  data : EdgeData
}.
End WbsEdge.

Global Instance RawNodeData_eq_dec : EqDecision RawNodeData.
Proof. solve_decision. Defined.
Global Instance NodeData_eq_dec : EqDecision WbsNode.NodeData.
Proof. solve_decision. Defined.
Global Instance WbsNode_eq_dec : EqDecision WbsNode.t.
Proof. solve_decision. Defined.
Global Instance EdgeData_eq_dec : EqDecision WbsEdge.EdgeData.
Proof. solve_decision. Defined.
Global Instance WbsEdge_eq_dec : EqDecision WbsEdge.t.
Proof. solve_decision. Defined.

(** The store of node objects; an address is an index into it. *)
Abbreviation addr := nat (only parsing).
Abbreviation heap := (list WbsNode.t) (only parsing).

Definition alloc (h : heap) (n : WbsNode.t) : heap * addr := (h ++ [n], length h).

Definition alloc_all (h : heap) (ns : list WbsNode.t) : heap * list addr :=
  (h ++ ns, seq (length h) (length ns)).

(** [node.position = p] for the object at [a]. *)
Definition set_position (h : heap) (a : addr) (p : num * num) : heap :=
  match h !! a with
  | Some n => <[a := WbsNode.with_position n p]> h
  | None => h
  end.

Definition id_at (h : heap) (a : addr) : string :=
  from_option WbsNode.id "" (h !! a).

(** The nodes that a sequence of addresses denotes. *)
Definition deref (h : heap) (l : list addr) : list WbsNode.t :=
  omap (λ a, h !! a) l.

(** ** Loader (lines 41-93) *)

Definition assoc (k : string) (l : list (string * string)) : option string :=
  snd <$> find (λ p, bool_decide (p.1 = k)) l.

(** [{ label: title ?? name ?? `${type} ${wbs_code ?? ""}`, ...n.data }]:
    a [label] key of [n.data] wins over the computed one. *)
Definition mkData (n : RawNode) : WbsNode.NodeData :=
  let computed :=
    match raw_data n ≫= title with
    | Some s => s
    | None =>
        match raw_data n ≫= name with
        | Some s => s
        | None => (raw_type n ++ " " ++ default "" (wbs_code n))%string
        end
    end in
  {| WbsNode.label :=
       default computed (raw_data n ≫= λ d, assoc "label" (node_extra d));
     WbsNode.fields := raw_data n |}.

Definition mkNode (n : RawNode) : WbsNode.t :=
  {| WbsNode.id := raw_id n;
     WbsNode.position := (Int 0, Int 0);
     WbsNode.data := mkData n;
     WbsNode.type := "default" |}.

(** [nodeMap[n.id] = { ... }].  For the id ["__proto__"] the assignment
    runs the setter inherited from [Object.prototype]: the new object
    becomes the prototype of [nodeMap] and no own property is created.
    ([nodeMap] is read at its own keys only, so what it inherits from
    that object is never seen.) *)
Definition loadNode (st : heap * Js.obj addr) (n : RawNode) : heap * Js.obj addr :=
  let '(a_heap, a) := alloc st.1 (mkNode n) in
  if decide (raw_id n = "__proto__") then (a_heap, st.2)
  else (a_heap, Js.set st.2 (raw_id n) a).

(** [{ wbsType: e.type, ...(e.data || {}) }] *)
Definition mkEdgeData (e : RawEdge) : WbsEdge.EdgeData :=
  {| WbsEdge.wbsType := default (edge_type e) (edge_data e ≫= raw_wbsType);
     WbsEdge.based_on_version := edge_data e ≫= raw_based_on_version;
     WbsEdge.approved := edge_data e ≫= raw_approved;
     WbsEdge.extra := from_option edge_extra [] (edge_data e) |}.

Definition mkEdge (e : RawEdge) : WbsEdge.t :=
  {| WbsEdge.id := edge_id e;
     WbsEdge.source := edge_source e;
     WbsEdge.target := edge_target e;
     WbsEdge.type := "default";
     WbsEdge.label := edge_type e;
     WbsEdge.data := mkEdgeData e |}.

Record EdgeIndex := {
  hierarchyEdges : list WbsEdge.t;
  dependencyEdges : list WbsEdge.t;
  childrenByParent : gmap string (list string);
  childSet : gset string
}.

Definition emptyIndex : EdgeIndex :=
  {| hierarchyEdges := []; dependencyEdges := [];
     childrenByParent := ∅; childSet := ∅ |}.

(** A [HIERARCHY] edge from [e.source] to [e.target], where
    [childrenByParent[e.source]] holds [children]. *)
Definition addChild (acc : EdgeIndex) (e : RawEdge) (children : list string) : EdgeIndex :=
  {| hierarchyEdges := hierarchyEdges acc ++ [mkEdge e];
     dependencyEdges := dependencyEdges acc;
     childrenByParent :=
       <[edge_source e := children ++ [edge_target e]]> (childrenByParent acc);
     childSet := {[edge_target e]} ∪ childSet acc |}.

(** The body of [rawEdges.forEach].  When [e.source] names a property
    inherited from [Object.prototype], [!childrenByParent[e.source]] is
    false, no array is created, and [.push] is not a function of the
    inherited value: a [TypeError] escapes at line 88. *)
Definition loadEdge (acc : EdgeIndex) (e : RawEdge) : outcome EdgeIndex :=
  if decide (edge_type e = "HIERARCHY") then
    match Js.read (childrenByParent acc) (edge_source e) with
    | Js.own children => Returns (addChild acc e children)
    | Js.undefined => Returns (addChild acc e [])
    | Js.fromPrototype => Throws
    end
  else
    Returns
      {| hierarchyEdges := hierarchyEdges acc;
         dependencyEdges := dependencyEdges acc ++ [mkEdge e];
         childrenByParent := childrenByParent acc;
         childSet := childSet acc |}.

Definition rawNodes (w : Wbs) : list RawNode := default [] (nodes w).
Definition rawEdges (w : Wbs) : list RawEdge := default [] (edges w).

Definition loadNodes (w : Wbs) : heap * Js.obj addr :=
  foldl loadNode ([], []) (rawNodes w).

Definition loadEdges (w : Wbs) : outcome EdgeIndex :=
  forEach loadEdge emptyIndex (rawEdges w).

(** ** Levels (lines 96-126) *)

Definition allNodeIds (w : Wbs) : list string := Js.keys (loadNodes w).2.

Definition roots (idx : EdgeIndex) (w : Wbs) : list string :=
  filter (λ id, id ∉ childSet idx) (allNodeIds w).

Definition BfsState : Type := gmap string nat * list string.

(** [roots.forEach(id => { levels[id] = 0; queue.push(id) })] *)
Definition enqueueRoot (st : BfsState) (id : string) : BfsState :=
  (Js.assign st.1 id 0, st.2 ++ [id]).

(** The body of [children.forEach] at a parent of level [level].  A child
    whose id names an inherited property never has
    [levels[childId] === undefined]. *)
Definition visit (level : nat) (st : BfsState) (childId : string) : BfsState :=
  match Js.read st.1 childId with
  | Js.undefined => (Js.assign st.1 childId (S level), st.2 ++ [childId])
  | _ => st
  end.

(** One turn of the [while] loop, after [queue.shift()] returned
    [parentId] and left [queue].  Every id in the queue has an own level.
    When [childrenByParent[parentId]] is an inherited value, it is truthy
    and [children.forEach] is not a function: a [TypeError] escapes at
    line 113. *)
Definition bfsStep (cbp : gmap string (list string))
    (levels : gmap string nat) (parentId : string) (queue : list string)
    : outcome BfsState :=
  let level := levels !!! parentId in
  match Js.read cbp parentId with
  | Js.own children => Returns (foldl (visit level) (levels, queue) children)
  | Js.undefined => Returns (levels, queue)
  | Js.fromPrototype => Throws
  end.

(** The [while (queue.length > 0)] loop; [OutOfFuel] when [fuel] turns do
    not empty the queue. *)
Fixpoint bfs (cbp : gmap string (list string)) (fuel : nat) (st : BfsState)
    : outcome (gmap string nat) :=
  match st.2 with
  | [] => Returns st.1
  | parentId :: queue =>
      match fuel with
      | O => OutOfFuel
      | S fuel' => st' ← bfsStep cbp st.1 parentId queue; bfs cbp fuel' st'
      end
  end.

(** [if (levels[id] === undefined) levels[id] = 0] *)
Definition defaultLevel (levels : gmap string nat) (id : string) : gmap string nat :=
  match Js.read levels id with
  | Js.undefined => Js.assign levels id 0
  | _ => levels
  end.

Definition bfsFuel (idx : EdgeIndex) (w : Wbs) : nat :=
  length (allNodeIds w) + length (hierarchyEdges idx).

(** Lines 96-126, for the edge index [idx] that the loader left. *)
Definition runLevels (idx : EdgeIndex) (w : Wbs) : outcome (gmap string nat) :=
  levels ← bfs (childrenByParent idx) (bfsFuel idx w)
             (foldl enqueueRoot (∅, []) (roots idx w));
  Returns (foldl defaultLevel levels (allNodeIds w)).

(** The loader and the levels, in the order in which the code runs them. *)
Definition levelsOutcome (w : Wbs) : outcome (gmap string nat) :=
  idx ← loadEdges w; runLevels idx w.

(** The [levels] object, when the code gets as far as building it. *)
Definition computeLevels (w : Wbs) : option (gmap string nat) :=
  returned (levelsOutcome w).

(** ** Grouping, ordering and coordinates (lines 128-166) *)

(** The [grouped] object: its properties whose key is a level, and the
    others.  When [levels[id]] is not a number, [grouped[level]] is keyed
    by the text of that value: ["undefined"], or the source text of an
    inherited value, for which the model writes the name under which the
    value is inherited (distinct names inherit distinct values). *)
Record Grouped := {
  byLevel : gmap nat (list addr);
  byOther : gmap string (list addr)
}.

Definition emptyGroups : Grouped := {| byLevel := ∅; byOther := ∅ |}.

(** [grouped[key].push(node)] for a key that is not a level. *)
Definition groupOther (grouped : Grouped) (key : string) (node : addr) : Grouped :=
  {| byLevel := byLevel grouped;
     byOther := <[key := default [] (byOther grouped !! key) ++ [node]]>
                  (byOther grouped) |}.

(** [grouped[level].push(nodeMap[id])] *)
Definition groupNode (levels : gmap string nat) (nodeMap : Js.obj addr)
    (grouped : Grouped) (id : string) : Grouped :=
  match Js.get nodeMap id with
  | Some node =>
      match Js.read levels id with
      | Js.own level =>
          {| byLevel := <[level := default [] (byLevel grouped !! level) ++ [node]]>
                          (byLevel grouped);
             byOther := byOther grouped |}
      | Js.fromPrototype => groupOther grouped id node
      | Js.undefined => groupOther grouped "undefined" node
      end
  | None => grouped
  end.

(** The comparator given to [nodesAtLevel.sort], on the ids of [a] and [b]. *)
Definition compareIds (a b : string) : Z :=
  match Js.Number a, Js.Number b with
  | Some aNum, Some bNum =>
      if decide (aNum ≠ bNum) then (aNum - bNum)%Z else Js.localeCompare a b
  | _, _ => Js.localeCompare a b
  end.

Definition xGap : Z := 260.
Definition yGap : Z := 120.

(** [nodesAtLevel.forEach((node, index) => ...)], from [index] on. *)
Fixpoint placeLevel (level index : nat) (nodesAtLevel : list addr)
    (st : heap * list addr) : heap * list addr :=
  match nodesAtLevel with
  | [] => st
  | node :: rest =>
      placeLevel level (S index) rest
        (set_position st.1 node
           (Mul (Int (Z.of_nat level)) (Int xGap),
            Mul (Int (Z.of_nat index)) (Int yGap)),
         st.2 ++ [node])
  end.

(** The body of the outer [forEach] at a level that is a number. *)
Definition layoutColumn (grouped : gmap nat (list addr))
    (st : heap * list addr) (level : nat) : heap * list addr :=
  let nodesAtLevel :=
    Js.sort (λ a b, compareIds (id_at st.1 a) (id_at st.1 b))
      (default [] (grouped !! level)) in
  placeLevel level 0 nodesAtLevel st.

(** The body of the outer [forEach]; [None] is [NaN].  [grouped[NaN]] is
    [undefined], and [nodesAtLevel.sort] throws at line 148. *)
Definition layoutLevel (grouped : Grouped)
    (st : heap * list addr) (level : option nat) : outcome (heap * list addr) :=
  match level with
  | Some level => Returns (layoutColumn (byLevel grouped) st level)
  | None => Throws
  end.

(** The keys of [grouped] that are levels, in ascending order. *)
Definition levelKeys (grouped : gmap nat (list addr)) : list nat :=
  merge_sort le (elements (dom grouped)).

(** [Object.keys(grouped).map(Number).sort((a, b) => a - b)]; [None] is
    [NaN], which [Number] gives for each key that is not a level.  The
    comparator does not order [NaN]; wherever the [NaN]s are left, the
    loop that follows throws as soon as it reaches one, and nothing it
    did before is seen. *)
Definition groupKeys (grouped : Grouped) : list (option nat) :=
  (Some <$> levelKeys (byLevel grouped)) ++ ((λ _, None) <$> elements (dom (byOther grouped))).

Module Base.
Record t := {
  baseNodes : list addr;
  hierarchyEdges : list WbsEdge.t;
  dependencyEdges : list WbsEdge.t
}.
End Base.

(** The first [useMemo]: the store after the layout and the cached base
    layout. *)
Definition runBase (w : Wbs) : outcome (heap * Base.t) :=
  let '(h, nodeMap) := loadNodes w in
  idx ← loadEdges w;
  levels ← runLevels idx w;
  let grouped := foldl (groupNode levels nodeMap) emptyGroups (allNodeIds w) in
  st ← forEach (layoutLevel grouped) (h, []) (groupKeys grouped);
  Returns (st.1, {| Base.baseNodes := st.2;
                    Base.hierarchyEdges := hierarchyEdges idx;
                    Base.dependencyEdges := dependencyEdges idx |}).

(** The store and the base layout, when the first [useMemo] returns. *)
Definition buildBase (w : Wbs) : option (heap * Base.t) :=
  returned (runBase w).

(** ** View selector (lines 185-242) *)

Inductive ViewMode := GLOBAL | LOCAL.

Global Instance ViewMode_eq_dec : EqDecision ViewMode.
Proof. solve_decision. Defined.

Module View.
Record t := {
  nodes : list addr;
  edges : list WbsEdge.t
}.
End View.

Definition globalView (b : Base.t) : View.t :=
  {| View.nodes := Base.baseNodes b; View.edges := Base.hierarchyEdges b |}.

Definition incident (focusNodeId : string) (e : WbsEdge.t) : Prop :=
  WbsEdge.source e = focusNodeId ∨ WbsEdge.target e = focusNodeId.

Global Instance incident_dec f e : Decision (incident f e).
Proof. unfold incident. apply _. Defined.

(** The body of [incidentEdges.forEach]. *)
Definition addNeighbor (focusNodeId : string) (neighborIds : gset string)
    (e : WbsEdge.t) : gset string :=
  let s :=
    if decide (WbsEdge.source e = focusNodeId)
    then {[WbsEdge.target e]} ∪ neighborIds else neighborIds in
  if decide (WbsEdge.target e = focusNodeId)
  then {[WbsEdge.source e]} ∪ s else s.

Definition cx : Z := 0.
Definition cy : Z := 0.
Definition r : Z := 220.

Definition angle (index count : nat) : num :=
  Div (Mul (Mul (Int 2) PI) (Int (Z.of_nat index))) (Int (Z.of_nat count)).

(** [{ x: cx + r * Math.cos(angle), y: cy + r * Math.sin(angle) }] *)
Definition starPosition (index count : nat) : num * num :=
  (Add (Int cx) (Mul (Int r) (Cos (angle index count))),
   Add (Int cy) (Mul (Int r) (Sin (angle index count)))).

Definition incidentEdges (focusNodeId : string) (b : Base.t) : list WbsEdge.t :=
  filter (incident focusNodeId) (Base.hierarchyEdges b ++ Base.dependencyEdges b).

Definition neighborIds (focusNodeId : string) (b : Base.t) : gset string :=
  foldl (addNeighbor focusNodeId) ∅ (incidentEdges focusNodeId b).

(** [baseNodes.filter((n) => neighborIds.has(n.id))] *)
Definition neighbors (focusNodeId : string) (b : Base.t) (h : heap) : list WbsNode.t :=
  filter (λ n, WbsNode.id n ∈ neighborIds focusNodeId b) (deref h (Base.baseNodes b)).

(** [neighbors.length === 0 ? [] : neighbors.map((n, index) => ...)] *)
Definition neighborNodes (ns : list WbsNode.t) : list WbsNode.t :=
  if decide (length ns = 0) then []
  else imap (λ index n, WbsNode.with_position n (starPosition index (length ns))) ns.

(** The second [useMemo].  The objects of the local view are new ones,
    allocated in the order in which the code creates them. *)
Definition selectView (viewMode : ViewMode) (focusNodeId : option string)
    (b : Base.t) (h : heap) : heap * View.t :=
  if bool_decide (viewMode = GLOBAL) || negb (Js.truthy focusNodeId) then
    (h, globalView b)
  else
    let focus := default "" focusNodeId in
    match find (λ n, bool_decide (WbsNode.id n = focus)) (deref h (Base.baseNodes b)) with
    | None => (h, globalView b)
    | Some center =>
        let centerNode := WbsNode.with_position center (Int cx, Int cy) in
        let '(h', nodes) :=
          alloc_all h (centerNode :: neighborNodes (neighbors focus b h)) in
        (h', {| View.nodes := nodes; View.edges := incidentEdges focus b |})
    end.

(** ** Interaction controller (lines 170-182 and 251-341) *)

Inductive MenuTarget := canvas | node.

Global Instance MenuTarget_eq_dec : EqDecision MenuTarget.
Proof. solve_decision. Defined.

Module ContextMenuState.
Record t := {
  visible : bool;
  x : Z;
  y : Z;
  type : MenuTarget;
  nodeId : option string
}.
End ContextMenuState.

Record AppState := {
  store : heap;
  base : Base.t;
  viewMode : ViewMode;
  focusNodeId : option string;
  contextMenu : ContextMenuState.t
}.

(** What a handler does besides updating the state. *)
Inductive Effect :=
  | preventDefault
  | consoleLog (msg : string) (arg : option string)
  | alert (msg : string).

Definition initialMenu : ContextMenuState.t :=
  {| ContextMenuState.visible := false;
     ContextMenuState.x := 0;
     ContextMenuState.y := 0;
     ContextMenuState.type := canvas;
     ContextMenuState.nodeId := None |}.

Definition initialState (h : heap) (b : Base.t) : AppState :=
  {| store := h; base := b; viewMode := GLOBAL; focusNodeId := None;
     contextMenu := initialMenu |}.

Definition setViewMode (m : ViewMode) (s : AppState) : AppState :=
  {| store := store s; base := base s; viewMode := m;
     focusNodeId := focusNodeId s; contextMenu := contextMenu s |}.

Definition setFocusNodeId (f : option string) (s : AppState) : AppState :=
  {| store := store s; base := base s; viewMode := viewMode s;
     focusNodeId := f; contextMenu := contextMenu s |}.

Definition setContextMenu (f : ContextMenuState.t → ContextMenuState.t)
    (s : AppState) : AppState :=
  {| store := store s; base := base s; viewMode := viewMode s;
     focusNodeId := focusNodeId s; contextMenu := f (contextMenu s) |}.

(** [setContextMenu((prev) => ({ ...prev, visible: false }))] *)
Definition hideContextMenu : AppState → AppState :=
  setContextMenu (λ prev,
    {| ContextMenuState.visible := false;
       ContextMenuState.x := ContextMenuState.x prev;
       ContextMenuState.y := ContextMenuState.y prev;
       ContextMenuState.type := ContextMenuState.type prev;
       ContextMenuState.nodeId := ContextMenuState.nodeId prev |}).

Definition onNodeClick (nodeId : string) (s : AppState) : AppState * list Effect :=
  (hideContextMenu s, [consoleLog "Node clicked:" (Some nodeId)]).

Definition onEdgeClick (edgeId : string) (s : AppState) : AppState * list Effect :=
  (hideContextMenu s, [consoleLog "Edge clicked:" (Some edgeId)]).

Definition onPaneClick (s : AppState) : AppState * list Effect :=
  (hideContextMenu s, []).

Definition onPaneContextMenu (clientX clientY : Z) (s : AppState)
    : AppState * list Effect :=
  (setContextMenu (λ _,
     {| ContextMenuState.visible := true;
        ContextMenuState.x := clientX;
        ContextMenuState.y := clientY;
        ContextMenuState.type := canvas;
        ContextMenuState.nodeId := None |}) s,
   [preventDefault]).

Definition onNodeContextMenu (clientX clientY : Z) (nodeId : string) (s : AppState)
    : AppState * list Effect :=
  (setContextMenu (λ _,
     {| ContextMenuState.visible := true;
        ContextMenuState.x := clientX;
        ContextMenuState.y := clientY;
        ContextMenuState.type := node;
        ContextMenuState.nodeId := Some nodeId |}) s,
   [preventDefault; consoleLog "Node right-clicked:" (Some nodeId)]).

(** The canvas menu item (lines 308-312). *)
Definition onReturnToWbs (s : AppState) : AppState * list Effect :=
  (hideContextMenu (setFocusNodeId None (setViewMode GLOBAL s)), []).

(** The first node menu item (lines 322-328). *)
Definition onShowConnected (s : AppState) : AppState * list Effect :=
  let nodeId := ContextMenuState.nodeId (contextMenu s) in
  (hideContextMenu
     (if Js.truthy nodeId then setFocusNodeId nodeId (setViewMode LOCAL s) else s),
   []).

Definition notYetMessage : string := "新規ノード作成はまだダミー実装です。".

(** The second node menu item (lines 334-341). *)
Definition onCreateConnected (s : AppState) : AppState * list Effect :=
  (hideContextMenu s,
   [consoleLog "接続するノードを新規作成（まだダミー実装） for"
      (ContextMenuState.nodeId (contextMenu s));
    alert notYetMessage]).

Inductive Event :=
  | NodeClick (nodeId : string)
  | EdgeClick (edgeId : string)
  | PaneClick
  | PaneContextMenu (clientX clientY : Z)
  | NodeContextMenu (clientX clientY : Z) (nodeId : string)
  | ReturnToWbs
  | ShowConnected
  | CreateConnected.

(** A menu item exists only while the menu is rendered for its target. *)
Definition rendered (target : MenuTarget) (s : AppState) : bool :=
  ContextMenuState.visible (contextMenu s)
  && bool_decide (ContextMenuState.type (contextMenu s) = target).

Definition handle (ev : Event) (s : AppState) : option (AppState * list Effect) :=
  match ev with
  | NodeClick n => Some (onNodeClick n s)
  | EdgeClick e => Some (onEdgeClick e s)
  | PaneClick => Some (onPaneClick s)
  | PaneContextMenu cX cY => Some (onPaneContextMenu cX cY s)
  | NodeContextMenu cX cY n => Some (onNodeContextMenu cX cY n s)
  | ReturnToWbs => if rendered canvas s then Some (onReturnToWbs s) else None
  | ShowConnected => if rendered node s then Some (onShowConnected s) else None
  | CreateConnected => if rendered node s then Some (onCreateConnected s) else None
  end.

Inductive step : AppState → AppState → Prop :=
  | step_event ev s s' effects : handle ev s = Some (s', effects) → step s s'.

Inductive reachable (h : heap) (b : Base.t) : AppState → Prop :=
  | reachable_init : reachable h b (initialState h b)
  | reachable_step s s' : reachable h b s → step s s' → reachable h b s'.

(** What is handed to the renderer in state [s]. *)
Definition render (s : AppState) : heap * View.t :=
  selectView (viewMode s) (focusNodeId s) (base s) (store s).

(** ** Reading the input as a graph *)

(** [hierarchy w u v]: the document has a HIERARCHY edge from [u] to [v]. *)
Definition hierarchy (w : Wbs) (u v : string) : Prop :=
  ∃ e, e ∈ rawEdges w ∧ edge_type e = "HIERARCHY"
       ∧ edge_source e = u ∧ edge_target e = v.

Definition isNode (w : Wbs) (id : string) : Prop :=
  ∃ n, n ∈ rawNodes w ∧ raw_id n = id.

(** A root is a node that is the target of no HIERARCHY edge. *)
Definition isRoot (w : Wbs) (id : string) : Prop :=
  isNode w id ∧ ∀ u, ¬ hierarchy w u id.

(** [hpath E u v n]: [n] edges of [E] lead from [u] to [v]. *)
Inductive hpath (E : string → string → Prop) : string → string → nat → Prop :=
  | hpath_refl u : hpath E u u 0
  | hpath_step u v v' n : hpath E u v n → E v v' → hpath E u v' (S n).

Definition reachableFromRoot (w : Wbs) (id : string) : Prop :=
  ∃ rt n, isRoot w rt ∧ hpath (hierarchy w) rt id n.

(** [d] is the length of a shortest path from a root to [id]. *)
Definition bfsDistance (w : Wbs) (id : string) (d : nat) : Prop :=
  (∃ rt, isRoot w rt ∧ hpath (hierarchy w) rt id d)
  ∧ ∀ rt n, isRoot w rt → hpath (hierarchy w) rt id n → d ≤ n.

(** ** Invariants of the traversal *)

(** No own key of the dictionary names an inherited property. *)
Definition plainKeys {V} (o : gmap string V) : Prop :=
  ∀ k, is_Some (o !! k) → Js.inherited k = false.

(** [child cbp u v]: [v] is listed among the children of [u]. *)
Definition child (cbp : gmap string (list string)) (u v : string) : Prop :=
  v ∈ default [] (cbp !! u).

(** All queued ids sit at depth [d] or [S d], the former first. *)
Definition layered (d : nat) (st : BfsState) : Prop :=
  ∃ A B, st.2 = A ++ B
    ∧ (∀ q, q ∈ A → st.1 !! q = Some d)
    ∧ (∀ q, q ∈ B → st.1 !! q = Some (S d)).

(** Every level set so far is the length of a path from a root. *)
Definition sound (cbp : gmap string (list string)) (rts : list string)
    (d : nat) (st : BfsState) : Prop :=
  ∀ v dv, st.1 !! v = Some dv →
    dv ≤ S d ∧ ∃ rt, rt ∈ rts ∧ hpath (child cbp) rt v dv.

(** The children of [u] have their level, but for those whose id names
    an inherited property: the traversal passes them over. *)
Definition closed_at (cbp : gmap string (list string)) (st : BfsState)
    (u : string) (du : nat) : Prop :=
  ∀ v, child cbp u v → Js.inherited v = false →
    ∃ dv, st.1 !! v = Some dv ∧ dv ≤ S du.

(** The state between two turns of the loop. *)
Definition outer (cbp : gmap string (list string)) (rts : list string)
    (st : BfsState) : Prop :=
  ∃ d, layered d st ∧ NoDup st.2 ∧ sound cbp rts d st
    ∧ (∀ u du, st.1 !! u = Some du → u ∉ st.2 → du ≤ d ∧ closed_at cbp st u du)
    ∧ (∀ rt, rt ∈ rts → st.1 !! rt = Some 0).

(** The state inside a turn for the parent [p] of depth [dp], with the
    children [cs] still to visit. *)
Definition inner (cbp : gmap string (list string)) (rts : list string)
    (p : string) (dp : nat) (cs : list string) (st : BfsState) : Prop :=
  layered dp st ∧ NoDup st.2 ∧ sound cbp rts dp st
  ∧ (p ∉ st.2) ∧ st.1 !! p = Some dp
  ∧ (∀ u du, st.1 !! u = Some du → u ∉ st.2 →
       du ≤ dp ∧ (u ≠ p → closed_at cbp st u du))
  ∧ (∀ v, child cbp p v → Js.inherited v = false →
       v ∈ cs ∨ ∃ dv, st.1 !! v = Some dv ∧ dv ≤ S dp)
  ∧ (∀ c, c ∈ cs → child cbp p c)
  ∧ (∀ rt, rt ∈ rts → st.1 !! rt = Some 0).

(** The number of turns still to come is at most the queue length plus
    the number of ids of [U] without a level. *)
Definition pending (U : gset string) (st : BfsState) : nat :=
  length st.2 + size (U ∖ dom st.1).

(** ** Reading the input for inherited names *)

(** No node id other than "__proto__" and no source of a HIERARCHY edge
    names a property inherited from [Object.prototype]. *)
Definition plainDocument (w : Wbs) : Prop :=
  (∀ n, n ∈ rawNodes w → raw_id n = "__proto__" ∨ Js.inherited (raw_id n) = false)
  ∧ (∀ e, e ∈ rawEdges w → edge_type e = "HIERARCHY" →
       Js.inherited (edge_source e) = false).

(** ** Reading the views *)

(** [otherEndpoint f b i]: some edge of the base layout joins [f] and [i]. *)
Definition otherEndpoint (focus : string) (b : Base.t) (i : string) : Prop :=
  ∃ e, e ∈ Base.hierarchyEdges b ++ Base.dependencyEdges b
       ∧ ((WbsEdge.source e = focus ∧ WbsEdge.target e = i)
          ∨ (WbsEdge.target e = focus ∧ WbsEdge.source e = i)).

Definition baseIds (h : heap) (b : Base.t) : list string :=
  WbsNode.id <$> deref h (Base.baseNodes b).

(** What the local view around [focus] has to show. *)
Definition localViewContents (h : heap) (b : Base.t) (focus : string) : Prop :=
  let out := selectView LOCAL (Some focus) b h in
  (∃ c rest,
      deref out.1 (View.nodes out.2) = c :: rest
      ∧ WbsNode.id c = focus
      ∧ ∀ i, i ∈ WbsNode.id <$> rest ↔ i ∈ baseIds h b ∧ otherEndpoint focus b i)
  ∧ (∀ e, e ∈ View.edges out.2
          ↔ e ∈ Base.hierarchyEdges b ++ Base.dependencyEdges b
            ∧ (WbsEdge.source e = focus ∨ WbsEdge.target e = focus))
  ∧ View.edges out.2
    = filter (λ e, WbsEdge.source e = focus ∨ WbsEdge.target e = focus)
        (Base.hierarchyEdges b ++ Base.dependencyEdges b)
  ∧ length (View.edges out.2)
    = length (filter (λ e, WbsEdge.source e = focus ∨ WbsEdge.target e = focus)
                (Base.hierarchyEdges b ++ Base.dependencyEdges b)).

(** [sortedBy cmp l]: every id of [l] is at most, in the sense of [cmp],
    the ids that come after it. *)
Definition sortedBy (cmp : string → string → Z) (l : list string) : Prop :=
  ∀ i j a b, i < j → l !! i = Some a → l !! j = Some b → (cmp a b <= 0)%Z.

(** The events that close the context menu: the three left-clicks and
    the three menu items. *)
Definition closesMenu (ev : Event) : bool :=
  match ev with
  | NodeClick _ | EdgeClick _ | PaneClick
  | ReturnToWbs | ShowConnected | CreateConnected => true
  | PaneContextMenu _ _ | NodeContextMenu _ _ _ => false
  end.

(** ** Sample documents *)

Definition rawNode (id : string) : RawNode :=
  {| raw_id := id; raw_type := "TASK"; wbs_code := None; raw_data := None |}.

Definition rawEdge (id type source target : string) : RawEdge :=
  {| edge_id := id; edge_type := type; edge_source := source;
     edge_target := target; edge_data := None |}.

(** The example of the specification: A is the parent of B and C. *)
Definition wbsABC : Wbs :=
  {| nodes := Some [rawNode "A"; rawNode "B"; rawNode "C"];
     edges := Some [rawEdge "e1" "HIERARCHY" "A" "B";
                    rawEdge "e2" "HIERARCHY" "A" "C";
                    rawEdge "e3" "DOC_DEPENDS_ON" "C" "B"] |}.

(** A document whose only node is named like an inherited property. *)
Definition wbsConstructor : Wbs :=
  {| nodes := Some [rawNode "constructor"]; edges := Some [] |}.

(** A root with one child, named like an inherited property. *)
Definition wbsToString : Wbs :=
  {| nodes := Some [rawNode "r"; rawNode "toString"];
     edges := Some [rawEdge "e1" "HIERARCHY" "r" "toString"] |}.

Definition emptyBase : Base.t :=
  {| Base.baseNodes := []; Base.hierarchyEdges := []; Base.dependencyEdges := [] |}.

Definition storeABC : heap :=
  Eval vm_compute in from_option fst [] (buildBase wbsABC).
Definition baseABC : Base.t :=
  Eval vm_compute in from_option snd emptyBase (buildBase wbsABC).

(** The state after a right-click on node "A" at (10, 20) followed by
    "show connected nodes". *)
Definition stateLocalA : AppState :=
  (onShowConnected (onNodeContextMenu 10 20 "A" (initialState storeABC baseABC)).1).1.

(** ** Reading the base layout *)

(** The coordinates that the layout gives to the node of rank [index] in
    the column of depth [level]. *)
Definition gridPosition (level index : nat) : num * num :=
  (Mul (Int (Z.of_nat level)) (Int xGap), Mul (Int (Z.of_nat index)) (Int yGap)).

(** [nodesAtLevel] after the sort, read in the store [h]. *)
Definition sortedColumn (h : heap) (grouped : gmap nat (list addr)) (level : nat)
    : list addr :=
  Js.sort (λ a b, compareIds (id_at h a) (id_at h b)) (default [] (grouped !! level)).

(** The base nodes with their column and their rank in it. *)
Definition cells (h : heap) (grouped : gmap nat (list addr)) (levels : list nat)
    : list (nat * nat * addr) :=
  concat ((λ level, imap (λ index a, (level, index, a)) (sortedColumn h grouped level))
            <$> levels).

(** [lastWithId l k a]: the raw node at index [a] of [l] is the last one
    of id [k]. *)
Definition lastWithId (l : list RawNode) (k : string) (a : nat) : Prop :=
  ∃ n, l !! a = Some n ∧ raw_id n = k
       ∧ ∀ j m, a < j → l !! j = Some m → raw_id m ≠ k.

(** The nodes that [grouped] collects at [level], in the order of [ids]. *)
Definition levelColumn (levels : gmap string nat) (nodeMap : Js.obj addr)
    (ids : list string) (level : nat) : list addr :=
  omap (Js.get nodeMap) (filter (λ id, levels !! id = Some level) ids).

(** The cells of the base layout of [w]: for every column, in the order of
    the depths, the rank and the address of each of its nodes. *)
Definition baseCells (w : Wbs) : list (nat * nat * addr) :=
  match computeLevels w with
  | Some levels =>
      let grouped :=
        byLevel (foldl (groupNode levels (loadNodes w).2) emptyGroups (allNodeIds w)) in
      cells (loadNodes w).1 grouped (levelKeys grouped)
  | None => []
  end.

(** [cellHolds w levels c nd]: [nd] is the object made from the last raw
    node of its id, moved to the grid position of the cell [c], and the
    column of [c] is the depth of that id. *)
Definition cellHolds (w : Wbs) (levels : gmap string nat)
    (c : nat * nat * addr) (nd : WbsNode.t) : Prop :=
  ∃ n, rawNodes w !! c.2 = Some n
       ∧ lastWithId (rawNodes w) (raw_id n) c.2
       ∧ levels !! raw_id n = Some c.1.1
       ∧ nd = WbsNode.with_position (mkNode n) (gridPosition c.1.1 c.1.2).

(** A string of at most 15 decimal digits: [Number] gives its value
    without rounding, and two such strings compare in [localeCompare] as
    their character codes do. *)
Definition digitString (s : string) : Prop :=
  String.length s ≤ 15 ∧ is_Some (Js.Number s).

(** Every node id of depth [d] is such a digit string. *)
Definition numericLevel (w : Wbs) (levels : gmap string nat) (d : nat) : Prop :=
  ∀ id, isNode w id → levels !! id = Some d → digitString id.

(** The level index of the example. *)
Definition levelsABC : gmap string nat :=
  Eval vm_compute in default ∅ (computeLevels wbsABC).

(** A document with a node of id "__proto__". *)
Definition wbsProto : Wbs :=
  {| nodes := Some [rawNode "a"; rawNode "__proto__"]; edges := Some [] |}.

Definition storeProto : heap :=
  Eval vm_compute in from_option fst [] (buildBase wbsProto).
Definition baseProto : Base.t :=
  Eval vm_compute in from_option snd emptyBase (buildBase wbsProto).

(** A root with two children whose ids are numbers with leading zeros. *)
Definition wbsNumeric : Wbs :=
  {| nodes := Some [rawNode "1"; rawNode "010"; rawNode "09"];
     edges := Some [rawEdge "e1" "HIERARCHY" "1" "010";
                    rawEdge "e2" "HIERARCHY" "1" "09"] |}.

Definition storeNumeric : heap :=
  Eval vm_compute in from_option fst [] (buildBase wbsNumeric).
Definition baseNumeric : Base.t :=
  Eval vm_compute in from_option snd emptyBase (buildBase wbsNumeric).
Definition levelsNumeric : gmap string nat :=
  Eval vm_compute in default ∅ (computeLevels wbsNumeric).

(** The ids of the nodes that the selector returns. *)
Definition viewIds (out : heap * View.t) : list string :=
  WbsNode.id <$> deref out.1 (View.nodes out.2).

(** Some edge of the base layout joins [focus] to itself. *)
Definition selfLoop (focus : string) (b : Base.t) : Prop :=
  ∃ e, e ∈ Base.hierarchyEdges b ++ Base.dependencyEdges b
       ∧ WbsEdge.source e = focus ∧ WbsEdge.target e = focus.

(** The base nodes of the example. *)
Definition nodeA : WbsNode.t :=
  WbsNode.with_position (mkNode (rawNode "A")) (gridPosition 0 0).
Definition nodeB : WbsNode.t :=
  WbsNode.with_position (mkNode (rawNode "B")) (gridPosition 1 0).
Definition nodeC : WbsNode.t :=
  WbsNode.with_position (mkNode (rawNode "C")) (gridPosition 1 1).

(** The state after a right-click on the canvas at (30, 40) in
    [stateLocalA]. *)
Definition stateCanvasMenu : AppState := (onPaneContextMenu 30 40 stateLocalA).1.

(** * Properties *)

(** ** Objects in own-property order *)

Section obj_facts.
Context {V : Type}.
Implicit Types (o : Js.obj V) (k : string) (v : V).

Lemma get_None o k : Js.get o k = None ↔ k ∉ Js.keys o.
Proof.
  unfold Js.keys. induction o as [|[k' v'] o IH]; simpl.
  - split; [intros _; apply not_elem_of_nil | done].
  - rewrite not_elem_of_cons. destruct (decide (k' = k)) as [->|Hne].
    + split; [done | intros [? _]; done].
    + rewrite IH. split; [intros ?; split; [congruence | done] | intros [_ ?]; done].
Qed.

Lemma get_Some_elem o k v : Js.get o k = Some v → (k, v) ∈ o.
Proof.
  induction o as [|[k' v'] o IH]; simpl; [done|].
  destruct (decide (k' = k)) as [->|Hne].
  - intros [= ->]. apply list_elem_of_here.
  - intros H. apply list_elem_of_further, IH, H.
Qed.

Lemma keys_replace o k v : Js.keys (Js.replace o k v) = Js.keys o.
Proof.
  unfold Js.keys. induction o as [|[k' v'] o IH]; simpl; [done|].
  destruct (decide (k' = k)) as [->|Hne]; csimpl; [done | by rewrite IH].
Qed.

Lemma keys_insert_index o n k v :
  Js.keys (Js.insert_index o n k v) ≡ₚ k :: Js.keys o.
Proof.
  unfold Js.keys. induction o as [|[k' v'] o IH]; simpl; [done|].
  destruct (Js.array_index k') as [n'|]; [|done].
  destruct (n' <? n)%Z; csimpl; [|done].
  rewrite IH. apply Permutation_swap.
Qed.

Lemma keys_set o k v :
  Js.keys (Js.set o k v) ≡ₚ
    if decide (k ∈ Js.keys o) then Js.keys o else k :: Js.keys o.
Proof.
  unfold Js.set. destruct (Js.get o k) as [x|] eqn:Hget.
  - rewrite keys_replace. rewrite decide_True; [done|].
    destruct (decide (k ∈ Js.keys o)) as [|Hn]; [done|].
    apply get_None in Hn. congruence.
  - apply get_None in Hget. rewrite decide_False by done.
    destruct (Js.array_index k).
    + apply keys_insert_index.
    + unfold Js.keys. rewrite fmap_app. simpl.
      symmetry. apply Permutation_cons_append.
Qed.

Lemma elem_of_keys_set o k v k' :
  k' ∈ Js.keys (Js.set o k v) ↔ k' = k ∨ k' ∈ Js.keys o.
Proof.
  rewrite keys_set. case_decide.
  - split; [auto | intros [->|?]; done].
  - apply elem_of_cons.
Qed.

Lemma NoDup_keys_set o k v : NoDup (Js.keys o) → NoDup (Js.keys (Js.set o k v)).
Proof.
  intros Hnd. rewrite keys_set. case_decide; [done|].
  by apply NoDup_cons.
Qed.

End obj_facts.

(** ** Computations that can throw *)

Lemma forEach_cons_Returns {A B} (f : A → B → outcome A) a x l r :
  forEach f a (x :: l) = Returns r
  ↔ ∃ a', f a x = Returns a' ∧ forEach f a' l = Returns r.
Proof.
  simpl. destruct (f a x) as [a'| |]; simpl.
  - split; [eauto | by intros (? & [= <-] & ?)].
  - split; [done | by intros (? & ? & ?)].
  - split; [done | by intros (? & ? & ?)].
Qed.

Lemma forEach_pure {A B} (f : A → B → A) a l :
  forEach (λ a x, Returns (f a x)) a l = Returns (foldl f a l).
Proof. revert a. induction l as [|x l IH]; intros a; simpl; [done | apply IH]. Qed.

Lemma returned_Some {A} (o : outcome A) a : returned o = Some a ↔ o = Returns a.
Proof. destruct o; simpl; naive_solver. Qed.

Lemma bind_Returns {A B} (f : A → outcome B) (o : outcome A) b :
  o ≫= f = Returns b ↔ ∃ a, o = Returns a ∧ f a = Returns b.
Proof.
  destruct o as [a| |]; simpl.
  - split; [eauto | by intros (? & [= <-] & ?)].
  - split; [done | by intros (? & ? & ?)].
  - split; [done | by intros (? & ? & ?)].
Qed.

(** ** Inherited property names *)

Lemma read_own {V} (o : gmap string V) k v : Js.read o k = Js.own v ↔ o !! k = Some v.
Proof.
  unfold Js.read. destruct (o !! k); [naive_solver|].
  destruct (Js.inherited k); naive_solver.
Qed.

Lemma read_undefined {V} (o : gmap string V) k :
  Js.read o k = Js.undefined ↔ o !! k = None ∧ Js.inherited k = false.
Proof.
  unfold Js.read. destruct (o !! k); [naive_solver|].
  destruct (Js.inherited k); naive_solver.
Qed.

Lemma read_fromPrototype {V} (o : gmap string V) k :
  Js.read o k = Js.fromPrototype ↔ o !! k = None ∧ Js.inherited k = true.
Proof.
  unfold Js.read. destruct (o !! k); [naive_solver|].
  destruct (Js.inherited k); naive_solver.
Qed.

Lemma inherited_proto : Js.inherited "__proto__" = true.
Proof. reflexivity. Qed.

Lemma assign_insert {V} (o : gmap string V) k v :
  k ≠ "__proto__" → Js.assign o k v = <[k := v]> o.
Proof. intros Hk. unfold Js.assign. by rewrite decide_False. Qed.

Lemma assign_not_inherited {V} (o : gmap string V) k v :
  Js.inherited k = false → Js.assign o k v = <[k := v]> o.
Proof. intros Hk. apply assign_insert. by intros ->. Qed.

(** ** The loader *)

Lemma loadNode_fold_keys (l : list RawNode) (st : heap * Js.obj addr) k :
  k ∈ Js.keys (foldl loadNode st l).2
  ↔ k ∈ Js.keys st.2 ∨ (k ≠ "__proto__" ∧ ∃ n, n ∈ l ∧ raw_id n = k).
Proof.
  revert st. induction l as [|n l IH]; intros st; simpl.
  - split; [auto | intros [?|(_ & n & Hn & _)]; [done | by apply elem_of_nil in Hn]].
  - rewrite IH. unfold loadNode, alloc. simpl. case_decide as Hp; simpl.
    + split.
      * intros [?|(? & n' & Hn' & <-)]; [auto|]. right. split; [done|].
        exists n'. split; [by apply list_elem_of_further | done].
      * intros [?|(Hk & n' & Hn' & <-)]; [auto|].
        apply elem_of_cons in Hn' as [->|Hn']; [done | right; eauto].
    + rewrite elem_of_keys_set. split.
      * intros [[->|?]|(? & n' & Hn' & <-)]; [right; split; [done|] | auto | right; split; [done|]].
        -- exists n. split; [apply list_elem_of_here | done].
        -- exists n'. split; [by apply list_elem_of_further | done].
      * intros [?|(Hk & n' & Hn' & <-)]; [auto|].
        apply elem_of_cons in Hn' as [->|Hn']; [auto | right; eauto].
Qed.

Lemma loadNode_fold_NoDup (l : list RawNode) (st : heap * Js.obj addr) :
  NoDup (Js.keys st.2) → NoDup (Js.keys (foldl loadNode st l).2).
Proof.
  revert st. induction l as [|n l IH]; intros st Hnd; simpl; [done|].
  apply IH. unfold loadNode, alloc. simpl. case_decide; simpl; [done|].
  by apply NoDup_keys_set.
Qed.

Lemma elem_of_allNodeIds w id : id ∈ allNodeIds w ↔ isNode w id ∧ id ≠ "__proto__".
Proof.
  unfold allNodeIds, loadNodes, isNode. rewrite loadNode_fold_keys. simpl.
  split; [intros [H|[H1 H2]]; [by apply elem_of_nil in H | done] | intros [H1 H2]; auto].
Qed.

Lemma NoDup_allNodeIds w : NoDup (allNodeIds w).
Proof. apply loadNode_fold_NoDup. simpl. apply NoDup_nil_2. Qed.

(** ** The edge index *)

Lemma loadEdge_Returns acc e acc' :
  plainKeys (childrenByParent acc) →
  loadEdge acc e = Returns acc' →
  plainKeys (childrenByParent acc')
  ∧ ((edge_type e = "HIERARCHY" ∧ Js.inherited (edge_source e) = false
      ∧ acc' = addChild acc e (default [] (childrenByParent acc !! edge_source e)))
     ∨ (edge_type e ≠ "HIERARCHY"
        ∧ acc' = {| hierarchyEdges := hierarchyEdges acc;
                    dependencyEdges := dependencyEdges acc ++ [mkEdge e];
                    childrenByParent := childrenByParent acc;
                    childSet := childSet acc |})).
Proof.
  intros Hacc. unfold loadEdge, Js.read.
  case_decide as Ht; [|intros [= <-]; auto].
  assert (∀ cs, Js.inherited (edge_source e) = false →
            plainKeys (childrenByParent (addChild acc e cs))) as Hplain.
  { intros cs Hi k [x Hk]. simpl in Hk.
    destruct (decide (edge_source e = k)) as [<-|Hne]; [done|].
    rewrite lookup_insert_ne in Hk by done. apply Hacc. eauto. }
  destruct (childrenByParent acc !! edge_source e) as [cs|] eqn:Hcs; simpl.
  - intros [= <-]. assert (Js.inherited (edge_source e) = false) by (apply Hacc; eauto).
    auto.
  - destruct (Js.inherited (edge_source e)) eqn:Hi; [done|]. intros [= <-]. auto.
Qed.

Lemma loadEdge_Throws acc e :
  plainKeys (childrenByParent acc) →
  loadEdge acc e = Returns (default acc (returned (loadEdge acc e)))
  ∨ (loadEdge acc e = Throws
     ∧ edge_type e = "HIERARCHY" ∧ Js.inherited (edge_source e) = true).
Proof.
  intros Hacc. unfold loadEdge, Js.read. case_decide as Ht; [|auto].
  destruct (childrenByParent acc !! edge_source e) as [cs|] eqn:Hcs; simpl; [auto|].
  destruct (Js.inherited (edge_source e)) eqn:Hi; auto.
Qed.

Lemma plainKeys_empty : plainKeys (childrenByParent emptyIndex).
Proof. intros k [x Hk]. simpl in Hk. by rewrite lookup_empty in Hk. Qed.

Lemma loadEdge_fold_plain (l : list RawEdge) (acc idx : EdgeIndex) :
  plainKeys (childrenByParent acc) → forEach loadEdge acc l = Returns idx →
  plainKeys (childrenByParent idx).
Proof.
  revert acc. induction l as [|e l IH]; intros acc Hacc H.
  - by injection H as <-.
  - apply forEach_cons_Returns in H as (acc' & He & H).
    apply (IH acc'); [|done]. by apply (loadEdge_Returns acc e).
Qed.

Lemma loadEdge_fold_child (l : list RawEdge) (acc idx : EdgeIndex) u v :
  plainKeys (childrenByParent acc) → forEach loadEdge acc l = Returns idx →
  child (childrenByParent idx) u v
  ↔ child (childrenByParent acc) u v
    ∨ ∃ e, e ∈ l ∧ edge_type e = "HIERARCHY" ∧ edge_source e = u ∧ edge_target e = v.
Proof.
  revert acc. induction l as [|e l IH]; intros acc Hacc H.
  - injection H as <-.
    split; [auto | intros [?|(e & He & _)]; [done | by apply elem_of_nil in He]].
  - apply forEach_cons_Returns in H as (acc' & He & H).
    apply loadEdge_Returns in He as [Hacc' He]; [|done].
    rewrite (IH acc' Hacc' H). clear IH H.
    assert (child (childrenByParent acc') u v
            ↔ child (childrenByParent acc) u v
              ∨ (edge_type e = "HIERARCHY" ∧ edge_source e = u ∧ edge_target e = v))
      as ->.
    { unfold child. destruct He as [(Ht & _ & ->)|[Ht ->]]; simpl.
      - destruct (decide (edge_source e = u)) as [<-|Hne].
        + rewrite lookup_insert_eq. simpl. rewrite elem_of_app, list_elem_of_singleton.
          naive_solver.
        + rewrite lookup_insert_ne by done. naive_solver.
      - naive_solver. }
    split.
    + intros [[?|?]|(e' & He' & ?)]; [auto | right; exists e | right; exists e'];
        (split; [|done]); [apply list_elem_of_here | by apply list_elem_of_further].
    + intros [?|(e' & He' & ?)]; [auto|].
      apply elem_of_cons in He' as [->|He']; [auto | right; eauto].
Qed.

Lemma loadEdge_fold_childSet (l : list RawEdge) (acc idx : EdgeIndex) v :
  plainKeys (childrenByParent acc) → forEach loadEdge acc l = Returns idx →
  v ∈ childSet idx
  ↔ v ∈ childSet acc
    ∨ ∃ e, e ∈ l ∧ edge_type e = "HIERARCHY" ∧ edge_target e = v.
Proof.
  revert acc. induction l as [|e l IH]; intros acc Hacc H.
  - injection H as <-.
    split; [auto | intros [?|(e & He & _)]; [done | by apply elem_of_nil in He]].
  - apply forEach_cons_Returns in H as (acc' & He & H).
    apply loadEdge_Returns in He as [Hacc' He]; [|done].
    rewrite (IH acc' Hacc' H). clear IH H.
    assert (v ∈ childSet acc'
            ↔ v ∈ childSet acc ∨ (edge_type e = "HIERARCHY" ∧ edge_target e = v))
      as ->.
    { destruct He as [(Ht & _ & ->)|[Ht ->]]; simpl; [|naive_solver].
      rewrite elem_of_union, elem_of_singleton. naive_solver. }
    split.
    + intros [[?|?]|(e' & He' & ?)]; [auto | right; exists e | right; exists e'];
        (split; [|done]); [apply list_elem_of_here | by apply list_elem_of_further].
    + intros [?|(e' & He' & ?)]; [auto|].
      apply elem_of_cons in He' as [->|He']; [auto | right; eauto].
Qed.

Lemma loadEdge_fold_size (l : list RawEdge) (acc idx : EdgeIndex) :
  plainKeys (childrenByParent acc) → forEach loadEdge acc l = Returns idx →
  size (childSet acc) ≤ length (hierarchyEdges acc) →
  size (childSet idx) ≤ length (hierarchyEdges idx).
Proof.
  revert acc. induction l as [|e l IH]; intros acc Hacc H Hsize.
  - by injection H as <-.
  - apply forEach_cons_Returns in H as (acc' & He & H).
    apply loadEdge_Returns in He as [Hacc' He]; [|done].
    apply (IH acc' Hacc' H). destruct He as [(Ht & _ & ->)|[Ht ->]]; simpl; [|done].
    rewrite length_app. simpl.
    pose proof (size_union_alt {[edge_target e]} (childSet acc)) as Hs.
    rewrite size_singleton in Hs.
    assert (size (childSet acc ∖ {[edge_target e]}) ≤ size (childSet acc)) as Hd
      by (apply subseteq_size; set_solver).
    lia.
Qed.

Lemma loadEdges_plain w idx :
  loadEdges w = Returns idx → plainKeys (childrenByParent idx).
Proof. apply loadEdge_fold_plain, plainKeys_empty. Qed.

Lemma child_loadEdges w idx u v :
  loadEdges w = Returns idx →
  child (childrenByParent idx) u v ↔ hierarchy w u v.
Proof.
  intros H. rewrite (loadEdge_fold_child _ _ _ _ _ plainKeys_empty H).
  unfold child, hierarchy. simpl. rewrite lookup_empty. simpl.
  split; [intros [H'|H']; [by apply elem_of_nil in H' | exact H'] | intros H'; right; exact H'].
Qed.

Lemma elem_of_childSet w idx v :
  loadEdges w = Returns idx → v ∈ childSet idx ↔ ∃ u, hierarchy w u v.
Proof.
  intros H. rewrite (loadEdge_fold_childSet _ _ _ _ plainKeys_empty H).
  unfold hierarchy. simpl. split.
  - intros [H'|(e & ? & ? & ?)]; [set_solver|]. exists (edge_source e), e. done.
  - intros (u & e & ? & ? & ? & ?). right. exists e. done.
Qed.

Lemma size_childSet w idx :
  loadEdges w = Returns idx → size (childSet idx) ≤ length (hierarchyEdges idx).
Proof.
  intros H. apply (loadEdge_fold_size _ _ _ plainKeys_empty H).
  unfold emptyIndex, childSet, hierarchyEdges. rewrite size_empty. simpl. lia.
Qed.

(** The source of a HIERARCHY edge of a document that the loader accepts
    names no inherited property. *)
Lemma hierarchy_source_plain w idx u v :
  loadEdges w = Returns idx → hierarchy w u v → Js.inherited u = false.
Proof.
  intros H Huv. apply (child_loadEdges w idx u v H) in Huv.
  apply (loadEdges_plain w idx H). unfold child in Huv.
  destruct (childrenByParent idx !! u); [eauto | by apply elem_of_nil in Huv].
Qed.

Lemma elem_of_roots w idx id :
  loadEdges w = Returns idx → id ∈ roots idx w ↔ isRoot w id ∧ id ≠ "__proto__".
Proof.
  intros H. unfold roots, isRoot.
  rewrite list_elem_of_filter, elem_of_allNodeIds, (elem_of_childSet w idx _ H).
  split.
  - intros [H1 [H2 H3]]. split; [split; [done|]|done]. intros u Hu. apply H1. eauto.
  - intros [[H1 H2] H3]. split; [|done]. intros [u Hu]. by apply (H2 u).
Qed.

(** ** Breadth-first traversal *)

Lemma enqueueRoot_fold_queue (l : list string) (st : BfsState) :
  (foldl enqueueRoot st l).2 = st.2 ++ l.
Proof.
  revert st. induction l as [|x l IH]; intros st; simpl.
  - by rewrite app_nil_r.
  - rewrite IH. simpl. by rewrite <- app_assoc.
Qed.

Lemma enqueueRoot_fold_levels (l : list string) (st : BfsState) k :
  "__proto__" ∉ l →
  (foldl enqueueRoot st l).1 !! k = if decide (k ∈ l) then Some 0 else st.1 !! k.
Proof.
  revert st. induction l as [|x l IH]; intros st Hl.
  - simpl foldl. destruct (decide (k ∈ [])) as [H|H]; [by apply elem_of_nil in H | done].
  - apply not_elem_of_cons in Hl as [Hx Hl].
    simpl foldl. rewrite IH by done. simpl. rewrite assign_insert by done.
    destruct (decide (k ∈ l)) as [Hin|Hnin].
    + rewrite decide_True; [done | by apply list_elem_of_further].
    + destruct (decide (k = x)) as [->|Hne].
      * rewrite lookup_insert_eq, decide_True; [done | apply list_elem_of_here].
      * rewrite lookup_insert_ne by done. rewrite decide_False; [done|].
        rewrite elem_of_cons. tauto.
Qed.

Lemma visit_fold_queue d (cs : list string) (st : BfsState) :
  ∃ l, (foldl (visit d) st cs).2 = st.2 ++ l.
Proof.
  revert st. induction cs as [|c cs IH]; intros st; simpl.
  - exists []. by rewrite app_nil_r.
  - destruct (IH (visit d st c)) as [l ->]. unfold visit.
    destruct (Js.read st.1 c); simpl; eauto.
    exists ([c] ++ l). by rewrite app_assoc.
Qed.

(** A turn of the loop returns unless the parent names an inherited
    property and has no children of its own. *)
Lemma bfsStep_Returns cbp levels p queue :
  Js.read cbp p ≠ Js.fromPrototype →
  bfsStep cbp levels p queue
  = Returns (foldl (visit (levels !!! p)) (levels, queue) (default [] (cbp !! p))).
Proof.
  unfold bfsStep, Js.read. destruct (cbp !! p); [done|].
  destruct (Js.inherited p); done.
Qed.

Lemma bfsStep_Returns_inv cbp levels p queue st' :
  bfsStep cbp levels p queue = Returns st' →
  st' = foldl (visit (levels !!! p)) (levels, queue) (default [] (cbp !! p)).
Proof.
  intros H. rewrite bfsStep_Returns in H; [by injection H|].
  intros Hr. unfold bfsStep in H. by rewrite Hr in H.
Qed.

Section bfs_correct.
Context (cbp : gmap string (list string)) (rts : list string).
Context (Hplain : plainKeys cbp) (Hproto : "__proto__" ∉ rts).
Implicit Types (st : BfsState) (p u v q : string).

Lemma layered_queued d st q : layered d st → q ∈ st.2 → is_Some (st.1 !! q).
Proof.
  intros (A & B & -> & HA & HB) [Hq|Hq]%elem_of_app; eauto.
Qed.

Lemma outer_init : NoDup rts → outer cbp rts (foldl enqueueRoot (∅, []) rts).
Proof.
  intros Hnd. exists 0.
  assert (∀ k dk, (foldl enqueueRoot (∅, []) rts).1 !! k = Some dk → k ∈ rts ∧ dk = 0)
    as Hlv.
  { intros k dk. rewrite enqueueRoot_fold_levels by done. case_decide; simpl.
    - by intros [= <-].
    - by rewrite lookup_empty. }
  assert (∀ k, k ∈ rts → (foldl enqueueRoot (∅, []) rts).1 !! k = Some 0) as Hrt.
  { intros k Hk. rewrite enqueueRoot_fold_levels by done. by rewrite decide_True. }
  repeat split.
  - exists rts, []. rewrite enqueueRoot_fold_queue, app_nil_r. simpl.
    split; [done|]. split; [done|]. intros q Hq. by apply elem_of_nil in Hq.
  - by rewrite enqueueRoot_fold_queue.
  - apply Hlv in H as [_ ->]. lia.
  - apply Hlv in H as [Hv ->]. exists v. split; [done|]. constructor.
  - apply Hlv in H as [Hu _]. rewrite enqueueRoot_fold_queue in H0. done.
  - apply Hlv in H as [Hu _]. rewrite enqueueRoot_fold_queue in H0. done.
  - done.
Qed.

Lemma outer_pop levels p queue :
  outer cbp rts (levels, p :: queue) →
  inner cbp rts p (levels !!! p) (default [] (cbp !! p)) (levels, queue).
Proof.
  intros (d & (A & B & Hq & HA & HB) & Hnd & Hsound & Hdone & Hroots).
  simpl in *. apply NoDup_cons in Hnd as [Hp Hnd].
  assert (∃ dp, levels !! p = Some dp ∧ d ≤ dp ≤ S d
                ∧ layered dp (levels, queue)) as (dp & Hdp & Hle & Hlay).
  { destruct A as [|a A]; simpl in Hq.
    - destruct B as [|b B]; [done|]. injection Hq as -> ->.
      exists (S d). split; [apply HB, list_elem_of_here|]. split; [lia|].
      exists B, []. simpl. rewrite app_nil_r. split; [done|]. split.
      + intros q Hq. by apply HB, list_elem_of_further.
      + intros q Hq. by apply elem_of_nil in Hq.
    - injection Hq as -> ->.
      exists d. split; [apply HA, list_elem_of_here|]. split; [lia|].
      exists A, B. simpl. split; [done|]. split; [|done].
      intros q Hq. by apply HA, list_elem_of_further. }
  rewrite (lookup_total_correct _ _ _ Hdp).
  split; [done|]. split; [done|]. split.
  { intros v dv Hv. destruct (Hsound v dv Hv) as [? ?]. split; [lia | done]. }
  split; [done|]. split; [done|]. split.
  { intros u du Hu Hnq. simpl in *. destruct (decide (u = p)) as [->|Hne].
    - split; [|done]. assert (du = dp) by congruence. lia.
    - destruct (Hdone u du Hu) as [? ?].
      + rewrite not_elem_of_cons. done.
      + split; [lia | done]. }
  split; [by left|]. split; [done | done].
Qed.

Lemma inner_visit p dp c cs st :
  inner cbp rts p dp (c :: cs) st → inner cbp rts p dp cs (visit dp st c).
Proof.
  intros (Hlay & Hnd & Hsound & Hp & Hdp & Hdone & Hpend & Hcs & Hroots).
  unfold visit. destruct (Js.read st.1 c) as [dc| |] eqn:Hc.
  - apply read_own in Hc.
    split; [done|]. split; [done|]. split; [done|]. split; [done|].
    split; [done|]. split; [done|]. split.
    + intros v Hv Hi. destruct (Hpend v Hv Hi) as [[->|?]%elem_of_cons|?]; auto.
      right. exists dc. split; [done|]. by apply (Hsound c dc).
    + split; [|done]. intros c' Hc'. by apply Hcs, list_elem_of_further.
  - apply read_fromPrototype in Hc as [Hc Hic].
    split; [done|]. split; [done|]. split; [done|]. split; [done|].
    split; [done|]. split; [done|]. split.
    + intros v Hv Hi. destruct (Hpend v Hv Hi) as [[->|?]%elem_of_cons|?]; auto.
      congruence.
    + split; [|done]. intros c' Hc'. by apply Hcs, list_elem_of_further.
  - apply read_undefined in Hc as [Hc Hic]. rewrite assign_not_inherited by done.
    assert (c ∉ st.2) as Hcq.
    { intros Hin. apply (layered_queued _ _ _ Hlay) in Hin as [? ?]. congruence. }
    assert (∀ k dk, st.1 !! k = Some dk → <[c := S dp]> st.1 !! k = Some dk) as Hkeep.
    { intros k dk Hk. rewrite lookup_insert_ne; [done | congruence]. }
    simpl. split.
    { destruct Hlay as (A & B & Hq & HA & HB). exists A, (B ++ [c]). simpl.
      split; [by rewrite Hq, app_assoc|]. split.
      - intros q Hq'. eauto.
      - intros q [Hq'|Hq']%elem_of_app; [eauto|].
        apply list_elem_of_singleton in Hq' as ->. apply lookup_insert_eq. }
    split.
    { simpl. apply NoDup_app. split; [done|]. split; [|apply NoDup_singleton].
      intros q Hq ->%list_elem_of_singleton. done. }
    split.
    { intros v dv. simpl. destruct (decide (v = c)) as [->|Hne].
      - rewrite lookup_insert_eq. intros [= <-]. split; [lia|].
        destruct (Hsound p dp Hdp) as [_ (rt & Hrt & Hpath)].
        exists rt. split; [done|]. eapply hpath_step; [done|].
        apply Hcs, list_elem_of_here.
      - rewrite lookup_insert_ne by done. apply Hsound. }
    simpl. split.
    { rewrite elem_of_app, list_elem_of_singleton. intros [?| ->]; [done | congruence]. }
    split; [by apply Hkeep|]. split.
    { intros u du. rewrite elem_of_app, list_elem_of_singleton.
      intros Hu Hnq. assert (u ≠ c) as Hne by tauto.
      rewrite lookup_insert_ne in Hu by done.
      destruct (Hdone u du Hu) as [? Hcl]; [tauto|]. split; [done|].
      intros Hup v Hv Hi. destruct (Hcl Hup v Hv Hi) as (dv & ? & ?). eauto. }
    split.
    { intros v Hv Hi. destruct (Hpend v Hv Hi) as [[->|?]%elem_of_cons|(dv & ? & ?)]; eauto.
      right. exists (S dp). split; [apply lookup_insert_eq | lia]. }
    split; [|by eauto].
    intros c' Hc'. by apply Hcs, list_elem_of_further.
Qed.

Lemma inner_fold p dp cs st :
  inner cbp rts p dp cs st → inner cbp rts p dp [] (foldl (visit dp) st cs).
Proof.
  revert st. induction cs as [|c cs IH]; intros st Hin; simpl; [done|].
  by apply IH, inner_visit.
Qed.

Lemma inner_finish p dp st : inner cbp rts p dp [] st → outer cbp rts st.
Proof.
  intros (Hlay & Hnd & Hsound & Hp & Hdp & Hdone & Hpend & Hcs & Hroots).
  exists dp. split; [done|]. split; [done|]. split; [done|]. split; [|done].
  intros u du Hu Hnq. destruct (Hdone u du Hu Hnq) as [? Hcl]. split; [done|].
  destruct (decide (u = p)) as [->|Hne]; [|by apply Hcl].
  intros v Hv Hi. assert (du = dp) as -> by congruence.
  destruct (Hpend v Hv Hi) as [Hnil|?]; [by apply elem_of_nil in Hnil | done].
Qed.

Lemma bfsStep_outer levels p queue st' :
  outer cbp rts (levels, p :: queue) → bfsStep cbp levels p queue = Returns st' →
  outer cbp rts st'.
Proof.
  intros Hout ->%bfsStep_Returns_inv.
  eapply inner_finish, inner_fold, outer_pop, Hout.
Qed.

Lemma bfs_outer fuel st levels :
  outer cbp rts st → bfs cbp fuel st = Returns levels → outer cbp rts (levels, []).
Proof.
  revert st. induction fuel as [|fuel IH]; intros [lv queue] Hout; simpl.
  - destruct queue; [|done]. by intros [= <-].
  - destruct queue as [|p queue]; [by intros [= <-]|].
    intros (st' & Hstep & Hbfs)%bind_Returns.
    apply (IH st'); [|done]. by apply (bfsStep_outer lv p queue).
Qed.

(** What the traversal has computed once the queue is empty. *)
Lemma outer_final_sound levels v dv :
  outer cbp rts (levels, []) → levels !! v = Some dv →
  ∃ rt, rt ∈ rts ∧ hpath (child cbp) rt v dv.
Proof.
  intros (d & _ & _ & Hsound & _) Hv. by destruct (Hsound v dv Hv).
Qed.

Lemma child_source_plain u v : child cbp u v → Js.inherited u = false.
Proof.
  unfold child. intros Huv. apply Hplain.
  destruct (cbp !! u); [eauto | by apply elem_of_nil in Huv].
Qed.

Lemma outer_final_complete levels rt v n :
  outer cbp rts (levels, []) → rt ∈ rts → hpath (child cbp) rt v n →
  Js.inherited v = false →
  ∃ dv, levels !! v = Some dv ∧ dv ≤ n.
Proof.
  intros (d & _ & _ & _ & Hdone & Hroots) Hrt Hpath. simpl in *.
  induction Hpath as [u|u v v' n Hpath IH HE]; intros Hi.
  - exists 0. split; [by apply Hroots | lia].
  - destruct (IH Hrt) as (dv & Hv & Hle); [by apply (child_source_plain v v')|].
    destruct (Hdone v dv Hv) as [_ Hcl]; [apply not_elem_of_nil|].
    destruct (Hcl v' HE Hi) as (dv' & ? & ?). exists dv'. split; [done | lia].
Qed.

(** Only roots and ids that name no inherited property get a level. *)
Lemma visit_fold_assigned d cs st :
  (∀ v, is_Some (st.1 !! v) → v ∈ rts ∨ Js.inherited v = false) →
  ∀ v, is_Some ((foldl (visit d) st cs).1 !! v) → v ∈ rts ∨ Js.inherited v = false.
Proof.
  revert st. induction cs as [|c cs IH]; intros st Hst; simpl; [done|].
  apply IH. unfold visit. destruct (Js.read st.1 c) eqn:Hc; try done.
  apply read_undefined in Hc as [Hc Hi]. rewrite assign_not_inherited by done.
  simpl. intros v. destruct (decide (v = c)) as [->|Hne]; [auto|].
  rewrite lookup_insert_ne by done. apply Hst.
Qed.

Lemma bfs_assigned fuel st levels :
  (∀ v, is_Some (st.1 !! v) → v ∈ rts ∨ Js.inherited v = false) →
  bfs cbp fuel st = Returns levels →
  ∀ v, is_Some (levels !! v) → v ∈ rts ∨ Js.inherited v = false.
Proof.
  revert st. induction fuel as [|fuel IH]; intros [lv queue] Hst; simpl.
  - destruct queue; [|done]. by intros [= <-].
  - destruct queue as [|p queue]; [by intros [= <-]|].
    intros (st' & ->%bfsStep_Returns_inv & Hbfs)%bind_Returns.
    eapply IH; [|exact Hbfs]. by apply visit_fold_assigned.
Qed.

(** The loop throws when it takes from the queue an id that names an
    inherited property. *)
Lemma bfs_throws fuel st q levels :
  q ∈ st.2 → Js.inherited q = true → bfs cbp fuel st ≠ Returns levels.
Proof.
  intros Hq Hi. revert st Hq. induction fuel as [|fuel IH]; intros [lv queue] Hq; simpl in *.
  - destruct queue; [by apply elem_of_nil in Hq | done].
  - destruct queue as [|p queue]; [by apply elem_of_nil in Hq|].
    intros (st' & Hstep & Hbfs)%bind_Returns. revert Hbfs. apply IH.
    apply elem_of_cons in Hq as [->|Hq].
    + unfold bfsStep, Js.read in Hstep.
      destruct (cbp !! p) eqn:Hp; [|by rewrite Hi in Hstep].
      assert (Js.inherited p = false) by (apply Hplain; eauto). congruence.
    + apply bfsStep_Returns_inv in Hstep as ->.
      destruct (visit_fold_queue (lv !!! p) (default [] (cbp !! p)) (lv, queue)) as [l ->].
      simpl. apply elem_of_app. auto.
Qed.

(** Termination: every id is queued at most once. *)
Context (U : gset string) (HU : ∀ u v, child cbp u v → v ∈ U).

Lemma visit_pending d st c : c ∈ U → pending U (visit d st c) ≤ pending U st.
Proof.
  intros Hc. unfold visit, pending. destruct (Js.read st.1 c) eqn:Hr; try done.
  apply read_undefined in Hr as [Hl Hi]. rewrite assign_not_inherited by done.
  simpl. rewrite length_app, dom_insert_L. simpl.
  assert (c ∉ dom st.1) as Hnd by (by apply not_elem_of_dom).
  assert (U ∖ dom st.1 = {[c]} ∪ U ∖ ({[c]} ∪ dom st.1)) as Heq.
  { apply set_eq. intros k. rewrite elem_of_union, !elem_of_difference, elem_of_union,
      elem_of_singleton. destruct (decide (k = c)) as [->|]; naive_solver. }
  rewrite Heq.
  pose proof (size_union ({[c]} : gset string) (U ∖ ({[c]} ∪ dom st.1))) as Hs.
  rewrite Hs by set_solver. rewrite size_singleton. lia.
Qed.

Lemma visit_fold_pending d cs st :
  (∀ c, c ∈ cs → c ∈ U) → pending U (foldl (visit d) st cs) ≤ pending U st.
Proof.
  revert st. induction cs as [|c cs IH]; intros st Hcs; simpl; [done|].
  etrans; [apply IH|apply visit_pending].
  - intros c' Hc'. by apply Hcs, list_elem_of_further.
  - apply Hcs, list_elem_of_here.
Qed.

Lemma visit_fold_queue_plain d cs st :
  (∀ q, q ∈ st.2 → Js.inherited q = false) →
  ∀ q, q ∈ (foldl (visit d) st cs).2 → Js.inherited q = false.
Proof.
  revert st. induction cs as [|c cs IH]; intros st Hst; simpl; [done|].
  apply IH. unfold visit. destruct (Js.read st.1 c) eqn:Hc; try done.
  apply read_undefined in Hc as [Hc Hi]. simpl.
  intros q [?| ->%list_elem_of_singleton]%elem_of_app; auto.
Qed.

(** The loop never uses up its turns. *)
Lemma bfs_terminates fuel st : pending U st ≤ fuel → bfs cbp fuel st ≠ OutOfFuel.
Proof.
  revert st. induction fuel as [|fuel IH]; intros [lv queue] Hle.
  - destruct queue; [done|]. unfold pending in Hle. simpl in Hle. lia.
  - simpl. destruct queue as [|p queue]; [done|].
    destruct (bfsStep cbp lv p queue) as [st'| |] eqn:Hstep; simpl; [|done|].
    + apply IH. apply bfsStep_Returns_inv in Hstep as ->.
      etrans; [apply visit_fold_pending|].
      * intros c Hc. by apply (HU p).
      * unfold pending in *. simpl in *. lia.
    + unfold bfsStep in Hstep. by destruct (Js.read cbp p).
Qed.

(** It returns when no queued id names an inherited property. *)
Lemma bfs_returns fuel st :
  pending U st ≤ fuel → (∀ q, q ∈ st.2 → Js.inherited q = false) →
  ∃ levels, bfs cbp fuel st = Returns levels.
Proof.
  revert st. induction fuel as [|fuel IH]; intros [lv queue] Hle Hq.
  - destruct queue; [by eexists|]. unfold pending in Hle. simpl in Hle. lia.
  - simpl. destruct queue as [|p queue]; [by eexists|].
    rewrite bfsStep_Returns.
    + simpl. apply IH.
      * etrans; [apply visit_fold_pending|].
        -- intros c Hc. by apply (HU p).
        -- unfold pending in *. simpl in *. lia.
      * apply visit_fold_queue_plain. simpl in *. intros q Hq'.
        by apply Hq, list_elem_of_further.
    + intros [_ Hi]%read_fromPrototype. simpl in Hq.
      rewrite (Hq p) in Hi; [done | apply list_elem_of_here].
Qed.

End bfs_correct.

Lemma hpath_ext (E E' : string → string → Prop) u v n :
  (∀ a b, E a b → E' a b) → hpath E u v n → hpath E' u v n.
Proof.
  intros HE. induction 1 as [|u v v' n _ IH Hstep]; [constructor|].
  eapply hpath_step; [exact IH | by apply HE].
Qed.

Lemma defaultLevel_fold (ids : list string) (levels : gmap string nat) k :
  foldl defaultLevel levels ids !! k
  = match levels !! k with
    | Some d => Some d
    | None => if decide (k ∈ ids ∧ Js.inherited k = false) then Some 0 else None
    end.
Proof.
  revert levels. induction ids as [|id ids IH]; intros levels.
  - simpl foldl. destruct (levels !! k); [done|].
    rewrite decide_False; [done|]. intros [H _]. by apply elem_of_nil in H.
  - simpl foldl. rewrite IH. unfold defaultLevel.
    destruct (Js.read levels id) as [d| |] eqn:Hid.
    + apply read_own in Hid.
      destruct (levels !! k) as [dk|] eqn:Hk; [done|].
      assert (k ≠ id) by congruence.
      apply decide_ext. rewrite elem_of_cons. tauto.
    + apply read_fromPrototype in Hid as [Hid Hi].
      destruct (levels !! k) as [dk|] eqn:Hk; [done|].
      apply decide_ext. rewrite elem_of_cons. split; [tauto|].
      intros [[->|?] ?]; [congruence | tauto].
    + apply read_undefined in Hid as [Hid Hi]. rewrite assign_not_inherited by done.
      destruct (decide (k = id)) as [->|Hne].
      * rewrite lookup_insert_eq, Hid. rewrite decide_True; [done|].
        split; [apply list_elem_of_here | done].
      * rewrite lookup_insert_ne by done. destruct (levels !! k); [done|].
        apply decide_ext. rewrite elem_of_cons. tauto.
Qed.

Lemma roots_no_proto idx w : "__proto__" ∉ roots idx w.
Proof.
  unfold roots. rewrite list_elem_of_filter, elem_of_allNodeIds. tauto.
Qed.

Lemma bfsFuel_enough w idx :
  loadEdges w = Returns idx →
  pending (childSet idx) (foldl enqueueRoot (∅, []) (roots idx w)) ≤ bfsFuel idx w.
Proof.
  intros Hidx. unfold pending, bfsFuel. rewrite enqueueRoot_fold_queue. simpl.
  pose proof (size_childSet w idx Hidx).
  assert (size (childSet idx ∖ dom (foldl enqueueRoot (∅, []) (roots idx w)).1)
          ≤ size (childSet idx)) by (apply subseteq_size; set_solver).
  assert (length (roots idx w) ≤ length (allNodeIds w)) by apply length_filter.
  lia.
Qed.

Lemma child_in_childSet w idx u v :
  loadEdges w = Returns idx → child (childrenByParent idx) u v → v ∈ childSet idx.
Proof.
  intros Hidx Huv. apply (elem_of_childSet w idx v Hidx). exists u.
  by apply (child_loadEdges w idx).
Qed.

(** The level index that the traversal leaves is the one of [outer]. *)
Lemma bfs_result w idx levels :
  loadEdges w = Returns idx →
  bfs (childrenByParent idx) (bfsFuel idx w)
    (foldl enqueueRoot (∅, []) (roots idx w)) = Returns levels →
  outer (childrenByParent idx) (roots idx w) (levels, []).
Proof.
  intros Hidx Hbfs.
  eapply bfs_outer; [|exact Hbfs].
  apply outer_init; [apply roots_no_proto|]. apply NoDup_filter, NoDup_allNodeIds.
Qed.

(** [Object.keys] lists array indices first, in ascending order, and
    a key that is assigned twice keeps its place. *)
Example allNodeIds_order :
  allNodeIds {| nodes := Some [rawNode "b"; rawNode "10"; rawNode "a";
                               rawNode "2"; rawNode "01"; rawNode "b"];
                edges := None |}
  = ["2"; "10"; "b"; "a"; "01"].
Proof. reflexivity. Qed.

(** The depths of the example of the specification: A = 0, B = 1, C = 1. *)
Example wbsABC_depths :
  computeLevels wbsABC ≫= (λ levels, levels !! "A") = Some 0
  ∧ computeLevels wbsABC ≫= (λ levels, levels !! "B") = Some 1
  ∧ computeLevels wbsABC ≫= (λ levels, levels !! "C") = Some 1.
Proof. by vm_compute. Qed.

Lemma computeLevels_inv w levels :
  computeLevels w = Some levels →
  ∃ idx lv, loadEdges w = Returns idx
    ∧ bfs (childrenByParent idx) (bfsFuel idx w)
        (foldl enqueueRoot (∅, []) (roots idx w)) = Returns lv
    ∧ levels = foldl defaultLevel lv (allNodeIds w).
Proof.
  unfold computeLevels, levelsOutcome, runLevels.
  intros (idx & Hidx & (lv & Hbfs & [= <-])%bind_Returns)%returned_Some%bind_Returns.
  by exists idx, lv.
Qed.

Lemma hpath_first (E : string → string → Prop) u v n :
  hpath E u v n → (u = v ∧ n = 0) ∨ ∃ u', E u u'.
Proof.
  induction 1 as [|u v v' n _ IH Hstep]; [auto|].
  destruct IH as [[-> _]|?]; eauto.
Qed.

(** A root from which a path leads to an id that names no inherited
    property is one of the roots that the code finds. *)
Lemma path_root_found w idx rt id n :
  loadEdges w = Returns idx → isRoot w rt → hpath (hierarchy w) rt id n →
  Js.inherited id = false → rt ∈ roots idx w.
Proof.
  intros Hidx Hrt Hpath Hi. apply (elem_of_roots w idx rt Hidx). split; [done|].
  intros ->. apply hpath_first in Hpath as [[<- _]|[u' Hu']]; [done|].
  by apply (hierarchy_source_plain w idx _ _ Hidx) in Hu'.
Qed.

(** C1.  The traversal of lines 96-126 does not give every node its
    distance from the nearest root: [levels] and [childrenByParent] are
    object literals, and an id that names a property they inherit from
    [Object.prototype] is not looked up as a key.  In the document whose
    only node is "constructor", that node is a root, for which the claim
    asks depth 0: the loop takes it from the queue and throws, so no depth
    is assigned at all.  In the document where the root "r" has the child
    "toString", the child is at distance 1 from the nearest root: the
    traversal returns without a depth for it, and the layout that follows
    throws. *)
Theorem inherited_name_gets_no_depth :
  (isRoot wbsConstructor "constructor"
   ∧ levelsOutcome wbsConstructor = Throws)
  ∧ (isNode wbsToString "toString"
     ∧ bfsDistance wbsToString "toString" 1
     ∧ (∃ levels, levelsOutcome wbsToString = Returns levels
                  ∧ levels !! "toString" = None)
     ∧ runBase wbsToString = Throws).
Proof.
  split; [split|split; [|split; [|split]]].
  - split.
    + exists (rawNode "constructor"). split; [apply list_elem_of_here | reflexivity].
    + intros u (e & He & _). by apply elem_of_nil in He.
  - reflexivity.
  - exists (rawNode "toString"). split; [|reflexivity].
    apply list_elem_of_further, list_elem_of_here.
  - assert (∀ u v, hierarchy wbsToString u v → u = "r" ∧ v = "toString") as Hedge.
    { intros u v (e & He & _ & <- & <-).
      apply list_elem_of_singleton in He as ->. done. }
    assert (hierarchy wbsToString "r" "toString") as Hrt.
    { exists (rawEdge "e1" "HIERARCHY" "r" "toString").
      split; [apply list_elem_of_here | done]. }
    assert (isRoot wbsToString "r") as Hr.
    { split.
      - exists (rawNode "r"). split; [apply list_elem_of_here | reflexivity].
      - intros u Hu. by apply Hedge in Hu as [_ ?]. }
    split.
    + exists "r". split; [done|]. eapply hpath_step; [constructor | done].
    + intros rt n [_ Hnot] Hpath. destruct Hpath as [u|u v v' n Hpath Hstep]; [|lia].
      destruct (Hnot "r" Hrt).
  - eexists. split; [by vm_compute | by vm_compute].
  - by vm_compute.
Qed.

(** ** The view selector *)

Lemma deref_fresh (h : heap) (ns : list WbsNode.t) :
  deref (h ++ ns) (seq (length h) (length ns)) = ns.
Proof.
  unfold deref. revert h.
  induction ns as [|n ns IH]; intros h; simpl; [done|].
  rewrite list_lookup_middle by done. simpl. f_equal.
  specialize (IH (h ++ [n])). rewrite <- app_assoc, length_app in IH. simpl in IH.
  rewrite Nat.add_1_r in IH. exact IH.
Qed.


Lemma find_id_Some (l : list WbsNode.t) (f : string) :
  f ∈ WbsNode.id <$> l →
  ∃ c, find (λ n, bool_decide (WbsNode.id n = f)) l = Some c ∧ WbsNode.id c = f.
Proof.
  induction l as [|n l IH]; simpl.
  - intros H. by apply elem_of_nil in H.
  - intros H. case_bool_decide as Hn; [by exists n|].
    apply IH. apply elem_of_cons in H as [?|?]; [congruence | done].
Qed.

Lemma find_id_None (l : list WbsNode.t) (f : string) :
  f ∉ WbsNode.id <$> l →
  find (λ n, bool_decide (WbsNode.id n = f)) l = None.
Proof.
  induction l as [|n l IH]; simpl; [done|].
  rewrite not_elem_of_cons. intros [Hne Hl].
  case_bool_decide as Hn; [congruence | by apply IH].
Qed.

Lemma truthy_Some (f : string) : Js.truthy (Some f) = true ↔ f ≠ "".
Proof.
  unfold Js.truthy. destruct (String.eqb_spec f ""); simpl; split; done.
Qed.

Lemma addNeighbor_fold (focus : string) (l : list WbsEdge.t) (s : gset string) i :
  i ∈ foldl (addNeighbor focus) s l
  ↔ i ∈ s ∨ ∃ e, e ∈ l ∧ ((WbsEdge.source e = focus ∧ WbsEdge.target e = i)
                          ∨ (WbsEdge.target e = focus ∧ WbsEdge.source e = i)).
Proof.
  revert s. induction l as [|e l IH]; intros s; simpl.
  - split; [auto | intros [?|(e & He & _)]; [done | by apply elem_of_nil in He]].
  - rewrite IH. clear IH.
    assert (i ∈ addNeighbor focus s e
            ↔ i ∈ s ∨ ((WbsEdge.source e = focus ∧ WbsEdge.target e = i)
                       ∨ (WbsEdge.target e = focus ∧ WbsEdge.source e = i))) as ->.
    { unfold addNeighbor. repeat case_decide; set_solver. }
    split.
    + intros [[?|?]|(e' & He' & ?)]; [auto | right; exists e | right; exists e'];
        (split; [|done]); [apply list_elem_of_here | by apply list_elem_of_further].
    + intros [?|(e' & He' & ?)]; [auto|].
      apply elem_of_cons in He' as [->|He']; [auto | right; eauto].
Qed.

Lemma elem_of_neighborIds (focus : string) (b : Base.t) i :
  i ∈ neighborIds focus b ↔ otherEndpoint focus b i.
Proof.
  unfold neighborIds, otherEndpoint, incidentEdges. rewrite addNeighbor_fold.
  split.
  - intros [H|(e & (_ & He)%list_elem_of_filter & Hi)]; [set_solver | eauto].
  - intros (e & He & Hi). right. exists e. split; [|done].
    apply list_elem_of_filter. split; [|done]. unfold incident. tauto.
Qed.

Lemma neighborNodes_imap (ns : list WbsNode.t) :
  neighborNodes ns
  = imap (λ index n, WbsNode.with_position n (starPosition index (length ns))) ns.
Proof.
  unfold neighborNodes. case_decide as Hk; [|done]. by destruct ns.
Qed.

Lemma neighborNodes_ids (ns : list WbsNode.t) :
  WbsNode.id <$> neighborNodes ns = WbsNode.id <$> ns.
Proof.
  rewrite neighborNodes_imap, fmap_imap.
  etrans; [|apply imap_const]. by apply imap_ext.
Qed.

(** The selector in its two regimes. *)
Lemma selectView_fallback mode (focus : option string) (b : Base.t) (h : heap) :
  mode = GLOBAL ∨ Js.truthy focus = false
  ∨ (∃ f, focus = Some f ∧ f ∉ baseIds h b) →
  selectView mode focus b h = (h, globalView b).
Proof.
  unfold selectView. intros [->|[Hf|(f & -> & Hf)]].
  - done.
  - rewrite Hf. by rewrite orb_true_r.
  - destruct (bool_decide (mode = GLOBAL) || negb (Js.truthy (Some f))); [done|].
    simpl. by rewrite find_id_None.
Qed.

Lemma selectView_local (focus : string) (b : Base.t) (h : heap) :
  focus ≠ "" → focus ∈ baseIds h b →
  ∃ center,
    find (λ n, bool_decide (WbsNode.id n = focus)) (deref h (Base.baseNodes b))
      = Some center
    ∧ WbsNode.id center = focus
    ∧ selectView LOCAL (Some focus) b h
      = let fresh := WbsNode.with_position center (Int cx, Int cy)
                     :: neighborNodes (neighbors focus b h) in
        (h ++ fresh,
         {| View.nodes := seq (length h) (length fresh);
            View.edges := incidentEdges focus b |}).
Proof.
  intros Hne Hin. destruct (find_id_Some _ _ Hin) as (center & Hfind & Hid).
  exists center. split; [done|]. split; [done|].
  unfold selectView. apply truthy_Some in Hne. rewrite Hne. simpl.
  by rewrite Hfind.
Qed.

(** The contents of the local view that the selector builds for a focus
    id that is truthy and the id of some base node. *)
Lemma selectView_local_contents (h : heap) (b : Base.t) (focus : string) :
  focus ≠ "" → focus ∈ baseIds h b → localViewContents h b focus.
Proof.
  intros Hne Hin. unfold localViewContents.
  destruct (selectView_local focus b h Hne Hin) as (center & _ & Hid & ->).
  cbn [fst snd View.nodes View.edges]. rewrite deref_fresh. split; [|split; [|split]].
  - eexists _, _. split; [done|]. split; [done|].
    intros i. rewrite neighborNodes_ids. unfold neighbors.
    rewrite list_elem_of_fmap. setoid_rewrite list_elem_of_filter.
    rewrite <- elem_of_neighborIds. unfold baseIds. rewrite list_elem_of_fmap.
    naive_solver.
  - intros e. unfold incidentEdges. rewrite list_elem_of_filter. unfold incident. tauto.
  - done.
  - done.
Qed.

(** *** Store and base layout produced by the layout *)

Lemma elem_of_replace {V} (o : Js.obj V) k v p :
  p ∈ Js.replace o k v → p ∈ o ∨ p = (k, v).
Proof.
  induction o as [|[k' v'] o IH]; simpl; [auto|].
  case_decide; rewrite !elem_of_cons; naive_solver.
Qed.

Lemma elem_of_insert_index {V} (o : Js.obj V) n k v p :
  p ∈ Js.insert_index o n k v → p ∈ o ∨ p = (k, v).
Proof.
  induction o as [|[k' v'] o IH]; simpl.
  - rewrite list_elem_of_singleton. auto.
  - destruct (Js.array_index k') as [n'|]; [destruct (n' <? n)%Z|];
      rewrite !elem_of_cons; naive_solver.
Qed.

Lemma elem_of_set {V} (o : Js.obj V) k v p :
  p ∈ Js.set o k v → p ∈ o ∨ p = (k, v).
Proof.
  unfold Js.set. destruct (Js.get o k); [apply elem_of_replace|].
  destruct (Js.array_index k); [apply elem_of_insert_index|].
  rewrite elem_of_app, list_elem_of_singleton. auto.
Qed.

Lemma loadNode_fold_valid (l : list RawNode) (st : list WbsNode.t * Js.obj nat) :
  (∀ k a, (k, a) ∈ st.2 → a < length st.1) →
  ∀ k a, (k, a) ∈ (foldl loadNode st l).2 → a < length (foldl loadNode st l).1.
Proof.
  revert st. induction l as [|n l IH]; intros st Hst; simpl; [done|].
  apply IH. unfold loadNode, alloc. simpl. case_decide; simpl; intros k a Hka;
    rewrite length_app; simpl.
  - apply Hst in Hka. lia.
  - apply elem_of_set in Hka as [Hka|[= -> ->]]; [|lia].
    apply Hst in Hka. lia.
Qed.

Lemma groupNode_fold_valid (levels : gmap string nat) (nodeMap : Js.obj nat)
    (ids : list string) (grouped : Grouped) (P : nat → Prop) :
  (∀ k a, (k, a) ∈ nodeMap → P a) →
  (∀ l lst a, byLevel grouped !! l = Some lst → a ∈ lst → P a) →
  ∀ l lst a, byLevel (foldl (groupNode levels nodeMap) grouped ids) !! l = Some lst →
             a ∈ lst → P a.
Proof.
  intros Hmap. revert grouped. induction ids as [|id ids IH]; intros grouped Hg; simpl; [done|].
  apply IH. unfold groupNode. destruct (Js.get nodeMap id) as [nd|] eqn:Hget; [|done].
  destruct (Js.read levels id) as [level| |]; [|done|done]. simpl.
  intros l lst a. destruct (decide (level = l)) as [<-|Hne].
  - rewrite lookup_insert_eq. intros [= <-] [Ha|Ha]%elem_of_app.
    + destruct (byLevel grouped !! level) as [lst'|] eqn:Hl; simpl in Ha.
      * by apply (Hg _ _ _ Hl).
      * by apply elem_of_nil in Ha.
    + apply list_elem_of_singleton in Ha as ->.
      eapply Hmap, get_Some_elem, Hget.
  - rewrite lookup_insert_ne by done. apply Hg.
Qed.

(** A node without a level of its own is grouped under a key that is not
    a level. *)
Lemma groupNode_fold_other (levels : gmap string nat) (nodeMap : Js.obj nat)
    (ids : list string) (grouped : Grouped) :
  byOther grouped ≠ ∅
  ∨ (∃ k, k ∈ ids ∧ is_Some (Js.get nodeMap k) ∧ levels !! k = None) →
  byOther (foldl (groupNode levels nodeMap) grouped ids) ≠ ∅.
Proof.
  revert grouped. induction ids as [|id ids IH]; intros grouped; simpl.
  - intros [?|(k & H & _)]; [done | by apply elem_of_nil in H].
  - intros H. apply IH.
    assert (∀ key node, byOther (groupOther grouped key node) ≠ ∅) as Hother.
    { intros key node. simpl. apply insert_non_empty. }
    unfold groupNode, Js.read.
    destruct H as [H|(k & [->|Hin]%elem_of_cons & Hget & Hlv)].
    + left. destruct (Js.get nodeMap id); [|done].
      destruct (levels !! id); [done|]. by destruct (Js.inherited id).
    + left. destruct Hget as [nd ->]. rewrite Hlv. by destruct (Js.inherited id).
    + right. eauto.
Qed.

Lemma groupNode_fold_no_other (levels : gmap string nat) (nodeMap : Js.obj nat)
    (ids : list string) (grouped : Grouped) :
  (∀ id, id ∈ ids → is_Some (levels !! id)) →
  byOther (foldl (groupNode levels nodeMap) grouped ids) = byOther grouped.
Proof.
  revert grouped. induction ids as [|id ids IH]; intros grouped Hids; simpl; [done|].
  rewrite IH by (intros id' Hid'; by apply Hids, list_elem_of_further).
  unfold groupNode, Js.read. destruct (Js.get nodeMap id); [|done].
  destruct (Hids id) as [d ->]; [apply list_elem_of_here | done].
Qed.

Lemma elem_of_sort_insert {A} (cmp : A → A → Z) x l y :
  y ∈ Js.sort_insert cmp x l ↔ y = x ∨ y ∈ l.
Proof.
  induction l as [|z l IH]; simpl.
  - rewrite list_elem_of_singleton. split; [auto | intros [?|H]; [done | by apply elem_of_nil in H]].
  - destruct (cmp x z <=? 0)%Z; rewrite !elem_of_cons; [done|]. rewrite IH. tauto.
Qed.

Lemma elem_of_sort {A} (cmp : A → A → Z) l y : y ∈ Js.sort cmp l ↔ y ∈ l.
Proof.
  unfold Js.sort. induction l as [|x l IH]; simpl; [done|].
  rewrite elem_of_sort_insert, IH, elem_of_cons. done.
Qed.

Lemma set_position_length (h : list WbsNode.t) a p :
  length (set_position h a p) = length h.
Proof. unfold set_position. destruct (h !! a); [apply length_insert | done]. Qed.

Lemma placeLevel_valid level index (l : list nat) (st : list WbsNode.t * list nat) :
  let st' := placeLevel level index l st in
  length st'.1 = length st.1
  ∧ ∀ a, a ∈ st'.2 ↔ a ∈ st.2 ∨ a ∈ l.
Proof.
  revert index st. induction l as [|nd l IH]; intros index st; simpl.
  - split; [done|]. intros a. split; [auto | intros [?|H]; [done | by apply elem_of_nil in H]].
  - destruct (IH (S index)
      (set_position st.1 nd
         (Mul (Int (Z.of_nat level)) (Int xGap), Mul (Int (Z.of_nat index)) (Int yGap)),
       st.2 ++ [nd])) as [Hlen Hmem].
    simpl in *. split; [by rewrite Hlen, set_position_length|].
    intros a. rewrite Hmem, elem_of_app, list_elem_of_singleton, elem_of_cons. tauto.
Qed.

Lemma layoutColumn_fold_valid (grouped : gmap nat (list nat)) (levels : list nat)
    (st : list WbsNode.t * list nat) :
  (∀ l lst a, grouped !! l = Some lst → a ∈ lst → a < length st.1) →
  (∀ a, a ∈ st.2 → a < length st.1) →
  let st' := foldl (layoutColumn grouped) st levels in
  length st'.1 = length st.1 ∧ ∀ a, a ∈ st'.2 → a < length st'.1.
Proof.
  revert st. induction levels as [|l levels IH]; intros st Hg Hst; simpl; [done|].
  unfold layoutColumn at 2 4 5.
  destruct (placeLevel_valid l 0
    (Js.sort (λ a b, compareIds (id_at st.1 a) (id_at st.1 b)) (default [] (grouped !! l)))
    st) as [Hlen Hmem].
  destruct (IH (layoutColumn grouped st l)) as [Hlen' Hmem'].
  - unfold layoutColumn. rewrite Hlen. done.
  - unfold layoutColumn. rewrite Hlen. intros a [Ha|Ha]%Hmem; [auto|].
    apply elem_of_sort in Ha. destruct (grouped !! l) as [lst|] eqn:Hl; simpl in Ha.
    + by apply (Hg _ _ _ Hl).
    + by apply elem_of_nil in Ha.
  - unfold layoutColumn in *. split; [congruence | done].
Qed.

(** The outer loop returns exactly when every key of [grouped] is a
    level, and then it has laid out the columns in turn. *)
Lemma forEach_layoutLevel (grouped : Grouped) (ls : list nat) (os : list string)
    (st st' : list WbsNode.t * list nat) :
  forEach (layoutLevel grouped) st ((Some <$> ls) ++ ((λ _, None) <$> os)) = Returns st'
  ↔ os = [] ∧ st' = foldl (layoutColumn (byLevel grouped)) st ls.
Proof.
  revert st. induction ls as [|l ls IH]; intros st; simpl.
  - destruct os; simpl; naive_solver.
  - apply IH.
Qed.

(** What the first [useMemo] has done when it returns. *)
Lemma buildBase_inv w h b :
  buildBase w = Some (h, b) →
  ∃ idx levels,
    loadEdges w = Returns idx ∧ computeLevels w = Some levels
    ∧ (∀ id, id ∈ allNodeIds w → is_Some (levels !! id))
    ∧ (let grouped :=
         byLevel (foldl (groupNode levels (loadNodes w).2) emptyGroups (allNodeIds w)) in
       (h, Base.baseNodes b)
       = foldl (layoutColumn grouped) ((loadNodes w).1, []) (levelKeys grouped))
    ∧ Base.hierarchyEdges b = hierarchyEdges idx
    ∧ Base.dependencyEdges b = dependencyEdges idx.
Proof.
  unfold buildBase, runBase. intros H%returned_Some.
  destruct (loadNodes w) as [h0 nodeMap] eqn:Hnodes.
  apply bind_Returns in H as (idx & Hidx & H).
  apply bind_Returns in H as (levels & Hlv & H).
  apply bind_Returns in H as (st & Hst & [= <- <-]).
  apply forEach_layoutLevel in Hst as [Hother ->].
  exists idx, levels. split; [done|]. split.
  { unfold computeLevels, levelsOutcome. rewrite Hidx. simpl. by rewrite Hlv. }
  split; [|split; [|done]].
  - intros id Hid. destruct (levels !! id) as [d|] eqn:Hd; [eauto|]. exfalso.
    apply elements_empty_inv, leibniz_equiv, dom_empty_inv_L in Hother.
    revert Hother. apply groupNode_fold_other. right. exists id.
    split; [done|]. split; [|done].
    destruct (Js.get nodeMap id) eqn:Hget; [eauto|].
    apply get_None in Hget. unfold allNodeIds in Hid. rewrite Hnodes in Hid. done.
  - simpl. by destruct (foldl _ (h0, []) _).
Qed.

Lemma buildBase_edges w h b :
  buildBase w = Some (h, b) →
  ∃ idx, loadEdges w = Returns idx
    ∧ Base.hierarchyEdges b = hierarchyEdges idx
    ∧ Base.dependencyEdges b = dependencyEdges idx.
Proof. intros (idx & ? & ? & _ & _ & _ & ? & ?)%buildBase_inv. eauto. Qed.

Lemma buildBase_valid w h b :
  buildBase w = Some (h, b) → ∀ a, a ∈ Base.baseNodes b → a < length h.
Proof.
  intros (idx & levels & _ & _ & _ & Hlay & _)%buildBase_inv.
  pose proof (loadNode_fold_valid (rawNodes w) ([], [])) as Hload.
  fold (loadNodes w) in Hload. destruct (loadNodes w) as [h0 nodeMap] eqn:Hnodes.
  simpl in Hload, Hlay.
  destruct (layoutColumn_fold_valid
    (byLevel (foldl (groupNode levels nodeMap) emptyGroups (allNodeIds w)))
    (levelKeys (byLevel (foldl (groupNode levels nodeMap) emptyGroups (allNodeIds w))))
    (h0, []))
    as [_ Hmem].
  - apply groupNode_fold_valid.
    + apply Hload. intros k a Hka. by apply elem_of_nil in Hka.
    + intros l lst a. simpl. by rewrite lookup_empty.
  - intros a Ha. by apply elem_of_nil in Ha.
  - rewrite <- Hlay in Hmem. exact Hmem.
Qed.

Lemma loadEdge_fold_labels (l : list RawEdge) (acc idx : EdgeIndex) :
  forEach loadEdge acc l = Returns idx →
  (∀ e, e ∈ hierarchyEdges acc → WbsEdge.label e = "HIERARCHY") →
  (∀ e, e ∈ dependencyEdges acc → WbsEdge.label e ≠ "HIERARCHY") →
  (∀ e, e ∈ hierarchyEdges idx → WbsEdge.label e = "HIERARCHY")
  ∧ (∀ e, e ∈ dependencyEdges idx → WbsEdge.label e ≠ "HIERARCHY").
Proof.
  revert acc. induction l as [|x l IH]; intros acc H Hh Hd.
  - by injection H as <-.
  - apply forEach_cons_Returns in H as (acc' & Hx & H).
    apply (IH acc' H); revert Hx; unfold loadEdge; case_decide;
      [destruct (Js.read _ _)| |destruct (Js.read _ _)|]; intros [= <-]; simpl; try done.
    + intros e [He|He]%elem_of_app; [auto|]. by apply list_elem_of_singleton in He as ->.
    + intros e [He|He]%elem_of_app; [auto|]. by apply list_elem_of_singleton in He as ->.
    + intros e [He|He]%elem_of_app; [auto|]. by apply list_elem_of_singleton in He as ->.
Qed.

Lemma loadEdges_labels w idx :
  loadEdges w = Returns idx →
  (∀ e, e ∈ hierarchyEdges idx → WbsEdge.label e = "HIERARCHY")
  ∧ (∀ e, e ∈ dependencyEdges idx → WbsEdge.label e ≠ "HIERARCHY").
Proof.
  intros H. apply (loadEdge_fold_labels _ _ _ H); intros e He; by apply elem_of_nil in He.
Qed.

(** The layout of the example: A in column 0, B above C in column 1. *)
Example wbsABC_layout :
  buildBase wbsABC = Some (storeABC, baseABC)
  ∧ baseIds storeABC baseABC = ["A"; "B"; "C"]
  ∧ WbsNode.position <$> deref storeABC (Base.baseNodes baseABC)
    = [(Mul (Int 0) (Int 260), Mul (Int 0) (Int 120));
       (Mul (Int 1) (Int 260), Mul (Int 0) (Int 120));
       (Mul (Int 1) (Int 260), Mul (Int 1) (Int 120))].
Proof. by vm_compute. Qed.

(** The local view of the example around B: B, then its neighbours A and C
    in base order, with the hierarchy edge from A and the dependency edge
    from C. *)
Example wbsABC_local_view :
  WbsNode.id <$> deref (selectView LOCAL (Some "B") baseABC storeABC).1
                   (View.nodes (selectView LOCAL (Some "B") baseABC storeABC).2)
  = ["B"; "A"; "C"]
  ∧ WbsEdge.id <$> View.edges (selectView LOCAL (Some "B") baseABC storeABC).2
    = ["e1"; "e3"].
Proof. by vm_compute. Qed.

(** C3.  On the base layout of any input document, when the mode is
    GLOBAL, or the mode is LOCAL and no focus id is set, or the focus id
    is the id of no base node, the selector returns the base node sequence
    and the hierarchy-edge sequence, and leaves the store as it is.  Every
    edge it returns is then labelled HIERARCHY and is none of the
    dependency edges, and the result is the one of the GLOBAL mode. *)
Theorem global_view_only_hierarchy (w : Wbs) h (b : Base.t) mode (focus : option string) :
  buildBase w = Some (h, b) →
  mode = GLOBAL ∨ (mode = LOCAL ∧ focus = None)
  ∨ (∃ f, focus = Some f ∧ f ∉ baseIds h b) →
  selectView mode focus b h
  = (h, {| View.nodes := Base.baseNodes b; View.edges := Base.hierarchyEdges b |})
  ∧ (∀ e, e ∈ View.edges (selectView mode focus b h).2 →
          WbsEdge.label e = "HIERARCHY" ∧ e ∉ Base.dependencyEdges b)
  ∧ selectView mode focus b h = selectView GLOBAL focus b h.
Proof.
  intros Hbase Hcond.
  assert (selectView mode focus b h = (h, globalView b)) as Hsel.
  { apply selectView_fallback. destruct Hcond as [?|[[_ ->]|?]]; auto. }
  rewrite Hsel. split; [done|]. split.
  - destruct (buildBase_edges _ _ _ Hbase) as (idx & Hidx & Hh & Hd).
    destruct (loadEdges_labels w idx Hidx) as [Hlh Hld].
    simpl. rewrite Hh, Hd. intros e He. split; [by apply Hlh|].
    intros Hdep. apply Hld in Hdep. apply Hlh in He. done.
  - symmetry. apply selectView_fallback. by left.
Qed.

Lemma global_view_only_hierarchy_witness :
  buildBase wbsABC = Some (storeABC, baseABC)
  ∧ ("Z" ∉ baseIds storeABC baseABC)
  ∧ selectView LOCAL (Some "Z") baseABC storeABC
    = selectView GLOBAL (Some "Z") baseABC storeABC.
Proof.
  split; [vm_compute; reflexivity|]. split; [compute_done|].
  apply (global_view_only_hierarchy wbsABC storeABC baseABC LOCAL (Some "Z")).
  - vm_compute; reflexivity.
  - right. right. exists "Z". split; [reflexivity | compute_done].
Defined.

(** C4.  For a valid focus id, that is a non-empty id of some base node,
    the local view is the focus node placed at (0, 0) followed by one node
    for each of the [k] neighbours, in the order in which the neighbours
    occur in the base node sequence.  Read in real arithmetic, the node of
    the [i]-th neighbour is at (220 cos(2 pi i / k), 220 sin(2 pi i / k)),
    at distance 220 from the origin; with [k = 0] the view holds the focus
    node alone. *)
Theorem local_view_star (h : list WbsNode.t) (b : Base.t) (focus : string) :
  focus ≠ "" → focus ∈ baseIds h b →
  let out := selectView LOCAL (Some focus) b h in
  let ns := filter (λ n, WbsNode.id n ∈ neighborIds focus b)
              (deref h (Base.baseNodes b)) in
  let k := length ns in
  ∃ c rest,
    deref out.1 (View.nodes out.2) = c :: rest
    ∧ WbsNode.id c = focus
    ∧ WbsNode.position c = (Int 0, Int 0)
    ∧ length rest = k
    ∧ (∀ i n, ns !! i = Some n →
         ∃ n', rest !! i = Some n'
           ∧ WbsNode.id n' = WbsNode.id n
           ∧ Rval (WbsNode.position n').1 = (220 * cos (2 * Rtrigo1.PI * INR i / INR k))%R
           ∧ Rval (WbsNode.position n').2 = (220 * sin (2 * Rtrigo1.PI * INR i / INR k))%R
           ∧ sqrt ((Rval (WbsNode.position n').1)² + (Rval (WbsNode.position n').2)²)
             = 220%R)
    ∧ (k = 0 → deref out.1 (View.nodes out.2) = [c]).
Proof.
  intros Hne Hin. cbv zeta.
  destruct (selectView_local focus b h Hne Hin) as (center & _ & Hid & ->).
  cbn [fst snd View.nodes View.edges]. rewrite deref_fresh.
  fold (neighbors focus b h). set (ns := neighbors focus b h).
  exists (WbsNode.with_position center (Int cx, Int cy)), (neighborNodes ns).
  split; [done|]. split; [done|]. split; [done|].
  rewrite neighborNodes_imap.
  split; [apply length_imap|]. split.
  - intros i n Hi. rewrite list_lookup_imap, Hi.
    eexists. split; [reflexivity|]. split; [done|].
    cbn [WbsNode.position WbsNode.with_position starPosition fst snd].
    assert (Rval (Add (Int cx) (Mul (Int r) (Cos (angle i (length ns)))))
            = (220 * cos (2 * Rtrigo1.PI * INR i / INR (length ns)))%R) as Hx.
    { simpl. rewrite <- !INR_IZR_INZ. unfold cx, r. lra. }
    assert (Rval (Add (Int cy) (Mul (Int r) (Sin (angle i (length ns)))))
            = (220 * sin (2 * Rtrigo1.PI * INR i / INR (length ns)))%R) as Hy.
    { simpl. rewrite <- !INR_IZR_INZ. unfold cy, r. lra. }
    rewrite Hx, Hy. split; [done|]. split; [done|].
    set (a := (2 * Rtrigo1.PI * INR i / INR (length ns))%R).
    replace ((220 * cos a)² + (220 * sin a)²)%R with (220²)%R.
    + apply sqrt_Rsqr. lra.
    + pose proof (sin2_cos2 a) as Hsc. unfold Rsqr in *. nra.
  - intros Hk. destruct ns; [done | discriminate Hk].
Qed.

Lemma local_view_star_witness :
  "B" ≠ "" ∧ "B" ∈ baseIds storeABC baseABC
  ∧ ∃ c rest,
      deref (selectView LOCAL (Some "B") baseABC storeABC).1
        (View.nodes (selectView LOCAL (Some "B") baseABC storeABC).2) = c :: rest
      ∧ WbsNode.position c = (Int 0, Int 0) ∧ length rest = 2.
Proof.
  split; [discriminate|]. split; [compute_done|].
  destruct (local_view_star storeABC baseABC "B") as (c & rest & H1 & _ & H3 & H4 & _);
    [discriminate | compute_done |].
  exists c, rest. split; [exact H1|]. split; [exact H3|]. exact H4.
Defined.

Lemma selectView_cases mode (focus : option string) (b : Base.t) (h : list WbsNode.t) :
  selectView mode focus b h = (h, globalView b)
  ∨ ∃ f, mode = LOCAL ∧ focus = Some f ∧ f ≠ "" ∧ f ∈ baseIds h b.
Proof.
  destruct mode; [left; apply selectView_fallback; by left|].
  destruct focus as [f|]; [|left; apply selectView_fallback; right; by left].
  destruct (decide (f = "")) as [->|Hne];
    [left; apply selectView_fallback; right; by left|].
  destruct (decide (f ∈ baseIds h b));
    [right; by exists f | left; apply selectView_fallback; right; right; by exists f].
Qed.

(** C8.  Computing a view on the store and base layout of an input
    document overwrites no object of the store: every base node is after
    the computation the object that the layout left.  For a valid focus id
    (non-empty, the id of some base node) every node of the local view is a
    new object, at an address that the store did not have and that no base
    node has, and its position is the origin or a point of the star. *)
Theorem local_view_leaves_base (w : Wbs) (h : list WbsNode.t) (b : Base.t)
    mode (focus : option string) :
  buildBase w = Some (h, b) →
  let out := selectView mode focus b h in
  (∀ a n, h !! a = Some n → out.1 !! a = Some n)
  ∧ (∀ a, a ∈ Base.baseNodes b → ∃ n, h !! a = Some n ∧ out.1 !! a = Some n)
  ∧ (∀ f, mode = LOCAL → focus = Some f → f ≠ "" → f ∈ baseIds h b →
       ∀ a, a ∈ View.nodes out.2 →
         (a ∉ Base.baseNodes b) ∧ h !! a = None
         ∧ ∃ n, out.1 !! a = Some n
             ∧ (WbsNode.position n = (Int 0, Int 0)
                ∨ ∃ i k, WbsNode.position n = starPosition i k)).
Proof.
  intros Hbase. cbv zeta.
  assert (∀ a n, h !! a = Some n → (selectView mode focus b h).1 !! a = Some n) as Hkeep.
  { intros a n Ha. destruct (selectView_cases mode focus b h) as [->|(f & -> & -> & Hne & Hin)];
      [done|].
    destruct (selectView_local f b h Hne Hin) as (center & _ & _ & ->).
    cbn [fst]. by apply lookup_app_l_Some. }
  split; [done|]. split.
  { intros a Ha. apply (buildBase_valid _ _ _ Hbase) in Ha.
    destruct (lookup_lt_is_Some_2 h a Ha) as [n Hn]. eauto. }
  intros f -> -> Hne Hin a.
  destruct (selectView_local f b h Hne Hin) as (center & _ & _ & ->).
  cbn [fst snd View.nodes]. intros Ha. apply elem_of_seq in Ha as [Hlo Hhi].
  split.
  { intros Hb. apply (buildBase_valid _ _ _ Hbase) in Hb. lia. }
  split; [by apply lookup_ge_None|].
  rewrite lookup_app_r by done.
  destruct (lookup_lt_is_Some_2
    (WbsNode.with_position center (Int cx, Int cy) :: neighborNodes (neighbors f b h))
    (a - length h)) as [n Hn]; [lia|].
  exists n. split; [done|].
  destruct (a - length h) as [|j]; simpl in Hn.
  - injection Hn as <-. by left.
  - right. rewrite neighborNodes_imap, list_lookup_imap in Hn.
    destruct (neighbors f b h !! j) as [m|]; [|done]. injection Hn as <-.
    by exists j, (length (neighbors f b h)).
Qed.

Lemma local_view_leaves_base_witness :
  buildBase wbsABC = Some (storeABC, baseABC)
  ∧ ∀ a n, storeABC !! a = Some n →
      (selectView LOCAL (Some "B") baseABC storeABC).1 !! a = Some n.
Proof.
  split; [vm_compute; reflexivity|].
  apply (local_view_leaves_base wbsABC storeABC baseABC LOCAL (Some "B")).
  vm_compute; reflexivity.
Defined.

(** C5.  The comparator of the level sort is cyclic on the ids "9", "10"
    and "5x": "9" sorts before "10" as a number, "10" before "5x" and "5x"
    before "9" as strings.  Hence no strict order contains the comparator,
    and no arrangement of a level that holds the three ids is ordered by
    it. *)
Theorem compareIds_cycle :
  (compareIds "9" "10" < 0)%Z
  ∧ (compareIds "10" "5x" < 0)%Z
  ∧ (compareIds "5x" "9" < 0)%Z
  ∧ (¬ ∃ R : relation string,
         StrictOrder R ∧ ∀ a b, (compareIds a b < 0)%Z → R a b)
  ∧ (¬ ∃ l, "9" ∈ l ∧ "10" ∈ l ∧ "5x" ∈ l ∧ sortedBy compareIds l).
Proof.
  split; [by vm_compute|]. split; [by vm_compute|]. split; [by vm_compute|].
  split.
  - intros (R & [Hirr Htr] & HR).
    apply (Hirr "9"). apply (Htr _ "10"); [apply HR; by vm_compute|].
    apply (Htr _ "5x"); apply HR; by vm_compute.
  - intros (l & [i Hi]%list_elem_of_lookup & [j Hj]%list_elem_of_lookup
              & [k Hk]%list_elem_of_lookup & Hs).
    assert (i ≠ j) by (intros ->; congruence).
    assert (j ≠ k) by (intros ->; congruence).
    assert (i ≠ k) by (intros ->; congruence).
    assert (¬ j < i) as Hji.
    { intros Hlt. specialize (Hs j i _ _ Hlt Hj Hi). by vm_compute in Hs. }
    assert (¬ k < j) as Hkj.
    { intros Hlt. specialize (Hs k j _ _ Hlt Hk Hj). by vm_compute in Hs. }
    assert (¬ i < k) as Hik.
    { intros Hlt. specialize (Hs i k _ _ Hlt Hi Hk). by vm_compute in Hs. }
    lia.
Qed.

(** C6.  From every state, the canvas menu item "return to WBS" leaves
    the view mode GLOBAL, the focus node id null and the context menu
    hidden. *)
Theorem return_to_wbs_resets (s : AppState) :
  viewMode (onReturnToWbs s).1 = GLOBAL
  ∧ focusNodeId (onReturnToWbs s).1 = None
  ∧ ContextMenuState.visible (contextMenu (onReturnToWbs s).1) = false.
Proof. done. Qed.

(** C7.  The node menu item "create connected node" raises the alert,
    hides the context menu and changes nothing else: the store, the base
    layout (base nodes and both edge sequences), the view mode and the
    focus node id are those of the state before, and so is the rendered
    view. *)
Theorem create_connected_only_notifies (s : AppState) :
  alert notYetMessage ∈ (onCreateConnected s).2
  ∧ ContextMenuState.visible (contextMenu (onCreateConnected s).1) = false
  ∧ store (onCreateConnected s).1 = store s
  ∧ base (onCreateConnected s).1 = base s
  ∧ viewMode (onCreateConnected s).1 = viewMode s
  ∧ focusNodeId (onCreateConnected s).1 = focusNodeId s
  ∧ render (onCreateConnected s).1 = render s.
Proof.
  repeat split. simpl. apply list_elem_of_further, list_elem_of_here.
Qed.

Lemma handle_focus ev s s' effects :
  handle ev s = Some (s', effects) →
  (viewMode s = LOCAL → Js.truthy (focusNodeId s) = true) →
  viewMode s' = LOCAL → Js.truthy (focusNodeId s') = true.
Proof.
  intros Hev Hinv. destruct ev; simpl in Hev;
    try (injection Hev as <- _; exact Hinv).
  - destruct (rendered canvas s); [|done]. injection Hev as <- _. done.
  - destruct (rendered node s); [|done]. injection Hev as <- _.
    simpl. destruct (Js.truthy (ContextMenuState.nodeId (contextMenu s))) eqn:Ht.
    + intros _. exact Ht.
    + exact Hinv.
  - destruct (rendered node s); [|done]. injection Hev as <- _. exact Hinv.
Qed.

Lemma reachable_focus h b s :
  reachable h b s → viewMode s = LOCAL → Js.truthy (focusNodeId s) = true.
Proof.
  induction 1 as [|s s' _ IH Hstep]; [done|].
  destruct Hstep as [ev s s' effects Hev]. by eapply handle_focus.
Qed.

Lemma handle_graph ev s s' effects :
  handle ev s = Some (s', effects) → store s' = store s ∧ base s' = base s.
Proof.
  intros Hev. destruct ev; simpl in Hev;
    repeat match type of Hev with
           | (if ?c then _ else _) = _ => destruct c; [|done]
           end;
    injection Hev as <- _; simpl; try done.
  by destruct (Js.truthy _).
Qed.

Lemma reachable_graph h b s : reachable h b s → store s = h ∧ base s = b.
Proof.
  induction 1 as [|s s' _ [IH1 IH2] Hstep]; [done|].
  destruct Hstep as [ev s s' effects Hev].
  destruct (handle_graph _ _ _ _ Hev) as [-> ->]. done.
Qed.

(** C9.  In every state reachable from the initial state by gesture and
    menu events, the mode LOCAL comes with a focus node id that is not
    null. *)
Theorem local_mode_has_focus h (b : Base.t) (s : AppState) :
  reachable h b s → viewMode s = LOCAL → focusNodeId s ≠ None.
Proof.
  intros Hr Hl Hnone. apply (reachable_focus _ _ _ Hr) in Hl.
  by rewrite Hnone in Hl.
Qed.

Lemma local_mode_has_focus_witness :
  reachable storeABC baseABC stateLocalA
  ∧ viewMode stateLocalA = LOCAL
  ∧ focusNodeId stateLocalA ≠ None.
Proof.
  assert (reachable storeABC baseABC stateLocalA) as Hr.
  { apply (reachable_step _ _
             (onNodeContextMenu 10 20 "A" (initialState storeABC baseABC)).1).
    - apply (reachable_step _ _ (initialState storeABC baseABC));
        [apply reachable_init|].
      by apply (step_event (NodeContextMenu 10 20 "A") _ _
                  [preventDefault; consoleLog "Node right-clicked:" (Some "A")]).
    - by apply (step_event ShowConnected _ _ []). }
  split; [exact Hr|]. split; [reflexivity|].
  apply (local_mode_has_focus storeABC baseABC stateLocalA Hr). reflexivity.
Defined.

(** C2.  In every state that the events can reach, when the mode is LOCAL
    and the focus id is the id of some base node, the view handed to the
    renderer is the local view around the focus: it starts with a node of
    that id, the ids of its other nodes are exactly the ids of the base
    nodes that are the other endpoint of some hierarchy or dependency edge
    at the focus, and its edge sequence is exactly the hierarchy and
    dependency edges whose source or target is the focus, in their order.
    This holds for every store and base layout: the focus id of a
    reachable state in mode LOCAL is never empty. *)
Theorem local_view_contents (h : heap) (b : Base.t) (s : AppState) (focus : string) :
  reachable h b s → viewMode s = LOCAL → focusNodeId s = Some focus →
  focus ∈ baseIds h b →
  render s = selectView LOCAL (Some focus) b h ∧ localViewContents h b focus.
Proof.
  intros Hr Hmode Hfocus Hin.
  destruct (reachable_graph h b s Hr) as [Hs Hb].
  split; [unfold render; by rewrite Hmode, Hfocus, Hs, Hb|].
  apply selectView_local_contents; [|done].
  apply truthy_Some. rewrite <- Hfocus. by apply (reachable_focus h b s).
Qed.

Ltac reach_stateLocalA :=
  apply (reachable_step _ _
           (onNodeContextMenu 10 20 "A" (initialState storeABC baseABC)).1);
  [apply (reachable_step _ _ (initialState storeABC baseABC));
     [apply reachable_init
     |by apply (step_event (NodeContextMenu 10 20 "A") _ _
                  [preventDefault; consoleLog "Node right-clicked:" (Some "A")])]
  |by apply (step_event ShowConnected _ _ [])].

Lemma local_view_contents_witness :
  reachable storeABC baseABC stateLocalA
  ∧ viewMode stateLocalA = LOCAL
  ∧ focusNodeId stateLocalA = Some "A"
  ∧ "A" ∈ baseIds storeABC baseABC
  ∧ render stateLocalA = selectView LOCAL (Some "A") baseABC storeABC
  ∧ localViewContents storeABC baseABC "A".
Proof.
  assert (reachable storeABC baseABC stateLocalA) as Hr by reach_stateLocalA.
  split; [exact Hr|]. split; [reflexivity|]. split; [reflexivity|].
  split; [compute_done|].
  apply (local_view_contents storeABC baseABC stateLocalA "A" Hr);
    [reflexivity | reflexivity | compute_done].
Defined.

(** C10.  Every event that closes the context menu (a left-click on a
    node, an edge or the canvas, or the activation of a menu item) sets
    [visible] to false and keeps the position, the target kind and the
    target node id of the menu. *)
Theorem closing_keeps_menu_data (ev : Event) (s s' : AppState) effects :
  closesMenu ev = true → handle ev s = Some (s', effects) →
  contextMenu s'
  = {| ContextMenuState.visible := false;
       ContextMenuState.x := ContextMenuState.x (contextMenu s);
       ContextMenuState.y := ContextMenuState.y (contextMenu s);
       ContextMenuState.type := ContextMenuState.type (contextMenu s);
       ContextMenuState.nodeId := ContextMenuState.nodeId (contextMenu s) |}.
Proof.
  intros Hc Hev. destruct ev; try discriminate Hc; simpl in Hev;
    try (injection Hev as <- _; reflexivity).
  - destruct (rendered canvas s); [|done]. by injection Hev as <- _.
  - destruct (rendered node s); [|done]. injection Hev as <- _.
    simpl. by destruct (Js.truthy _).
  - destruct (rendered node s); [|done]. by injection Hev as <- _.
Qed.

Lemma closing_keeps_menu_data_witness :
  closesMenu PaneClick = true
  ∧ handle PaneClick (onNodeContextMenu 10 20 "A" (initialState storeABC baseABC)).1
    = Some (onPaneClick (onNodeContextMenu 10 20 "A" (initialState storeABC baseABC)).1)
  ∧ contextMenu
      (onPaneClick (onNodeContextMenu 10 20 "A" (initialState storeABC baseABC)).1).1
    = {| ContextMenuState.visible := false;
         ContextMenuState.x := 10;
         ContextMenuState.y := 20;
         ContextMenuState.type := node;
         ContextMenuState.nodeId := Some "A" |}.
Proof.
  split; [reflexivity|]. split; [reflexivity|].
  apply (closing_keeps_menu_data PaneClick
           (onNodeContextMenu 10 20 "A" (initialState storeABC baseABC)).1
           (onPaneClick (onNodeContextMenu 10 20 "A" (initialState storeABC baseABC)).1).1
           []); reflexivity.
Defined.

(** * Further properties *)

(** ** The base layout *)

Lemma set_position_lookup (h : list WbsNode.t) a p n :
  h !! a = Some n → set_position h a p !! a = Some (WbsNode.with_position n p).
Proof.
  intros Ha. unfold set_position. rewrite Ha.
  apply list_lookup_insert_eq. eapply lookup_lt_Some, Ha.
Qed.

Lemma set_position_lookup_ne (h : list WbsNode.t) a b p :
  a ≠ b → set_position h a p !! b = h !! b.
Proof.
  intros Hne. unfold set_position. destruct (h !! a); [|done].
  by apply list_lookup_insert_ne.
Qed.

Lemma set_position_id_at (h : list WbsNode.t) a p b :
  id_at (set_position h a p) b = id_at h b.
Proof.
  unfold id_at. destruct (decide (a = b)) as [<-|Hne].
  - destruct (h !! a) as [n|] eqn:Ha.
    + by rewrite (set_position_lookup _ _ _ _ Ha).
    + unfold set_position. rewrite Ha. by rewrite Ha.
  - by rewrite set_position_lookup_ne.
Qed.

Lemma placeLevel_spec level (ns : list nat) index (st : list WbsNode.t * list nat) :
  let st' := placeLevel level index ns st in
  st'.2 = st.2 ++ ns
  ∧ (∀ a, id_at st'.1 a = id_at st.1 a)
  ∧ (∀ a, a ∉ ns → st'.1 !! a = st.1 !! a)
  ∧ (NoDup ns → ∀ i a n, ns !! i = Some a → st.1 !! a = Some n →
       st'.1 !! a = Some (WbsNode.with_position n (gridPosition level (index + i)))).
Proof.
  revert index st. induction ns as [|nd ns IH]; intros index st; simpl.
  - rewrite app_nil_r. repeat split; try done.
  - destruct (IH (S index)
      (set_position st.1 nd (gridPosition level index), st.2 ++ [nd]))
      as (Hacc & Hid & Hother & Hat). simpl in *.
    fold (gridPosition level index). split; [by rewrite Hacc, <- app_assoc|]. split.
    { intros a. by rewrite Hid, set_position_id_at. }
    split.
    { intros a [Hne Hns]%not_elem_of_cons. rewrite Hother by done.
      by apply set_position_lookup_ne. }
    intros [Hnd Hnodup]%NoDup_cons i a n Hi Ha. destruct i as [|i]; simpl in Hi.
    + injection Hi as ->. rewrite Hother by done. rewrite Nat.add_0_r.
      by apply set_position_lookup.
    + replace (index + S i) with (S index + i) by lia.
      apply Hat; [done | done |].
      rewrite set_position_lookup_ne; [done|].
      intros ->. apply Hnd. by eapply list_elem_of_lookup_2.
Qed.

Lemma sort_insert_Permutation {A} (cmp : A → A → Z) x l :
  Js.sort_insert cmp x l ≡ₚ x :: l.
Proof.
  induction l as [|y l IH]; simpl; [done|].
  destruct (cmp x y <=? 0)%Z; [done|]. rewrite IH. apply Permutation_swap.
Qed.

Lemma sort_Permutation {A} (cmp : A → A → Z) l : Js.sort cmp l ≡ₚ l.
Proof.
  unfold Js.sort. induction l as [|x l IH]; simpl; [done|].
  by rewrite sort_insert_Permutation, IH.
Qed.

Lemma sort_insert_ext {A} (cmp cmp' : A → A → Z) x l :
  (∀ a b, cmp a b = cmp' a b) → Js.sort_insert cmp x l = Js.sort_insert cmp' x l.
Proof.
  intros Hext. induction l as [|y l IH]; simpl; [done|].
  by rewrite Hext, IH.
Qed.

Lemma sort_ext {A} (cmp cmp' : A → A → Z) l :
  (∀ a b, cmp a b = cmp' a b) → Js.sort cmp l = Js.sort cmp' l.
Proof.
  intros Hext. unfold Js.sort. induction l as [|x l IH]; simpl; [done|].
  by rewrite IH, (sort_insert_ext cmp cmp').
Qed.

Lemma sortedColumn_ext (h h' : list WbsNode.t) grouped level :
  (∀ a, id_at h' a = id_at h a) →
  sortedColumn h' grouped level = sortedColumn h grouped level.
Proof.
  intros Hid. unfold sortedColumn. apply sort_ext. intros a b. by rewrite !Hid.
Qed.

Lemma cells_ext (h h' : list WbsNode.t) grouped levels :
  (∀ a, id_at h' a = id_at h a) → cells h' grouped levels = cells h grouped levels.
Proof.
  intros Hid. unfold cells. f_equal. apply list_fmap_ext. intros _ level _.
  by rewrite (sortedColumn_ext h h').
Qed.

Lemma cells_cons (h : list WbsNode.t) grouped level levels :
  cells h grouped (level :: levels)
  = imap (λ index a, (level, index, a)) (sortedColumn h grouped level)
    ++ cells h grouped levels.
Proof. done. Qed.

Lemma column_cells_addrs_from (level k : nat) (col : list nat) :
  (imap (λ index a, (level, k + index, a)) col).*2 = col.
Proof.
  revert k. induction col as [|a col IH]; intros k; [done|].
  csimpl. f_equal. rewrite <- (IH (S k)) at 2. f_equal.
  apply imap_ext. intros i x _. simpl. do 2 f_equal. lia.
Qed.

Lemma column_cells_addrs (level : nat) (col : list nat) :
  (imap (λ index a, (level, index, a)) col).*2 = col.
Proof. apply (column_cells_addrs_from level 0). Qed.

(** The loop over the levels: the base nodes are the addresses of the
    cells, and each cell holds its node moved to its grid position. *)
Lemma layoutColumn_fold_spec grouped (levels : list nat)
    (st : list WbsNode.t * list nat) :
  let st' := foldl (layoutColumn grouped) st levels in
  let cs := cells st.1 grouped levels in
  st'.2 = st.2 ++ cs.*2
  ∧ (∀ a, id_at st'.1 a = id_at st.1 a)
  ∧ (∀ a, a ∉ cs.*2 → st'.1 !! a = st.1 !! a)
  ∧ (NoDup cs.*2 → ∀ level index a n,
       (level, index, a) ∈ cs → st.1 !! a = Some n →
       st'.1 !! a = Some (WbsNode.with_position n (gridPosition level index))).
Proof.
  revert st. induction levels as [|l levels IH]; intros st; simpl.
  - rewrite app_nil_r. repeat split; try done.
    intros _ level index a n Hin. by apply elem_of_nil in Hin.
  - destruct (placeLevel_spec l (sortedColumn st.1 grouped l) 0 st)
      as (Hacc1 & Hid1 & Hother1 & Hat1).
    fold (sortedColumn st.1 grouped l) in *.
    change (layoutColumn grouped st l)
      with (placeLevel l 0 (sortedColumn st.1 grouped l) st).
    set (st1 := placeLevel l 0 (sortedColumn st.1 grouped l) st) in *.
    destruct (IH st1) as (Hacc & Hid & Hother & Hat).
    rewrite (cells_ext st.1 st1.1) in * by done.
    rewrite cells_cons, fmap_app, column_cells_addrs.
    split; [by rewrite Hacc, Hacc1, <- app_assoc|]. split.
    { intros a. by rewrite Hid, Hid1. }
    split.
    { intros a [Ha1 Ha2]%not_elem_of_app. by rewrite Hother, Hother1. }
    intros (Hnd1 & Hdisj & Hnd2)%NoDup_app level index a n Hin Ha.
    apply elem_of_app in Hin as [Hin|Hin].
    + apply list_elem_of_lookup in Hin as [i Hi]. rewrite list_lookup_imap in Hi.
      destruct (sortedColumn st.1 grouped l !! i) as [a'|] eqn:Hcol; [|done].
      injection Hi as <- <- <-.
      rewrite Hother.
      * apply (Hat1 Hnd1 i a' n Hcol Ha).
      * apply Hdisj. by eapply list_elem_of_lookup_2.
    + assert (a ∈ (cells st.1 grouped levels).*2) as Hin2.
      { apply list_elem_of_fmap. by exists (level, index, a). }
      apply (Hat Hnd2 level index a n Hin). rewrite Hother1; [done|].
      intros Hcol. by apply (Hdisj a).
Qed.

(** *** The node map *)

Section obj_more.
Context {V : Type}.
Implicit Types (o : Js.obj V) (k : string) (v : V).

Lemma elem_of_replace_NoDup o k v p :
  NoDup (Js.keys o) → p ∈ Js.replace o k v → p = (k, v) ∨ (p ∈ o ∧ p.1 ≠ k).
Proof.
  unfold Js.keys. induction o as [|[k' v'] o IH]; csimpl; intros Hnd Hp.
  - by apply elem_of_nil in Hp.
  - apply NoDup_cons in Hnd as [Hk' Hnd]. destruct (decide (k' = k)) as [->|Hne].
    + apply elem_of_cons in Hp as [->|Hp]; [by left|]. right.
      split; [by apply list_elem_of_further|]. intros <-. apply Hk'.
      apply list_elem_of_fmap. by exists p.
    + apply elem_of_cons in Hp as [->|Hp].
      * right. split; [apply list_elem_of_here | done].
      * destruct (IH Hnd Hp) as [?|[? ?]]; [by left|].
        right. split; [by apply list_elem_of_further | done].
Qed.

Lemma elem_of_set_NoDup o k v p :
  NoDup (Js.keys o) → p ∈ Js.set o k v → p = (k, v) ∨ (p ∈ o ∧ p.1 ≠ k).
Proof.
  intros Hnd. unfold Js.set. destruct (Js.get o k) eqn:Hget.
  - by apply elem_of_replace_NoDup.
  - apply get_None in Hget. intros Hp.
    assert (p ∈ o ∨ p = (k, v)) as [Hin|?]; [|right|by left].
    { destruct (Js.array_index k); [by eapply elem_of_insert_index|].
      apply elem_of_app in Hp as [?|Hp]; [by left|].
      apply list_elem_of_singleton in Hp. by right. }
    split; [done|]. intros <-. apply Hget. unfold Js.keys.
    apply list_elem_of_fmap. by exists p.
Qed.

Lemma get_elem_of o k v : NoDup (Js.keys o) → (k, v) ∈ o → Js.get o k = Some v.
Proof.
  unfold Js.keys. induction o as [|[k' v'] o IH]; csimpl; intros Hnd Hp.
  - by apply elem_of_nil in Hp.
  - apply NoDup_cons in Hnd as [Hk' Hnd]. destruct (decide (k' = k)) as [->|Hne].
    + apply elem_of_cons in Hp as [[= ->]|Hp]; [done|]. destruct Hk'.
      apply list_elem_of_fmap. by exists (k, v).
    + apply elem_of_cons in Hp as [[= -> ->]|Hp]; [done | by apply IH].
Qed.

Lemma get_is_Some o k : k ∈ Js.keys o → is_Some (Js.get o k).
Proof.
  intros Hk. destruct (Js.get o k) eqn:Hget; [by eexists|].
  by apply get_None in Hget.
Qed.

End obj_more.

Lemma loadNode_fold_store (l : list RawNode) :
  (foldl loadNode ([], []) l).1 = mkNode <$> l.
Proof.
  induction l as [|n l IH] using rev_ind; [done|].
  rewrite foldl_snoc, fmap_app, <- IH. unfold loadNode, alloc. simpl.
  by case_decide.
Qed.

Lemma loadNode_fold_last (l : list RawNode) k a :
  (k, a) ∈ (foldl loadNode ([], []) l).2 → lastWithId l k a.
Proof.
  revert k a. induction l as [|n l IH] using rev_ind; intros k a.
  - simpl. intros H. by apply elem_of_nil in H.
  - rewrite foldl_snoc. unfold loadNode at 1, alloc. simpl.
    assert (∀ k a, (k, a) ∈ (foldl loadNode ([], []) l).2 → raw_id n ≠ k →
              lastWithId (l ++ [n]) k a) as Hold.
    { intros k' a' Hin Hne. destruct (IH k' a' Hin) as (m & Hm & Hid & Hlast). exists m.
      split; [by apply lookup_app_l_Some|]. split; [done|].
      intros j m' Hj Hm'. apply lookup_app_Some in Hm' as [Hm'|[Hlen Hm']].
      * by eapply Hlast.
      * destruct (j - length l) as [|?]; [|done]. simpl in Hm'.
        injection Hm' as <-. congruence. }
    case_decide as Hp; simpl.
    + intros Hin. apply Hold; [done|]. intros <-.
      assert (raw_id n ∈ Js.keys (foldl loadNode ([], []) l).2) as Hk.
      { apply list_elem_of_fmap. by exists (raw_id n, a). }
      apply loadNode_fold_keys in Hk as [Hk|[Hk _]]; [by apply elem_of_nil in Hk | done].
    + intros [[= -> ->]|[Hin Hne]]%elem_of_set_NoDup;
        [|simpl in Hne|by apply loadNode_fold_NoDup, NoDup_nil_2].
      * rewrite loadNode_fold_store, length_fmap. exists n.
        split; [by apply list_lookup_middle|]. split; [done|].
        intros j m Hj Hm. apply lookup_lt_Some in Hm. rewrite length_app in Hm.
        simpl in Hm. lia.
      * apply Hold; [done | congruence].
Qed.

(** *** The groups *)

Lemma groupNode_fold_lookup levels (nodeMap : Js.obj nat) (ids : list string)
    (grouped : Grouped) level :
  default [] (byLevel (foldl (groupNode levels nodeMap) grouped ids) !! level)
  = default [] (byLevel grouped !! level) ++ levelColumn levels nodeMap ids level.
Proof.
  unfold levelColumn. revert grouped.
  induction ids as [|id ids IH]; intros grouped; simpl.
  - by rewrite app_nil_r.
  - rewrite IH. unfold groupNode, Js.read. rewrite filter_cons.
    destruct (Js.get nodeMap id) as [nd|] eqn:Hget.
    + destruct (levels !! id) as [d|] eqn:Hd.
      * simpl. destruct (decide (Some d = Some level)) as [[= ->]|Hne].
        -- rewrite lookup_insert_eq. csimpl. rewrite Hget. by rewrite <- app_assoc.
        -- rewrite lookup_insert_ne; [done | congruence].
      * rewrite decide_False by done. by destruct (Js.inherited id).
    + destruct (decide (levels !! id = Some level)); [|done]. csimpl. by rewrite Hget.
Qed.

Lemma groupNode_fold_dom levels (nodeMap : Js.obj nat) (ids : list string)
    (grouped : Grouped) level :
  level ∈ dom (byLevel (foldl (groupNode levels nodeMap) grouped ids))
  ↔ level ∈ dom (byLevel grouped)
    ∨ ∃ id, id ∈ ids ∧ is_Some (Js.get nodeMap id) ∧ levels !! id = Some level.
Proof.
  revert grouped. induction ids as [|id ids IH]; intros grouped; simpl.
  - split; [auto | intros [?|(id & Hid & _)]; [done | by apply elem_of_nil in Hid]].
  - rewrite IH. unfold groupNode, Js.read.
    destruct (Js.get nodeMap id) as [nd|] eqn:Hget.
    + destruct (levels !! id) as [d|] eqn:Hd.
      * simpl. rewrite dom_insert, elem_of_union, elem_of_singleton. split.
        -- intros [[->|?]|(id' & ? & ? & ?)]; [right; exists id | by left | right; exists id'];
             rewrite ?elem_of_cons, ?Hget; eauto.
        -- intros [?|(id' & [->|?]%elem_of_cons & ? & ?)]; eauto.
           left. left. congruence.
      * destruct (Js.inherited id); simpl;
          (split;
            [intros [?|(id' & ? & ? & ?)]; [by left | right; exists id'];
               rewrite elem_of_cons; eauto
            |intros [?|(id' & [->|?]%elem_of_cons & Hs & ?)]; eauto; congruence]).
    + split.
      * intros [?|(id' & ? & ? & ?)]; [by left | right; exists id'].
        rewrite elem_of_cons. eauto.
      * intros [?|(id' & [->|?]%elem_of_cons & Hs & ?)]; eauto.
        rewrite Hget in Hs. by destruct Hs.
Qed.

(** *** The level keys *)

Lemma levelKeys_Permutation (grouped : gmap nat (list nat)) :
  levelKeys grouped ≡ₚ elements (dom grouped).
Proof. apply merge_sort_Permutation. Qed.

Lemma elem_of_levelKeys (grouped : gmap nat (list nat)) level :
  level ∈ levelKeys grouped ↔ level ∈ dom grouped.
Proof. by rewrite levelKeys_Permutation, elem_of_elements. Qed.

Lemma NoDup_levelKeys (grouped : gmap nat (list nat)) : NoDup (levelKeys grouped).
Proof. rewrite levelKeys_Permutation. apply NoDup_elements. Qed.

Lemma levelKeys_sorted (grouped : gmap nat (list nat)) :
  StronglySorted le (levelKeys grouped).
Proof. apply StronglySorted_merge_sort; apply _. Qed.

(** *** Columns partition the nodes *)

Lemma filter_partition {A} (f : A → option nat) (keys : list nat) (l : list A) :
  NoDup keys → (∀ x, x ∈ l → ∃ k, f x = Some k ∧ k ∈ keys) →
  concat ((λ k, filter (λ x, f x = Some k) l) <$> keys) ≡ₚ l.
Proof.
  revert l. induction keys as [|k keys IH]; intros l Hnd Hcover; csimpl.
  - destruct l as [|x l]; [done|].
    destruct (Hcover x (list_elem_of_here _ _)) as (k & _ & Hk).
    by apply elem_of_nil in Hk.
  - apply NoDup_cons in Hnd as [Hk Hnd].
    etrans; [|apply (filter_app_complement (λ x, f x = Some k) l)].
    apply Permutation_app_head.
    assert ((λ k', filter (λ x, f x = Some k') l) <$> keys
            = (λ k', filter (λ x, f x = Some k')
                       (filter (λ x, ¬ f x = Some k) l)) <$> keys)
      as ->.
    { apply list_fmap_ext. intros i k' Hk'.
      apply list_elem_of_lookup_2 in Hk'.
      symmetry. apply list_filter_filter_l. intros x Hx1 Hx2.
      rewrite Hx1 in Hx2. injection Hx2 as ->. done. }
    apply IH; [done|].
    intros x [Hx Hin]%list_elem_of_filter. destruct (Hcover x Hin) as (k' & Hk' & Hin').
    exists k'. split; [done|].
    apply elem_of_cons in Hin' as [->|?]; [done | done].
Qed.

Lemma omap_concat {A B} (f : A → option B) (ls : list (list A)) :
  omap f (concat ls) = concat ((λ l : list A, omap f l) <$> ls).
Proof.
  induction ls as [|l ls IH]; [done|]. simpl. by rewrite omap_app, IH.
Qed.

Lemma cells_addrs (h : list WbsNode.t) grouped (levels : list nat) :
  (cells h grouped levels).*2 = concat (sortedColumn h grouped <$> levels).
Proof.
  induction levels as [|l levels IH]; [done|].
  rewrite cells_cons, fmap_app, column_cells_addrs, IH. done.
Qed.

Lemma cells_addrs_Permutation (h : list WbsNode.t) grouped (levels : list nat) :
  (cells h grouped levels).*2
  ≡ₚ concat ((λ level, default [] (grouped !! level)) <$> levels).
Proof.
  rewrite cells_addrs. induction levels as [|l levels IH]; [done|].
  csimpl. rewrite IH. apply Permutation_app_tail. apply sort_Permutation.
Qed.

Lemma elem_of_cells (h : list WbsNode.t) grouped (levels : list nat) level index a :
  (level, index, a) ∈ cells h grouped levels
  ↔ level ∈ levels ∧ sortedColumn h grouped level !! index = Some a.
Proof.
  induction levels as [|l levels IH].
  - split; [intros H; by apply elem_of_nil in H | intros [H _]; by apply elem_of_nil in H].
  - rewrite cells_cons, elem_of_app, IH, elem_of_cons. split.
    + intros [Hin|[? ?]]; [|by auto].
      apply list_elem_of_lookup in Hin as [i Hi]. rewrite list_lookup_imap in Hi.
      destruct (sortedColumn h grouped l !! i) eqn:Hcol; [|done].
      injection Hi as <- <- <-. auto.
    + intros [[->|?] Hcol]; [left | by right].
      apply list_elem_of_lookup. exists index. by rewrite list_lookup_imap, Hcol.
Qed.

Lemma cells_ranks_NoDup (h : list WbsNode.t) grouped (levels : list nat) :
  NoDup levels → NoDup (cells h grouped levels).*1.
Proof.
  induction levels as [|l levels IH]; intros Hnd; [apply NoDup_nil_2|].
  apply NoDup_cons in Hnd as [Hl Hnd].
  rewrite cells_cons, fmap_app. apply NoDup_app. split; [|split; [|by apply IH]].
  - apply NoDup_alt. intros i j [l' r] Hi Hj.
    rewrite list_lookup_fmap, list_lookup_imap in Hi, Hj.
    destruct (sortedColumn h grouped l !! i); [|done].
    destruct (sortedColumn h grouped l !! j); [|done].
    simpl in *. congruence.
  - intros [l' r] Hin1 Hin2.
    apply list_elem_of_fmap in Hin1 as ([[l1 r1] a1] & [= -> ->] & Hin1).
    apply list_elem_of_fmap in Hin2 as ([[l2 r2] a2] & [= -> ->] & Hin2).
    apply list_elem_of_lookup in Hin1 as [i Hi]. rewrite list_lookup_imap in Hi.
    destruct (sortedColumn h grouped l !! i); [|done]. injection Hi as <- <- <-.
    apply elem_of_cells in Hin2 as [? _]. done.
Qed.

Lemma NoDup_omap_get {V} (o : Js.obj V) (ks : list string) :
  (∀ k1 k2 a, (k1, a) ∈ o → (k2, a) ∈ o → k1 = k2) →
  NoDup ks → NoDup (omap (Js.get o) ks).
Proof.
  intros Hinj. induction ks as [|k ks IH]; intros Hnd; [apply NoDup_nil_2|].
  apply NoDup_cons in Hnd as [Hk Hnd]. csimpl.
  destruct (Js.get o k) as [a|] eqn:Hget; [|by apply IH].
  apply NoDup_cons. split; [|by apply IH].
  intros (k' & Hk' & Hget')%list_elem_of_omap.
  apply get_Some_elem in Hget, Hget'. by rewrite (Hinj _ _ _ Hget Hget') in Hk.
Qed.

(** *** The base layout, cell by cell *)

Lemma buildBase_cells (w : Wbs) (h : list WbsNode.t) (b : Base.t) :
  buildBase w = Some (h, b) →
  ∃ levels,
    computeLevels w = Some levels
    ∧ Base.baseNodes b = (baseCells w).*2
    ∧ NoDup (Base.baseNodes b)
    ∧ Base.baseNodes b ≡ₚ omap (Js.get (loadNodes w).2) (allNodeIds w)
    ∧ ∀ level index a,
        (level, index, a) ∈ baseCells w →
        ∃ n, rawNodes w !! a = Some n
             ∧ lastWithId (rawNodes w) (raw_id n) a
             ∧ levels !! raw_id n = Some level
             ∧ h !! a = Some (WbsNode.with_position (mkNode n) (gridPosition level index)).
Proof.
  intros (idx & levels & _ & Hlv & Hown & Hlay & _)%buildBase_inv.
  unfold baseCells. rewrite Hlv.
  assert (allNodeIds w = Js.keys (loadNodes w).2) as Hids by done.
  pose proof (NoDup_allNodeIds w) as Hnd. rewrite Hids in Hnd.
  pose proof (loadNode_fold_last (rawNodes w)) as Hlast.
  pose proof (loadNode_fold_store (rawNodes w)) as Hstore.
  fold (loadNodes w) in Hlast, Hstore.
  destruct (loadNodes w) as [h0 nodeMap] eqn:Hnodes. simpl in *.
  set (grouped := byLevel (foldl (groupNode levels nodeMap) emptyGroups (allNodeIds w)))
    in *.
  destruct (layoutColumn_fold_spec grouped (levelKeys grouped) (h0, []))
    as (Hacc & _ & _ & Hat). simpl in *.
  rewrite <- Hlay in Hacc, Hat. simpl in *.
  exists levels.
  assert (∀ level, default [] (grouped !! level)
                   = levelColumn levels nodeMap (allNodeIds w) level) as Hcol.
  { intros level. unfold grouped. rewrite groupNode_fold_lookup. simpl.
    by rewrite lookup_empty. }
  assert ((cells h0 grouped (levelKeys grouped)).*2
            ≡ₚ omap (Js.get nodeMap) (allNodeIds w)) as Hperm.
  { rewrite cells_addrs_Permutation.
    rewrite (list_fmap_ext _ (omap (Js.get nodeMap)
               ∘ (λ level, filter (λ id, levels !! id = Some level) (allNodeIds w)))
               (levelKeys grouped) (λ _ level _, Hcol level)).
    rewrite list_fmap_compose, <- omap_concat.
    apply omap_Permutation, filter_partition; [apply NoDup_levelKeys|].
    intros id Hid. destruct (Hown id Hid) as [d Hd]. exists d. split; [done|].
    apply elem_of_levelKeys. unfold grouped.
    apply groupNode_fold_dom. right. exists id. split; [done|]. split; [|done].
    apply get_is_Some. by rewrite <- Hids. }
  assert (NoDup (omap (Js.get nodeMap) (allNodeIds w))) as Hnd2.
  { apply NoDup_omap_get; [|by rewrite Hids].
    intros k1 k2 a (n1 & Hn1 & <- & _)%Hlast (n2 & Hn2 & <- & _)%Hlast. congruence. }
  split; [done|]. split; [done|]. split; [by rewrite Hacc, Hperm|].
  split; [by rewrite Hacc|].
  intros level index a Hin.
  assert (a ∈ levelColumn levels nodeMap (allNodeIds w) level) as Ha.
  { apply elem_of_cells in Hin as [_ Hin]. apply list_elem_of_lookup_2 in Hin.
    unfold sortedColumn in Hin. rewrite sort_Permutation, Hcol in Hin. done. }
  unfold levelColumn in Ha. apply list_elem_of_omap in Ha as (id & Hid & Hget).
  apply list_elem_of_filter in Hid as [Hlevel Hid].
  apply get_Some_elem in Hget. destruct (Hlast _ _ Hget) as (n & Hn & Hidn & Hl).
  exists n. subst id. split; [done|]. split; [by exists n|]. split; [done|].
  apply Hat; [by rewrite Hperm | done |].
  by rewrite Hstore, list_lookup_fmap, Hn.
Qed.

Lemma deref_Forall2 {C} (R : C * nat → WbsNode.t → Prop) (h : list WbsNode.t)
    (cs : list (C * nat)) :
  (∀ c, c ∈ cs → ∃ nd, h !! c.2 = Some nd ∧ R c nd) →
  Forall2 R cs (deref h cs.*2).
Proof.
  unfold deref. induction cs as [|c cs IH]; intros Hcs; csimpl; [constructor|].
  destruct (Hcs c (list_elem_of_here _ _)) as (nd & -> & HR).
  constructor; [done|]. apply IH. intros c' Hc'. by apply Hcs, list_elem_of_further.
Qed.

Lemma buildBase_baseCells (w : Wbs) (h : list WbsNode.t) (b : Base.t) :
  buildBase w = Some (h, b) →
  ∃ levels,
    computeLevels w = Some levels
    ∧ Base.baseNodes b = (baseCells w).*2
    ∧ NoDup (Base.baseNodes b)
    ∧ Base.baseNodes b ≡ₚ omap (Js.get (loadNodes w).2) (allNodeIds w)
    ∧ Forall2 (cellHolds w levels) (baseCells w) (deref h (Base.baseNodes b)).
Proof.
  intros Hbase.
  destruct (buildBase_cells w h b Hbase) as (levels & Hlv & Hb & Hnd & Hperm & Hcells).
  exists levels.
  split; [done|]. split; [done|]. split; [done|]. split; [done|].
  rewrite Hb. apply deref_Forall2. intros [[level index] a] Hin.
  destruct (Hcells level index a Hin) as (n & ? & ? & ? & ?).
  eexists. split; [done|]. by exists n.
Qed.

(** *** Order and ranks of the cells *)

Lemma filter_all {A} (P : A → Prop) `{∀ x, Decision (P x)} (l : list A) :
  (∀ x, x ∈ l → P x) → filter P l = l.
Proof.
  induction l as [|x l IH]; intros Hl; [done|].
  rewrite filter_cons_True by apply Hl, list_elem_of_here.
  f_equal. apply IH. intros y Hy. by apply Hl, list_elem_of_further.
Qed.

Lemma filter_none {A} (P : A → Prop) `{∀ x, Decision (P x)} (l : list A) :
  (∀ x, x ∈ l → ¬ P x) → filter P l = [].
Proof.
  induction l as [|x l IH]; intros Hl; [done|].
  rewrite filter_cons_False by apply Hl, list_elem_of_here.
  apply IH. intros y Hy. by apply Hl, list_elem_of_further.
Qed.

Lemma cells_levels_sorted (h : list WbsNode.t) grouped (levels : list nat) j1 j2 c1 c2 :
  StronglySorted le levels →
  cells h grouped levels !! j1 = Some c1 → cells h grouped levels !! j2 = Some c2 →
  j1 < j2 → c1.1.1 ≤ c2.1.1.
Proof.
  revert j1 j2. induction levels as [|l levels IH]; intros j1 j2 Hs Hc1 Hc2 Hlt; [done|].
  apply StronglySorted_inv in Hs as [Hs Hall]. rewrite cells_cons in Hc1, Hc2.
  set (col := imap (λ index a, (l, index, a)) (sortedColumn h grouped l)) in *.
  assert (∀ j c, col !! j = Some c → c.1.1 = l) as Hcol.
  { intros j c. unfold col. rewrite list_lookup_imap.
    destruct (sortedColumn h grouped l !! j); [|done]. by intros [= <-]. }
  assert (∀ j c, cells h grouped levels !! j = Some c → l ≤ c.1.1) as Hrest.
  { intros j [[l' i] a] Hj. apply list_elem_of_lookup_2, elem_of_cells in Hj as [Hl' _].
    simpl. by eapply Forall_forall in Hall. }
  apply lookup_app_Some in Hc1 as [Hc1|[Hlen1 Hc1]];
    apply lookup_app_Some in Hc2 as [Hc2|[Hlen2 Hc2]].
  - rewrite (Hcol _ _ Hc1), (Hcol _ _ Hc2). done.
  - rewrite (Hcol _ _ Hc1). by eapply Hrest.
  - apply lookup_lt_Some in Hc2. lia.
  - eapply (IH (j1 - length col) (j2 - length col)); [done..|lia].
Qed.

Lemma cells_rank (h : list WbsNode.t) grouped (levels : list nat) j c :
  NoDup levels → cells h grouped levels !! j = Some c →
  c.1.2 = length (filter (λ c', c'.1.1 = c.1.1) (take j (cells h grouped levels))).
Proof.
  revert j. induction levels as [|l levels IH]; intros j Hnd Hc; [done|].
  apply NoDup_cons in Hnd as [Hl Hnd]. rewrite cells_cons in *.
  set (col := imap (λ index a, (l, index, a)) (sortedColumn h grouped l)) in *.
  assert (∀ i c', col !! i = Some c' → c'.1.1 = l ∧ c'.1.2 = i) as Hcol.
  { intros i c'. unfold col. rewrite list_lookup_imap.
    destruct (sortedColumn h grouped l !! i); [|done]. by intros [= <-]. }
  apply lookup_app_Some in Hc as [Hc|[Hlen Hc]].
  - destruct (Hcol _ _ Hc) as [Hcl Hci]. rewrite Hcl, Hci.
    rewrite take_app_le by (apply lookup_lt_Some in Hc; lia).
    rewrite filter_all.
    + rewrite length_take. apply lookup_lt_Some in Hc. lia.
    + intros c' Hc'. apply list_elem_of_lookup in Hc' as [i Hi].
      apply lookup_take_Some in Hi as [Hi _]. by apply Hcol in Hi as [? _].
  - rewrite take_app_ge by done. rewrite filter_app.
    assert (c.1.1 ≠ l) as Hne.
    { destruct c as [[l' i] a]. apply list_elem_of_lookup_2, elem_of_cells in Hc as [? _].
      simpl. by intros ->. }
    rewrite filter_none; [by apply IH|].
    intros c' Hc'. apply list_elem_of_lookup in Hc' as [i Hi].
    apply Hcol in Hi as [-> _]. done.
Qed.

(** *** The comparator where it is an order *)

Lemma String_compare_le_trans (a b c : string) :
  String.compare a b ≠ Gt → String.compare b c ≠ Gt → String.compare a c ≠ Gt.
Proof.
  revert b c. induction a as [|x a IH]; intros [|y b] [|z c]; simpl; try done.
  unfold Ascii.compare.
  destruct (N.compare_spec (N_of_ascii x) (N_of_ascii y)),
    (N.compare_spec (N_of_ascii y) (N_of_ascii z)),
    (N.compare_spec (N_of_ascii x) (N_of_ascii z)); try done; try lia.
  all: apply IH.
Qed.

Lemma localeCompare_le (a b : string) :
  (Js.localeCompare a b <= 0)%Z ↔ String.compare a b ≠ Gt.
Proof.
  unfold Js.localeCompare. destruct (String.compare a b); split; intros H; done.
Qed.

Lemma localeCompare_flip (a b : string) :
  ¬ (Js.localeCompare a b <= 0)%Z → (Js.localeCompare b a <= 0)%Z.
Proof.
  unfold Js.localeCompare. rewrite (String.compare_antisym b a).
  destruct (String.compare a b); simpl; lia.
Qed.

Lemma compareIds_flip (a b : string) :
  ¬ (compareIds a b <= 0)%Z → (compareIds b a <= 0)%Z.
Proof.
  unfold compareIds. destruct (Js.Number a) as [x|], (Js.Number b) as [y|];
    try apply localeCompare_flip.
  repeat case_decide; try lia; try congruence. apply localeCompare_flip.
Qed.

Lemma compareIds_zero (a b : string) : compareIds a b = 0%Z → a = b.
Proof.
  assert (Js.localeCompare a b = 0%Z → a = b) as Hl.
  { unfold Js.localeCompare. destruct (String.compare a b) eqn:Hc; try done.
    intros _. by apply String.compare_eq_iff. }
  unfold compareIds. destruct (Js.Number a) as [x|], (Js.Number b) as [y|]; try done.
  case_decide; [lia | done].
Qed.

Lemma compareIds_trans_numeric (a b c : string) :
  is_Some (Js.Number a) → is_Some (Js.Number b) → is_Some (Js.Number c) →
  (compareIds a b <= 0)%Z → (compareIds b c <= 0)%Z → (compareIds a c <= 0)%Z.
Proof.
  unfold compareIds. intros [x ->] [y ->] [z ->].
  destruct (decide (x ≠ y)) as [Hxy|Hxy%dec_stable],
    (decide (y ≠ z)) as [Hyz|Hyz%dec_stable],
    (decide (x ≠ z)) as [Hxz|Hxz%dec_stable];
    rewrite ?localeCompare_le; subst;
    try (intros; lia); try (intros; exfalso; lia); try done.
  apply String_compare_le_trans.
Qed.

Lemma sort_insert_sorted {A} (cmp : A → A → Z) (P : A → Prop) x l :
  (∀ a b c, P a → P b → P c →
     (cmp a b <= 0)%Z → (cmp b c <= 0)%Z → (cmp a c <= 0)%Z) →
  (∀ a b, ¬ (cmp a b <= 0)%Z → (cmp b a <= 0)%Z) →
  P x → Forall P l →
  StronglySorted (λ a b, (cmp a b <= 0)%Z) l →
  StronglySorted (λ a b, (cmp a b <= 0)%Z) (Js.sort_insert cmp x l).
Proof.
  intros Htrans Hflip Hx. induction l as [|y l IH]; intros HP Hs; simpl.
  - repeat constructor.
  - apply Forall_cons in HP as [Hy HP]. apply StronglySorted_inv in Hs as [Hs Hall].
    destruct (cmp x y <=? 0)%Z eqn:Hxy.
    + apply Z.leb_le in Hxy. constructor; [by constructor|].
      constructor; [done|]. apply Forall_forall. intros z Hz.
      eapply Htrans; [exact Hx | exact Hy | | exact Hxy |].
      * by eapply Forall_forall in HP.
      * by eapply Forall_forall in Hall.
    + apply Z.leb_gt in Hxy. constructor; [by apply IH|].
      apply Forall_forall. intros z [->|Hz]%elem_of_sort_insert.
      * apply Hflip. lia.
      * by eapply Forall_forall in Hall.
Qed.

Lemma sort_sorted {A} (cmp : A → A → Z) (P : A → Prop) l :
  (∀ a b c, P a → P b → P c →
     (cmp a b <= 0)%Z → (cmp b c <= 0)%Z → (cmp a c <= 0)%Z) →
  (∀ a b, ¬ (cmp a b <= 0)%Z → (cmp b a <= 0)%Z) →
  Forall P l →
  StronglySorted (λ a b, (cmp a b <= 0)%Z) (Js.sort cmp l).
Proof.
  intros Htrans Hflip. unfold Js.sort. induction l as [|x l IH]; intros HP; simpl.
  - constructor.
  - apply Forall_cons in HP as [Hx HP]. eapply sort_insert_sorted; eauto.
    apply Forall_forall. intros y Hy. apply elem_of_sort in Hy.
    by eapply Forall_forall in HP.
Qed.

Lemma StronglySorted_lookup_lt {A} (R : relation A) (l : list A) i j x y :
  StronglySorted R l → l !! i = Some x → l !! j = Some y → i < j → R x y.
Proof.
  intros Hs. revert i j. induction Hs as [|z l Hs IH Hall]; intros i j Hi Hj Hlt; [done|].
  destruct j as [|j]; [lia|]. simpl in Hj. destruct i as [|i]; simpl in Hi.
  - injection Hi as ->. eapply Forall_forall in Hall; [done|].
    by eapply list_elem_of_lookup_2.
  - eapply (IH i j); [done..|lia].
Qed.

Lemma lastWithId_unique (l : list RawNode) k a1 a2 :
  lastWithId l k a1 → lastWithId l k a2 → a1 = a2.
Proof.
  intros (n1 & Hn1 & Hk1 & Hl1) (n2 & Hn2 & Hk2 & Hl2).
  destruct (Nat.lt_trichotomy a1 a2) as [Hlt|[?|Hlt]]; [|done|].
  - by destruct (Hl1 a2 n2 Hlt Hn2).
  - by destruct (Hl2 a1 n1 Hlt Hn1).
Qed.

Lemma lastWithId_id_at (w : Wbs) k a :
  lastWithId (rawNodes w) k a → id_at (loadNodes w).1 a = k.
Proof.
  intros (n & Hn & Hk & _). unfold id_at, loadNodes.
  by rewrite loadNode_fold_store, list_lookup_fmap, Hn.
Qed.

Lemma Forall2_filter_length {A B} (R : A → B → Prop) (P : A → Prop) (Q : B → Prop)
    `{∀ x, Decision (P x)} `{∀ y, Decision (Q y)} (l : list A) (k : list B) :
  Forall2 R l k → (∀ x y, R x y → (P x ↔ Q y)) →
  length (filter P l) = length (filter Q k).
Proof.
  intros HF HPQ. induction HF as [|x y l k HR HF IH]; [done|].
  rewrite !filter_cons. destruct (decide (P x)) as [HP|HP], (decide (Q y)) as [HQ|HQ];
    simpl; try (by rewrite IH); exfalso; specialize (HPQ x y HR); tauto.
Qed.

(** The nodes of a group of the base layout are the last raw nodes of the
    ids of that depth. *)
Lemma baseCells_sorted_column (w : Wbs) (levels : gmap string nat) d i1 i2 a1 a2 :
  computeLevels w = Some levels →
  (∀ x y z, isNode w x → isNode w y → isNode w z →
     levels !! x = Some d → levels !! y = Some d → levels !! z = Some d →
     (compareIds x y <= 0)%Z → (compareIds y z <= 0)%Z → (compareIds x z <= 0)%Z) →
  (d, i1, a1) ∈ baseCells w → (d, i2, a2) ∈ baseCells w → i1 < i2 →
  (compareIds (id_at (loadNodes w).1 a1) (id_at (loadNodes w).1 a2) <= 0)%Z.
Proof.
  intros Hlv Htrans. unfold baseCells. rewrite Hlv.
  set (grouped := byLevel (foldl (groupNode levels (loadNodes w).2) emptyGroups
                             (allNodeIds w))).
  intros [_ H1]%elem_of_cells [_ H2]%elem_of_cells Hlt.
  eapply (StronglySorted_lookup_lt
            (λ a b, (compareIds (id_at (loadNodes w).1 a) (id_at (loadNodes w).1 b) <= 0)%Z));
    [|exact H1|exact H2|exact Hlt].
  apply (sort_sorted _ (λ a, isNode w (id_at (loadNodes w).1 a)
                            ∧ levels !! id_at (loadNodes w).1 a = Some d)).
  - intros a b c [? ?] [? ?] [? ?]. by apply Htrans.
  - intros a b. apply compareIds_flip.
  - apply Forall_forall. intros a Ha.
    assert (default [] (grouped !! d)
            = levelColumn levels (loadNodes w).2 (allNodeIds w) d) as Hcol.
    { unfold grouped. rewrite groupNode_fold_lookup. simpl.
    by rewrite lookup_empty. }
    rewrite Hcol in Ha. apply list_elem_of_omap in Ha as (id & Hid & Hget).
    apply list_elem_of_filter in Hid as [Hd Hid].
    apply get_Some_elem, loadNode_fold_last, lastWithId_id_at in Hget.
    rewrite Hget. split; [by apply elem_of_allNodeIds | done].
Qed.

Lemma cellHolds_id (w : Wbs) levels c nd :
  cellHolds w levels c nd →
  lastWithId (rawNodes w) (WbsNode.id nd) c.2 ∧ levels !!! WbsNode.id nd = c.1.1.
Proof.
  intros (n & _ & ? & Hl & ->). split; [done|]. by apply lookup_total_correct.
Qed.

Lemma cellHolds_position (w : Wbs) levels c nd :
  cellHolds w levels c nd → WbsNode.position nd = gridPosition c.1.1 c.1.2.
Proof. by intros (n & _ & _ & _ & ->). Qed.

Lemma baseIds_NoDup (w : Wbs) (h : list WbsNode.t) (b : Base.t) :
  buildBase w = Some (h, b) → NoDup (baseIds h b).
Proof.
  intros Hbase.
  destruct (buildBase_baseCells w h b Hbase) as (levels & Hlv & Hb & Hnd & Hperm & HF).
  unfold baseIds. apply NoDup_alt. intros i j k Hi Hj.
  apply list_lookup_fmap_Some in Hi as (ni & -> & Hi).
  apply list_lookup_fmap_Some in Hj as (nj & Hk & Hj).
  destruct (Forall2_lookup_r _ _ _ _ _ HF Hi) as (ci & Hci & [Hli _]%cellHolds_id).
  destruct (Forall2_lookup_r _ _ _ _ _ HF Hj) as (cj & Hcj & [Hlj _]%cellHolds_id).
  rewrite <- Hk in Hlj. pose proof (lastWithId_unique _ _ _ _ Hli Hlj) as Ha.
  apply (NoDup_lookup _ i j ci.2 Hnd); rewrite Hb, list_lookup_fmap.
  - by rewrite Hci.
  - by rewrite Hcj, Ha.
Qed.

(** X1.  When the layout is produced, the base node sequence holds the
    nodes of the document, but for a node with the id "__proto__", and
    nothing else: every address in it is live, no id occurs twice, and an
    id occurs exactly when it is not "__proto__" and some raw node has it.
    Ids that only edges mention never become nodes. *)
Theorem base_nodes_exactly_once (w : Wbs) (h : heap) (b : Base.t) :
  buildBase w = Some (h, b) →
  length (deref h (Base.baseNodes b)) = length (Base.baseNodes b)
  ∧ NoDup (baseIds h b)
  ∧ ∀ id, id ∈ baseIds h b ↔ isNode w id ∧ id ≠ "__proto__".
Proof.
  intros Hbase.
  destruct (buildBase_baseCells w h b Hbase) as (levels & Hlv & Hb & Hnd & Hperm & HF).
  split; [|split].
  - rewrite <- (Forall2_length _ _ _ HF), Hb. by rewrite length_fmap.
  - by eapply baseIds_NoDup.
  - intros id. unfold baseIds. rewrite list_elem_of_fmap. split.
    + intros (nd & -> & Hin). apply list_elem_of_lookup in Hin as [j Hj].
      destruct (Forall2_lookup_r _ _ _ _ _ HF Hj) as (c & Hc & n & Hn & _ & _ & ->).
      apply elem_of_allNodeIds. simpl.
      assert (c.2 ∈ Base.baseNodes b) as Ha.
      { rewrite Hb. apply list_elem_of_fmap. exists c.
        split; [done | by eapply list_elem_of_lookup_2]. }
      rewrite Hperm in Ha. apply list_elem_of_omap in Ha as (k & Hk & Hget).
      apply get_Some_elem, loadNode_fold_last in Hget as (n' & Hn' & <- & _).
      congruence.
    + intros Hid. apply elem_of_allNodeIds in Hid.
      destruct (get_is_Some _ _ Hid) as [a Hget].
      assert (a ∈ Base.baseNodes b) as Ha.
      { rewrite Hperm. apply list_elem_of_omap. eauto. }
      rewrite Hb in Ha. apply list_elem_of_fmap in Ha as (c & -> & Hc).
      apply list_elem_of_lookup in Hc as [j Hj].
      destruct (Forall2_lookup_l _ _ _ _ _ HF Hj) as (nd & Hnd' & [Hl _]%cellHolds_id).
      exists nd. split; [|by eapply list_elem_of_lookup_2].
      apply get_Some_elem, loadNode_fold_last in Hget.
      destruct Hget as (n1 & Hn1 & Hk1 & _), Hl as (n2 & Hn2 & Hk2 & _). congruence.
Qed.

(** X2.  When several raw nodes share an id, the last one wins: every
    base node is the object made from the last raw node of its id, with
    nothing but its position changed. *)
Theorem base_node_from_last_raw_node (w : Wbs) (h : heap) (b : Base.t) (nd : WbsNode.t) :
  buildBase w = Some (h, b) → nd ∈ deref h (Base.baseNodes b) →
  ∃ a n, rawNodes w !! a = Some n
    ∧ raw_id n = WbsNode.id nd
    ∧ (∀ j m, a < j → rawNodes w !! j = Some m → raw_id m ≠ WbsNode.id nd)
    ∧ nd = WbsNode.with_position (mkNode n) (WbsNode.position nd).
Proof.
  intros Hbase Hin.
  destruct (buildBase_baseCells w h b Hbase) as (levels & _ & _ & _ & _ & HF).
  apply list_elem_of_lookup in Hin as [j Hj].
  destruct (Forall2_lookup_r _ _ _ _ _ HF Hj) as (c & _ & n & Hn & (m & Hm & _ & Hlast) & _ & ->).
  exists c.2, n. simpl. split; [done|]. split; [done|]. split; [done|]. done.
Qed.

(** X3.  The node at index [j] of the base sequence sits in the column of
    its depth, x = depth * 260, and its row is the number of nodes of the
    same depth before it in the sequence, y = rank * 120. *)
Theorem base_node_position (w : Wbs) (h : heap) (b : Base.t)
    (levels : gmap string nat) (j : nat) (nd : WbsNode.t) :
  buildBase w = Some (h, b) → computeLevels w = Some levels →
  deref h (Base.baseNodes b) !! j = Some nd →
  WbsNode.position nd
  = gridPosition (levels !!! WbsNode.id nd)
      (length (filter (λ nd', levels !!! WbsNode.id nd' = levels !!! WbsNode.id nd)
                 (take j (deref h (Base.baseNodes b))))).
Proof.
  intros Hbase Hlv Hj.
  destruct (buildBase_baseCells w h b Hbase) as (levels' & Hlv' & _ & _ & _ & HF).
  assert (levels' = levels) as -> by congruence.
  destruct (Forall2_lookup_r _ _ _ _ _ HF Hj) as (c & Hc & Hhold).
  pose proof (cellHolds_id _ _ _ _ Hhold) as [_ Hlevel].
  rewrite (cellHolds_position _ _ _ _ Hhold), Hlevel. f_equal.
  assert (c.1.2 = length (filter (λ c', c'.1.1 = c.1.1) (take j (baseCells w)))) as ->.
  { revert Hc. unfold baseCells. rewrite Hlv. intros Hc.
    apply cells_rank; [apply NoDup_levelKeys | done]. }
  apply (Forall2_filter_length (cellHolds w levels)); [by apply Forall2_take|].
  intros c' nd' [_ Hl']%cellHolds_id. by rewrite Hl'.
Qed.

(** X4.  No two base nodes are laid out at the same point (coordinates
    read as real numbers). *)
Theorem base_positions_distinct (w : Wbs) (h : heap) (b : Base.t)
    (j1 j2 : nat) (n1 n2 : WbsNode.t) :
  buildBase w = Some (h, b) → j1 ≠ j2 →
  deref h (Base.baseNodes b) !! j1 = Some n1 →
  deref h (Base.baseNodes b) !! j2 = Some n2 →
  ¬ (Rval (WbsNode.position n1).1 = Rval (WbsNode.position n2).1
     ∧ Rval (WbsNode.position n1).2 = Rval (WbsNode.position n2).2).
Proof.
  intros Hbase Hne H1 H2 [Hx Hy].
  destruct (buildBase_baseCells w h b Hbase) as (levels & Hlv & _ & _ & _ & HF).
  destruct (Forall2_lookup_r _ _ _ _ _ HF H1) as (c1 & Hc1 & Hp1%cellHolds_position).
  destruct (Forall2_lookup_r _ _ _ _ _ HF H2) as (c2 & Hc2 & Hp2%cellHolds_position).
  rewrite Hp1, Hp2 in Hx, Hy. simpl in Hx, Hy. apply Hne.
  assert (NoDup (baseCells w).*1) as Hnd.
  { unfold baseCells. rewrite Hlv. apply cells_ranks_NoDup, NoDup_levelKeys. }
  apply (NoDup_lookup _ j1 j2 c1.1 Hnd); rewrite list_lookup_fmap.
  - by rewrite Hc1.
  - rewrite Hc2. simpl. f_equal. destruct c1 as [[l1 i1] a1], c2 as [[l2 i2] a2].
    simpl in *. unfold xGap, yGap in *.
    apply Rmult_eq_reg_r in Hx; [|lra]. apply Rmult_eq_reg_r in Hy; [|lra].
    apply eq_IZR, Nat2Z.inj in Hx. apply eq_IZR, Nat2Z.inj in Hy. by subst.
Qed.

(** X5.  The base node sequence is ordered by depth: a node never comes
    before a node of smaller depth. *)
Theorem base_nodes_by_depth (w : Wbs) (h : heap) (b : Base.t)
    (levels : gmap string nat) (j1 j2 : nat) (n1 n2 : WbsNode.t) :
  buildBase w = Some (h, b) → computeLevels w = Some levels → j1 < j2 →
  deref h (Base.baseNodes b) !! j1 = Some n1 →
  deref h (Base.baseNodes b) !! j2 = Some n2 →
  levels !!! WbsNode.id n1 ≤ levels !!! WbsNode.id n2.
Proof.
  intros Hbase Hlv Hlt H1 H2.
  destruct (buildBase_baseCells w h b Hbase) as (levels' & Hlv' & _ & _ & _ & HF).
  assert (levels' = levels) as -> by congruence.
  destruct (Forall2_lookup_r _ _ _ _ _ HF H1) as (c1 & Hc1 & [_ ->]%cellHolds_id).
  destruct (Forall2_lookup_r _ _ _ _ _ HF H2) as (c2 & Hc2 & [_ ->]%cellHolds_id).
  revert Hc1 Hc2. unfold baseCells. rewrite Hlv. intros Hc1 Hc2.
  eapply cells_levels_sorted; [apply levelKeys_sorted | done..].
Qed.

(** X6.  Where the ids of a depth are all strings of at most 15 decimal
    digits, the nodes of that depth come in ascending numeric order, and
    in strictly increasing order of the comparator: ids of the same
    numeric value, which differ in leading zeros, come in the order of
    [localeCompare]. *)
Theorem numeric_level_sorted (w : Wbs) (h : heap) (b : Base.t)
    (levels : gmap string nat) (d j1 j2 : nat) (n1 n2 : WbsNode.t) :
  buildBase w = Some (h, b) → computeLevels w = Some levels →
  numericLevel w levels d → j1 < j2 →
  deref h (Base.baseNodes b) !! j1 = Some n1 →
  deref h (Base.baseNodes b) !! j2 = Some n2 →
  levels !!! WbsNode.id n1 = d → levels !!! WbsNode.id n2 = d →
  ∃ x1 x2, Js.Number (WbsNode.id n1) = Some x1
    ∧ Js.Number (WbsNode.id n2) = Some x2
    ∧ (x1 <= x2)%Z
    ∧ (compareIds (WbsNode.id n1) (WbsNode.id n2) < 0)%Z.
Proof.
  intros Hbase Hlv Hnum Hlt H1 H2 Hd1 Hd2.
  destruct (buildBase_baseCells w h b Hbase) as (levels' & Hlv' & _ & _ & _ & HF).
  assert (levels' = levels) as -> by congruence.
  destruct (Forall2_lookup_r _ _ _ _ _ HF H1) as (c1 & Hc1 & Hh1).
  destruct (Forall2_lookup_r _ _ _ _ _ HF H2) as (c2 & Hc2 & Hh2).
  pose proof (cellHolds_id _ _ _ _ Hh1) as [Hl1 Hc1d].
  pose proof (cellHolds_id _ _ _ _ Hh2) as [Hl2 Hc2d].
  assert (∀ c nd, cellHolds w levels c nd →
            isNode w (WbsNode.id nd) ∧ levels !! WbsNode.id nd = Some c.1.1) as Hown.
  { intros c nd (n & Hn & _ & Hl & ->). split; [|done].
    exists n. split; [by eapply list_elem_of_lookup_2 | done]. }
  destruct (Hown _ _ Hh1) as [Hnode1 Hown1], (Hown _ _ Hh2) as [Hnode2 Hown2].
  assert (compareIds (WbsNode.id n1) (WbsNode.id n2) <= 0)%Z as Hle.
  { rewrite <- (lastWithId_id_at w _ _ Hl1), <- (lastWithId_id_at w _ _ Hl2).
    destruct c1 as [[l1 i1] a1], c2 as [[l2 i2] a2]. simpl in *.
    assert (l1 = d) as -> by congruence. assert (l2 = d) as -> by congruence.
    apply (baseCells_sorted_column w levels d i1 i2); [done | | by eapply list_elem_of_lookup_2..|].
    - intros x y z Hx Hy Hz Hdx Hdy Hdz.
      apply compareIds_trans_numeric; by apply Hnum.
    - assert (NoDup (levelKeys (byLevel (foldl (groupNode levels (loadNodes w).2)
                                           emptyGroups (allNodeIds w)))))
        as Hnd by apply NoDup_levelKeys.
      revert Hc1 Hc2. unfold baseCells. rewrite Hlv. intros Hc1 Hc2.
      pose proof (cells_rank _ _ _ _ _ Hnd Hc1) as Hr1.
      pose proof (cells_rank _ _ _ _ _ Hnd Hc2) as Hr2. simpl in Hr1, Hr2.
      rewrite Hr1, Hr2.
      rewrite <- (take_drop (S j1) (take j2 _)), take_take, Nat.min_l by lia.
      rewrite (take_S_r _ _ _ Hc1), !filter_app, !length_app.
      rewrite filter_cons_True by done. simpl. lia. }
  assert (compareIds (WbsNode.id n1) (WbsNode.id n2) < 0)%Z as Hlt'.
  { destruct (decide (compareIds (WbsNode.id n1) (WbsNode.id n2) = 0%Z)) as [Hz|]; [|lia].
    apply compareIds_zero in Hz.
    pose proof (baseIds_NoDup w h b Hbase) as Hnd.
    assert (j1 = j2); [|lia].
    apply (NoDup_lookup _ j1 j2 (WbsNode.id n1) Hnd); unfold baseIds;
      rewrite list_lookup_fmap; [by rewrite H1 | by rewrite H2, Hz]. }
  destruct (Hnum (WbsNode.id n1)) as [_ [x1 Hx1]]; [done | congruence |].
  destruct (Hnum (WbsNode.id n2)) as [_ [x2 Hx2]]; [done | congruence |].
  exists x1, x2. split; [done|]. split; [done|]. split; [|done].
  revert Hlt'. unfold compareIds. rewrite Hx1, Hx2.
  destruct (decide (x1 ≠ x2)) as [?|Heq%dec_stable]; lia.
Qed.

(** ** More on the levels *)

Lemma outer_final_closed cbp rts (levels : gmap string nat) u (du : nat) v :
  outer cbp rts (levels, []) → levels !! u = Some du → child cbp u v →
  Js.inherited v = false →
  ∃ dv, levels !! v = Some dv ∧ dv ≤ S du.
Proof.
  intros (d & _ & _ & _ & Hdone & _) Hu Hv Hi. simpl in *.
  destruct (Hdone u du Hu) as [_ Hcl]; [apply not_elem_of_nil|]. by apply Hcl.
Qed.

Lemma computeLevels_bfs (w : Wbs) (levels : gmap string nat) :
  computeLevels w = Some levels →
  ∃ idx visited,
    loadEdges w = Returns idx
    ∧ outer (childrenByParent idx) (roots idx w) (visited, [])
    ∧ ∀ id d, visited !! id = Some d → levels !! id = Some d.
Proof.
  intros (idx & visited & Hidx & Hbfs & ->)%computeLevels_inv.
  exists idx, visited. split; [done|]. split; [by apply bfs_result|].
  intros id d Hid. by rewrite defaultLevel_fold, Hid.
Qed.

(** X7.  Where the levels are built, a HIERARCHY edge whose source a root
    reaches and whose target names no inherited property never descends
    more than one level: the depth of its target is at most the depth of
    its source plus one. *)
Theorem hierarchy_edge_spans_one_level (w : Wbs) (levels : gmap string nat) (u v : string) :
  computeLevels w = Some levels → hierarchy w u v → reachableFromRoot w u →
  Js.inherited v = false →
  ∃ du dv, levels !! u = Some du ∧ levels !! v = Some dv ∧ dv ≤ S du.
Proof.
  intros Hlv Huv (rt & n & Hrt & Hpath) Hv.
  destruct (computeLevels_bfs w levels Hlv) as (idx & visited & Hidx & Hout & Hkeep).
  pose proof (hierarchy_source_plain w idx u v Hidx Huv) as Hu.
  destruct (outer_final_complete _ _ (loadEdges_plain w idx Hidx) _ rt u n Hout)
    as (du & Hdu & _); [| |done|].
  { by apply (path_root_found w idx rt u n). }
  { eapply hpath_ext; [|exact Hpath]. intros a b. by apply child_loadEdges. }
  destruct (outer_final_closed _ _ _ u du v Hout Hdu) as (dv & Hdv & Hle); [|done|].
  { by apply (child_loadEdges w idx). }
  exists du, dv. auto.
Qed.

(** X8.  If moreover the target has no other parent, it is exactly one
    level below its source. *)
Theorem only_child_edge_next_level (w : Wbs) (levels : gmap string nat) (u v : string) :
  computeLevels w = Some levels → hierarchy w u v → reachableFromRoot w u →
  Js.inherited v = false →
  (∀ u', hierarchy w u' v → u' = u) →
  ∃ du, levels !! u = Some du ∧ levels !! v = Some (S du).
Proof.
  intros Hlv Huv (rt & n & Hrt & Hpath) Hv Honly.
  destruct (computeLevels_bfs w levels Hlv) as (idx & visited & Hidx & Hout & Hkeep).
  pose proof (hierarchy_source_plain w idx u v Hidx Huv) as Hu.
  assert (∀ rt' m, isRoot w rt' → hpath (hierarchy w) rt' u m →
            ∃ du, visited !! u = Some du ∧ du ≤ m) as Hcomplete.
  { intros rt' m Hrt' Hp.
    eapply (outer_final_complete _ _ (loadEdges_plain w idx Hidx)); [exact Hout | | | done].
    - by apply (path_root_found w idx rt' u m).
    - eapply hpath_ext; [|exact Hp]. intros a b. by apply child_loadEdges. }
  destruct (Hcomplete rt n Hrt Hpath) as (du & Hdu & _).
  destruct (outer_final_closed _ _ _ u du v Hout Hdu) as (dv & Hdv & Hle); [|done|].
  { by apply (child_loadEdges w idx). }
  exists du. split; [by apply Hkeep|]. apply Hkeep.
  destruct (outer_final_sound _ _ _ _ _ Hout Hdv) as (rt' & Hrt' & Hp).
  apply (elem_of_roots w idx rt' Hidx) in Hrt' as [Hrt' _].
  inversion Hp as [|? u' ? m Hp' Hstep]; subst.
  - destruct Hrt' as [_ Hno]. by destruct (Hno u).
  - apply (child_loadEdges w idx _ _ Hidx) in Hstep. rewrite (Honly u' Hstep) in Hp'.
    destruct (Hcomplete rt' m Hrt') as (du' & Hu' & Hle').
    { eapply hpath_ext; [|exact Hp']. intros a b. by apply child_loadEdges. }
    rewrite Hdu in Hu'. injection Hu' as <-. rewrite Hdv. f_equal. lia.
Qed.

(** ** More on the loader *)

Lemma loadEdge_fold_edges (l : list RawEdge) (acc idx : EdgeIndex) :
  forEach loadEdge acc l = Returns idx →
  hierarchyEdges idx
  = hierarchyEdges acc ++ (mkEdge <$> filter (λ e, edge_type e = "HIERARCHY") l)
  ∧ dependencyEdges idx
    = dependencyEdges acc ++ (mkEdge <$> filter (λ e, edge_type e ≠ "HIERARCHY") l).
Proof.
  revert acc. induction l as [|e l IH]; intros acc H.
  - injection H as <-. by rewrite !app_nil_r.
  - apply forEach_cons_Returns in H as (acc' & He & H).
    destruct (IH acc' H) as [-> ->]. rewrite !filter_cons.
    revert He. unfold loadEdge.
    destruct (decide (edge_type e = "HIERARCHY")) as [He|He].
    + rewrite decide_False by (by intros ?).
      destruct (Js.read _ _); intros [= <-]; simpl; by rewrite <- app_assoc.
    + rewrite decide_True by done. intros [= <-]. simpl. by rewrite <- app_assoc.
Qed.

(** X9.  When the layout is produced, the loader has kept every raw edge,
    in document order, in exactly one of the two edge sequences: the edges
    whose type is exactly "HIERARCHY" in the first, all others in the
    second.  No edge is dropped for a dangling endpoint. *)
Theorem edges_partitioned_by_type (w : Wbs) (h : heap) (b : Base.t) :
  buildBase w = Some (h, b) →
  Base.hierarchyEdges b
  = mkEdge <$> filter (λ e, edge_type e = "HIERARCHY") (rawEdges w)
  ∧ Base.dependencyEdges b
    = mkEdge <$> filter (λ e, edge_type e ≠ "HIERARCHY") (rawEdges w).
Proof.
  intros (idx & Hidx & -> & ->)%buildBase_edges.
  by destruct (loadEdge_fold_edges (rawEdges w) emptyIndex idx Hidx) as [-> ->].
Qed.

(** ** When the layout is produced *)

Lemma loadEdge_fold_returns (l : list RawEdge) (acc : EdgeIndex) :
  plainKeys (childrenByParent acc) →
  (∀ e, e ∈ l → edge_type e = "HIERARCHY" → Js.inherited (edge_source e) = false) →
  ∃ idx, forEach loadEdge acc l = Returns idx.
Proof.
  revert acc. induction l as [|e l IH]; intros acc Hacc Hl; simpl; [by eexists|].
  assert (∃ acc', loadEdge acc e = Returns acc') as [acc' He].
  { unfold loadEdge, Js.read. case_decide as Ht; [|by eexists].
    destruct (childrenByParent acc !! edge_source e); [by eexists|].
    rewrite (Hl e); [by eexists | apply list_elem_of_here | done]. }
  rewrite He. simpl. apply IH.
  - by apply (loadEdge_Returns acc e).
  - intros e' He'. by apply Hl, list_elem_of_further.
Qed.

Lemma loadEdge_fold_fuel (l : list RawEdge) (acc : EdgeIndex) :
  forEach loadEdge acc l ≠ OutOfFuel.
Proof.
  revert acc. induction l as [|e l IH]; intros acc; simpl; [done|].
  unfold loadEdge. case_decide; [destruct (Js.read _ _)|]; simpl; done.
Qed.

Lemma layoutLevel_fold_fuel (grouped : Grouped) (ks : list (option nat))
    (st : list WbsNode.t * list nat) :
  forEach (layoutLevel grouped) st ks ≠ OutOfFuel.
Proof.
  revert st. induction ks as [|k ks IH]; intros st; simpl; [done|].
  destruct k; simpl; [apply IH | done].
Qed.

Lemma runLevels_fuel w idx : loadEdges w = Returns idx → runLevels idx w ≠ OutOfFuel.
Proof.
  intros Hidx. unfold runLevels.
  pose proof (bfs_terminates (childrenByParent idx) (roots idx w)
                (loadEdges_plain w idx Hidx) (roots_no_proto idx w) (childSet idx)
                (λ u v, child_in_childSet w idx u v Hidx) (bfsFuel idx w)
                (foldl enqueueRoot (∅, []) (roots idx w)) (bfsFuel_enough w idx Hidx)) as H.
  by destruct (bfs _ _ _).
Qed.

(** The first [useMemo] returns or throws. *)
Lemma runBase_fuel w : runBase w ≠ OutOfFuel.
Proof.
  unfold runBase. destruct (loadNodes w) as [h nodeMap].
  destruct (loadEdges w) as [idx| |] eqn:Hidx; simpl; [|done|].
  - pose proof (runLevels_fuel w idx Hidx) as Hlv.
    destruct (runLevels idx w) as [levels| |]; simpl; [|done|done].
    match goal with
    | |- context [forEach ?f ?st ?ks] =>
        pose proof (layoutLevel_fold_fuel
                      (foldl (groupNode levels nodeMap) emptyGroups (allNodeIds w)) ks st) as H;
        by destruct (forEach f st ks)
    end.
  - by apply loadEdge_fold_fuel in Hidx.
Qed.

Lemma plain_node_ids w id :
  plainDocument w → id ∈ allNodeIds w → Js.inherited id = false.
Proof.
  intros [Hn _] [(n & Hin & <-) Hne]%elem_of_allNodeIds.
  by destruct (Hn n Hin).
Qed.

Lemma plain_runBase w : plainDocument w → ∃ h b, runBase w = Returns (h, b).
Proof.
  intros Hplain. pose proof Hplain as [_ He].
  destruct (loadEdge_fold_returns (rawEdges w) emptyIndex plainKeys_empty He)
    as [idx Hidx]. fold (loadEdges w) in Hidx.
  destruct (bfs_returns (childrenByParent idx) (roots idx w)
              (loadEdges_plain w idx Hidx) (roots_no_proto idx w) (childSet idx)
              (λ u v, child_in_childSet w idx u v Hidx) (bfsFuel idx w)
              (foldl enqueueRoot (∅, []) (roots idx w)) (bfsFuel_enough w idx Hidx))
    as [lv Hbfs].
  { rewrite enqueueRoot_fold_queue. simpl. intros q [_ Hq]%list_elem_of_filter.
    by apply (plain_node_ids w). }
  unfold runBase. destruct (loadNodes w) as [h nodeMap]. rewrite Hidx. simpl.
  unfold runLevels. rewrite Hbfs. simpl.
  set (levels := foldl defaultLevel lv (allNodeIds w)).
  set (grouped := foldl (groupNode levels nodeMap) emptyGroups (allNodeIds w)).
  assert (byOther grouped = ∅) as Hother.
  { unfold grouped. rewrite groupNode_fold_no_other; [done|].
    intros id Hid. unfold levels. rewrite defaultLevel_fold.
    destruct (lv !! id); [eauto|]. rewrite decide_True; [eauto|].
    split; [done|]. by apply (plain_node_ids w). }
  unfold groupKeys. rewrite Hother, dom_empty_L, elements_empty.
  pose proof (forEach_layoutLevel grouped (levelKeys (byLevel grouped)) [] (h, [])
                (foldl (layoutColumn (byLevel grouped)) (h, [])
                   (levelKeys (byLevel grouped)))) as [_ Hret].
  simpl in Hret. simpl. rewrite Hret by done. simpl. eauto.
Qed.

Lemma runBase_plain w h b : runBase w = Returns (h, b) → plainDocument w.
Proof.
  intros Hret. assert (buildBase w = Some (h, b)) as Hbase.
  { unfold buildBase. by rewrite Hret. }
  apply buildBase_inv in Hbase as (idx & levels & Hidx & Hlv & Hown & _).
  split.
  - intros n Hn. destruct (decide (raw_id n = "__proto__")) as [|Hne]; [by left|].
    right. destruct (Js.inherited (raw_id n)) eqn:Hi; [exfalso|done].
    assert (raw_id n ∈ allNodeIds w) as Hid.
    { apply elem_of_allNodeIds. split; [by exists n | done]. }
    apply computeLevels_inv in Hlv as (idx' & lv & Hidx' & Hbfs & ->).
    assert (idx' = idx) as -> by congruence.
    destruct (Hown _ Hid) as [d Hd]. rewrite defaultLevel_fold in Hd.
    destruct (lv !! raw_id n) as [d'|] eqn:Hlv.
    + assert (∀ v, is_Some ((foldl enqueueRoot (∅, []) (roots idx w)).1 !! v) →
                v ∈ roots idx w ∨ Js.inherited v = false) as Hinit.
      { intros v. rewrite enqueueRoot_fold_levels by apply roots_no_proto.
        case_decide; [auto|]. simpl. rewrite lookup_empty. by intros [? ?]. }
      destruct (bfs_assigned _ (roots idx w) _ _ _ Hinit Hbfs (raw_id n)) as [Hrt|?];
        [eauto| |congruence].
      revert Hbfs. apply (bfs_throws _ (loadEdges_plain w idx Hidx)) with (q := raw_id n);
        [|done]. by rewrite enqueueRoot_fold_queue.
    + rewrite decide_False in Hd; [done|]. intros [_ ?]. congruence.
  - intros e He Ht. apply (hierarchy_source_plain w idx _ (edge_target e) Hidx).
    by exists e.
Qed.

(** X19.  Where the levels are built, every node whose id names no
    inherited property has an integer depth: its distance from the
    nearest root when some root reaches it along HIERARCHY edges, and 0
    when it is a root or when no root reaches it.  Nothing is assumed of
    the hierarchy edges, cycles included. *)
Theorem plain_id_depth_is_bfs_distance (w : Wbs) (levels : gmap string nat) (id : string) :
  computeLevels w = Some levels → isNode w id → Js.inherited id = false →
  ∃ d, levels !! id = Some d
    ∧ (reachableFromRoot w id → bfsDistance w id d)
    ∧ (isRoot w id → d = 0)
    ∧ (¬ reachableFromRoot w id → d = 0).
Proof.
  intros (idx & lv & Hidx & Hbfs & ->)%computeLevels_inv Hid Hi.
  pose proof (bfs_result w idx lv Hidx Hbfs) as Hout.
  pose proof (loadEdges_plain w idx Hidx) as Hplain.
  assert (∀ rt n, isRoot w rt → hpath (hierarchy w) rt id n →
            ∃ dv, lv !! id = Some dv ∧ dv ≤ n) as Hcomplete.
  { intros rt n Hrt Hpath.
    eapply (outer_final_complete _ _ Hplain); [exact Hout | | | done].
    - by apply (path_root_found w idx rt id n).
    - eapply hpath_ext; [|exact Hpath]. intros a b. by apply child_loadEdges. }
  assert (∀ dv, lv !! id = Some dv →
            ∃ rt, isRoot w rt ∧ hpath (hierarchy w) rt id dv) as Hsound.
  { intros dv Hdv. destruct (outer_final_sound _ _ _ _ _ Hout Hdv) as (rt & Hrt & Hpath).
    exists rt. split; [by apply (elem_of_roots w idx rt Hidx)|].
    eapply hpath_ext; [|exact Hpath]. intros a b. by apply child_loadEdges. }
  rewrite defaultLevel_fold. destruct (lv !! id) as [d|] eqn:Hlv.
  - exists d. split; [done|]. split; [|split].
    + intros _. split; [by apply Hsound|].
      intros rt n Hrt Hpath. destruct (Hcomplete rt n Hrt Hpath) as (dv & [= <-] & ?). done.
    + intros Hrt. destruct (Hcomplete id 0 Hrt) as (dv & [= <-] & ?); [constructor | lia].
    + intros Hnr. destruct Hnr. destruct (Hsound d eq_refl) as (rt & ? & ?).
      by exists rt, d.
  - rewrite decide_True.
    + exists 0. split; [done|]. split; [|done].
      intros (rt & n & Hrt & Hpath). destruct (Hcomplete rt n Hrt Hpath) as (? & ? & _). done.
    + split; [|done]. apply elem_of_allNodeIds. split; [done|]. by intros ->.
Qed.

(** X20.  The first [useMemo] returns a layout exactly for the documents
    in which no node id other than "__proto__" and no source of a
    HIERARCHY edge names a property inherited from [Object.prototype]; on
    every other document a [TypeError] escapes from it. *)
Theorem layout_returns_iff_plain (w : Wbs) :
  (plainDocument w ↔ ∃ h b, runBase w = Returns (h, b))
  ∧ (¬ plainDocument w ↔ runBase w = Throws).
Proof.
  split; split.
  - apply plain_runBase.
  - intros (h & b & H). by apply (runBase_plain w h b).
  - intros Hnot. pose proof (runBase_fuel w) as Hfuel.
    destruct (runBase w) as [[h b]| |] eqn:Hrun; [|done|done].
    destruct Hnot. by apply (runBase_plain w h b).
  - intros Hthrow Hplain. apply plain_runBase in Hplain as (h & b & H). congruence.
Qed.

(** ** More on the view selector *)

Lemma local_viewIds (h : list WbsNode.t) (b : Base.t) (focus : string) :
  focus ≠ "" → focus ∈ baseIds h b →
  viewIds (selectView LOCAL (Some focus) b h)
  = focus :: filter (λ i, i ∈ neighborIds focus b) (baseIds h b).
Proof.
  intros Hne Hin. destruct (selectView_local focus b h Hne Hin) as (center & _ & Hid & ->).
  unfold viewIds. cbn [fst snd View.nodes]. rewrite deref_fresh. csimpl.
  rewrite neighborNodes_ids. unfold neighbors, baseIds. f_equal; [done|].
  induction (deref h (Base.baseNodes b)) as [|n l IH]; [done|].
  csimpl. rewrite !filter_cons. case_decide; csimpl; by rewrite IH.
Qed.

(** X10.  With distinct base ids, the ids of a local view are distinct
    exactly when no edge joins the focus to itself; with such an edge the
    focus is returned twice, as centre and as neighbour. *)
Theorem local_view_ids_distinct (h : heap) (b : Base.t) (focus : string) :
  focus ≠ "" → focus ∈ baseIds h b → NoDup (baseIds h b) →
  NoDup (viewIds (selectView LOCAL (Some focus) b h)) ↔ ¬ selfLoop focus b.
Proof.
  intros Hne Hin Hnd. rewrite local_viewIds by done.
  rewrite NoDup_cons, list_elem_of_filter, elem_of_neighborIds.
  assert (otherEndpoint focus b focus ↔ selfLoop focus b) as ->.
  { unfold otherEndpoint, selfLoop. split; intros (e & ? & ?); exists e; tauto. }
  split; [tauto|]. intros Hno. split; [tauto|]. by apply NoDup_filter.
Qed.

(** X11.  An endpoint of an edge of the local view is among the nodes of
    the view exactly when it is a base node: the view shows both ends of
    each of its edges, except ends that are no nodes of the document. *)
Theorem local_view_edge_endpoints (h : heap) (b : Base.t) (focus : string)
    (e : WbsEdge.t) (x : string) :
  focus ≠ "" → focus ∈ baseIds h b →
  e ∈ View.edges (selectView LOCAL (Some focus) b h).2 →
  x = WbsEdge.source e ∨ x = WbsEdge.target e →
  x ∈ viewIds (selectView LOCAL (Some focus) b h) ↔ x ∈ baseIds h b.
Proof.
  intros Hne Hin He Hx. rewrite local_viewIds by done.
  destruct (selectView_local focus b h Hne Hin) as (center & _ & _ & Hsel).
  rewrite Hsel in He. cbn [snd View.edges] in He.
  apply list_elem_of_filter in He as [Hinc He].
  rewrite elem_of_cons, list_elem_of_filter, elem_of_neighborIds. split.
  - intros [->|[_ ?]]; done.
  - intros Hb. destruct (decide (x = focus)) as [|Hxf]; [by left|]. right.
    split; [|done]. exists e. split; [done|]. unfold incident in Hinc.
    destruct Hx as [->| ->], Hinc as [?|?]; try done; auto.
Qed.

(** ** More on the interaction controller *)

(** X12.  Right-clicking a node of non-empty id and choosing "show
    connected nodes" is always possible, and leaves the mode LOCAL, the
    focus on that node and the menu hidden; the view rendered next is the
    local view of that node. *)
Theorem show_connected_focuses (clientX clientY : Z) (nodeId : string) (s : AppState) :
  nodeId ≠ "" →
  ∃ s', handle ShowConnected (onNodeContextMenu clientX clientY nodeId s).1 = Some (s', [])
    ∧ viewMode s' = LOCAL
    ∧ focusNodeId s' = Some nodeId
    ∧ ContextMenuState.visible (contextMenu s') = false
    ∧ render s' = selectView LOCAL (Some nodeId) (base s) (store s).
Proof.
  intros Hne. destruct nodeId as [|c nodeId]; [done|].
  eexists. split; [reflexivity | done].
Qed.

(** X13.  For the node whose id is the empty string the same two steps
    only close the menu: mode, focus and rendered view stay as they
    were. *)
Theorem show_connected_empty_id (clientX clientY : Z) (s : AppState) :
  ∃ s', handle ShowConnected (onNodeContextMenu clientX clientY "" s).1 = Some (s', [])
    ∧ viewMode s' = viewMode s
    ∧ focusNodeId s' = focusNodeId s
    ∧ ContextMenuState.visible (contextMenu s') = false
    ∧ render s' = render s.
Proof. eexists. split; [reflexivity | done]. Qed.

Lemma handle_menu_target ev s s' effects :
  handle ev s = Some (s', effects) →
  (ContextMenuState.type (contextMenu s) = node
   ↔ is_Some (ContextMenuState.nodeId (contextMenu s))) →
  (ContextMenuState.type (contextMenu s') = node
   ↔ is_Some (ContextMenuState.nodeId (contextMenu s'))).
Proof.
  intros Hev Hinv. destruct ev; simpl in Hev;
    repeat match type of Hev with
           | (if ?c then _ else _) = _ => destruct c; [|done]
           end;
    injection Hev as <- _; simpl; try done;
    try (by destruct (Js.truthy _)); split;
    first [done | by eexists | by intros [? ?]].
Qed.

(** X14.  In every reachable state the context menu targets a node
    exactly when it carries a node id. *)
Theorem menu_target_has_node_id h (b : Base.t) (s : AppState) :
  reachable h b s →
  ContextMenuState.type (contextMenu s) = node
  ↔ is_Some (ContextMenuState.nodeId (contextMenu s)).
Proof.
  induction 1 as [|s s' _ IH Hstep].
  - simpl. split; [done | by intros [? ?]].
  - destruct Hstep as [ev s s' effects Hev]. by eapply handle_menu_target.
Qed.

(** X15.  No sequence of events changes the store or the base layout. *)
Theorem graph_never_changes h (b : Base.t) (s : AppState) :
  reachable h b s → store s = h ∧ base s = b.
Proof.
  induction 1 as [|s s' _ [IH1 IH2] Hstep]; [done|].
  destruct Hstep as [ev s s' effects Hev].
  destruct (handle_graph _ _ _ _ Hev) as [-> ->]. done.
Qed.

Lemma handle_global ev s s' effects :
  handle ev s = Some (s', effects) →
  (viewMode s = GLOBAL → focusNodeId s = None) →
  viewMode s' = GLOBAL → focusNodeId s' = None.
Proof.
  intros Hev Hinv. destruct ev; simpl in Hev;
    repeat match type of Hev with
           | (if ?c then _ else _) = _ => destruct c; [|done]
           end;
    injection Hev as <- _; simpl; try done.
  by destruct (Js.truthy _).
Qed.

(** X16.  In every reachable state the mode is GLOBAL exactly when the
    focus node id is null. *)
Theorem global_mode_iff_no_focus h (b : Base.t) (s : AppState) :
  reachable h b s → viewMode s = GLOBAL ↔ focusNodeId s = None.
Proof.
  intros Hr. split.
  - induction Hr as [|s s' _ IH Hstep]; [done|].
    destruct Hstep as [ev s s' effects Hev]. by eapply handle_global.
  - intros Hnone. destruct (viewMode s) eqn:Hm; [done|].
    apply (reachable_focus _ _ _ Hr) in Hm. by rewrite Hnone in Hm.
Qed.

(** X17.  Only the menu items "return to WBS" and "show connected nodes"
    change what is shown: every other event keeps the view mode, the
    focus node id and the rendered view. *)
Theorem only_menu_items_change_view (ev : Event) (s s' : AppState) effects :
  ev ≠ ReturnToWbs → ev ≠ ShowConnected →
  handle ev s = Some (s', effects) →
  viewMode s' = viewMode s ∧ focusNodeId s' = focusNodeId s ∧ render s' = render s.
Proof.
  intros Hn1 Hn2 Hev. destruct ev; try done; simpl in Hev;
    repeat match type of Hev with
           | (if ?c then _ else _) = _ => destruct c; [|done]
           end;
    injection Hev as <- _; done.
Qed.

(** X18.  The view leaves the LOCAL mode only through the item "return to
    WBS", and only while the canvas menu is open. *)
Theorem leaving_local_needs_canvas_menu (ev : Event) (s s' : AppState) effects :
  handle ev s = Some (s', effects) →
  viewMode s = LOCAL → viewMode s' = GLOBAL →
  ev = ReturnToWbs
  ∧ ContextMenuState.visible (contextMenu s) = true
  ∧ ContextMenuState.type (contextMenu s) = canvas.
Proof.
  intros Hev Hl Hg. destruct ev; simpl in Hev;
    try (injection Hev as <- _; simpl in Hg; congruence).
  - unfold rendered in Hev.
    destruct (ContextMenuState.visible (contextMenu s)); [|done]. simpl in Hev.
    case_bool_decide; [done | done].
  - destruct (rendered node s); [|done]. injection Hev as <- _. simpl in Hg.
    destruct (Js.truthy _); simpl in Hg; congruence.
  - destruct (rendered node s); [|done]. injection Hev as <- _. simpl in Hg. congruence.
Qed.

Ltac node_cases H :=
  repeat (apply elem_of_cons in H as [H|H]; [subst|]);
  [..|by apply elem_of_nil in H].

Lemma base_nodes_exactly_once_witness :
  buildBase wbsProto = Some (storeProto, baseProto)
  ∧ baseIds storeProto baseProto = ["a"]
  ∧ length (deref storeProto (Base.baseNodes baseProto))
    = length (Base.baseNodes baseProto)
  ∧ NoDup (baseIds storeProto baseProto)
  ∧ ∀ id, id ∈ baseIds storeProto baseProto ↔ isNode wbsProto id ∧ id ≠ "__proto__".
Proof.
  split; [vm_compute; reflexivity|]. split; [vm_compute; reflexivity|].
  apply (base_nodes_exactly_once wbsProto storeProto baseProto). vm_compute; reflexivity.
Defined.

Lemma base_node_from_last_raw_node_witness :
  buildBase wbsABC = Some (storeABC, baseABC)
  ∧ nodeB ∈ deref storeABC (Base.baseNodes baseABC)
  ∧ ∃ a n, rawNodes wbsABC !! a = Some n
      ∧ raw_id n = WbsNode.id nodeB
      ∧ (∀ j m, a < j → rawNodes wbsABC !! j = Some m → raw_id m ≠ WbsNode.id nodeB)
      ∧ nodeB = WbsNode.with_position (mkNode n) (WbsNode.position nodeB).
Proof.
  split; [vm_compute; reflexivity|]. split; [compute_done|].
  apply (base_node_from_last_raw_node wbsABC storeABC baseABC nodeB);
    [vm_compute; reflexivity | compute_done].
Defined.

Lemma base_node_position_witness :
  buildBase wbsABC = Some (storeABC, baseABC)
  ∧ computeLevels wbsABC = Some levelsABC
  ∧ deref storeABC (Base.baseNodes baseABC) !! 2 = Some nodeC
  ∧ WbsNode.position nodeC
    = gridPosition (levelsABC !!! WbsNode.id nodeC)
        (length (filter (λ nd', levelsABC !!! WbsNode.id nd' = levelsABC !!! WbsNode.id nodeC)
                   (take 2 (deref storeABC (Base.baseNodes baseABC))))).
Proof.
  split; [vm_compute; reflexivity|]. split; [vm_compute; reflexivity|].
  split; [reflexivity|].
  apply (base_node_position wbsABC storeABC baseABC levelsABC 2 nodeC);
    [vm_compute; reflexivity | vm_compute; reflexivity | reflexivity].
Defined.

Lemma base_positions_distinct_witness :
  buildBase wbsABC = Some (storeABC, baseABC)
  ∧ 1 ≠ 2
  ∧ deref storeABC (Base.baseNodes baseABC) !! 1 = Some nodeB
  ∧ deref storeABC (Base.baseNodes baseABC) !! 2 = Some nodeC
  ∧ ¬ (Rval (WbsNode.position nodeB).1 = Rval (WbsNode.position nodeC).1
       ∧ Rval (WbsNode.position nodeB).2 = Rval (WbsNode.position nodeC).2).
Proof.
  split; [vm_compute; reflexivity|]. split; [lia|].
  split; [reflexivity|]. split; [reflexivity|].
  apply (base_positions_distinct wbsABC storeABC baseABC 1 2 nodeB nodeC);
    [vm_compute; reflexivity | lia | reflexivity | reflexivity].
Defined.

Lemma base_nodes_by_depth_witness :
  buildBase wbsABC = Some (storeABC, baseABC)
  ∧ computeLevels wbsABC = Some levelsABC
  ∧ 0 < 1
  ∧ deref storeABC (Base.baseNodes baseABC) !! 0 = Some nodeA
  ∧ deref storeABC (Base.baseNodes baseABC) !! 1 = Some nodeB
  ∧ levelsABC !!! WbsNode.id nodeA ≤ levelsABC !!! WbsNode.id nodeB.
Proof.
  split; [vm_compute; reflexivity|]. split; [vm_compute; reflexivity|].
  split; [lia|]. split; [reflexivity|]. split; [reflexivity|].
  apply (base_nodes_by_depth wbsABC storeABC baseABC levelsABC 0 1 nodeA nodeB);
    [vm_compute; reflexivity | vm_compute; reflexivity | lia | reflexivity | reflexivity].
Defined.

Lemma numeric_level_sorted_witness :
  buildBase wbsNumeric = Some (storeNumeric, baseNumeric)
  ∧ computeLevels wbsNumeric = Some levelsNumeric
  ∧ numericLevel wbsNumeric levelsNumeric 1
  ∧ WbsNode.id <$> deref storeNumeric (Base.baseNodes baseNumeric) = ["1"; "09"; "010"]
  ∧ ∃ x1 x2, Js.Number "09" = Some x1 ∧ Js.Number "010" = Some x2
      ∧ (x1 <= x2)%Z ∧ (compareIds "09" "010" < 0)%Z.
Proof.
  assert (numericLevel wbsNumeric levelsNumeric 1) as Hnum.
  { intros id (n & Hn & <-) _. simpl in Hn.
    node_cases Hn; (split; [simpl; lia | by eexists]). }
  split; [vm_compute; reflexivity|]. split; [vm_compute; reflexivity|].
  split; [exact Hnum|]. split; [vm_compute; reflexivity|].
  apply (numeric_level_sorted wbsNumeric storeNumeric baseNumeric levelsNumeric 1 1 2
           (WbsNode.with_position (mkNode (rawNode "09")) (gridPosition 1 0))
           (WbsNode.with_position (mkNode (rawNode "010")) (gridPosition 1 1)));
    [vm_compute; reflexivity | vm_compute; reflexivity | exact Hnum | lia
    | reflexivity | reflexivity | reflexivity | reflexivity].
Defined.

Ltac hierarchy_AB :=
  exists (rawEdge "e1" "HIERARCHY" "A" "B");
  split; [apply list_elem_of_here | done].

Ltac root_A :=
  split;
  [exists (rawNode "A"); split; [apply list_elem_of_here | reflexivity]
  |let u := fresh "u" in let e := fresh "e" in let He := fresh "He" in
   intros u (e & He & ? & ? & ?); simpl in He; node_cases He; discriminate].

Lemma hierarchy_edge_spans_one_level_witness :
  computeLevels wbsABC = Some levelsABC
  ∧ hierarchy wbsABC "A" "B"
  ∧ reachableFromRoot wbsABC "A"
  ∧ Js.inherited "B" = false
  ∧ ∃ du dv, levelsABC !! "A" = Some du ∧ levelsABC !! "B" = Some dv ∧ dv ≤ S du.
Proof.
  assert (hierarchy wbsABC "A" "B") as Hedge by hierarchy_AB.
  assert (reachableFromRoot wbsABC "A") as Hreach.
  { exists "A", 0. split; [root_A | constructor]. }
  split; [vm_compute; reflexivity|]. split; [exact Hedge|]. split; [exact Hreach|].
  split; [reflexivity|].
  apply (hierarchy_edge_spans_one_level wbsABC levelsABC "A" "B");
    [vm_compute; reflexivity | exact Hedge | exact Hreach | reflexivity].
Defined.

Lemma only_child_edge_next_level_witness :
  computeLevels wbsABC = Some levelsABC
  ∧ hierarchy wbsABC "A" "B"
  ∧ reachableFromRoot wbsABC "A"
  ∧ Js.inherited "B" = false
  ∧ (∀ u', hierarchy wbsABC u' "B" → u' = "A")
  ∧ ∃ du, levelsABC !! "A" = Some du ∧ levelsABC !! "B" = Some (S du).
Proof.
  assert (hierarchy wbsABC "A" "B") as Hedge by hierarchy_AB.
  assert (reachableFromRoot wbsABC "A") as Hreach.
  { exists "A", 0. split; [root_A | constructor]. }
  assert (∀ u', hierarchy wbsABC u' "B" → u' = "A") as Honly.
  { intros u' (e & He & Ht & <- & Htg). simpl in He. node_cases He; done. }
  split; [vm_compute; reflexivity|]. split; [exact Hedge|]. split; [exact Hreach|].
  split; [reflexivity|]. split; [exact Honly|].
  apply (only_child_edge_next_level wbsABC levelsABC "A" "B");
    [vm_compute; reflexivity | exact Hedge | exact Hreach | reflexivity | exact Honly].
Defined.

Lemma plain_id_depth_is_bfs_distance_witness :
  computeLevels wbsABC = Some levelsABC
  ∧ isNode wbsABC "B"
  ∧ Js.inherited "B" = false
  ∧ ∃ d, levelsABC !! "B" = Some d
      ∧ (reachableFromRoot wbsABC "B" → bfsDistance wbsABC "B" d)
      ∧ (isRoot wbsABC "B" → d = 0)
      ∧ (¬ reachableFromRoot wbsABC "B" → d = 0).
Proof.
  assert (isNode wbsABC "B") as Hnode.
  { exists (rawNode "B"). split; [|reflexivity].
    apply list_elem_of_further, list_elem_of_here. }
  split; [vm_compute; reflexivity|]. split; [exact Hnode|]. split; [reflexivity|].
  apply (plain_id_depth_is_bfs_distance wbsABC levelsABC "B");
    [vm_compute; reflexivity | exact Hnode | reflexivity].
Defined.

Lemma edges_partitioned_by_type_witness :
  buildBase wbsABC = Some (storeABC, baseABC)
  ∧ Base.hierarchyEdges baseABC
    = mkEdge <$> filter (λ e, edge_type e = "HIERARCHY") (rawEdges wbsABC)
  ∧ Base.dependencyEdges baseABC
    = mkEdge <$> filter (λ e, edge_type e ≠ "HIERARCHY") (rawEdges wbsABC).
Proof.
  split; [vm_compute; reflexivity|].
  apply (edges_partitioned_by_type wbsABC storeABC baseABC). vm_compute; reflexivity.
Defined.

Lemma local_view_ids_distinct_witness :
  "B" ≠ "" ∧ "B" ∈ baseIds storeABC baseABC ∧ NoDup (baseIds storeABC baseABC)
  ∧ (NoDup (viewIds (selectView LOCAL (Some "B") baseABC storeABC))
     ↔ ¬ selfLoop "B" baseABC).
Proof.
  split; [discriminate|]. split; [compute_done|]. split; [compute_done|].
  apply (local_view_ids_distinct storeABC baseABC "B");
    [discriminate | compute_done | compute_done].
Defined.

Lemma local_view_edge_endpoints_witness :
  "B" ≠ "" ∧ "B" ∈ baseIds storeABC baseABC
  ∧ mkEdge (rawEdge "e1" "HIERARCHY" "A" "B")
    ∈ View.edges (selectView LOCAL (Some "B") baseABC storeABC).2
  ∧ ("A" ∈ viewIds (selectView LOCAL (Some "B") baseABC storeABC)
     ↔ "A" ∈ baseIds storeABC baseABC).
Proof.
  split; [discriminate|]. split; [compute_done|]. split; [compute_done|].
  apply (local_view_edge_endpoints storeABC baseABC "B"
           (mkEdge (rawEdge "e1" "HIERARCHY" "A" "B")) "A");
    [discriminate | compute_done | compute_done | by left].
Defined.

Lemma show_connected_focuses_witness :
  "A" ≠ ""
  ∧ ∃ s', handle ShowConnected
            (onNodeContextMenu 10 20 "A" (initialState storeABC baseABC)).1
          = Some (s', [])
      ∧ viewMode s' = LOCAL
      ∧ focusNodeId s' = Some "A"
      ∧ ContextMenuState.visible (contextMenu s') = false
      ∧ render s' = selectView LOCAL (Some "A") (base (initialState storeABC baseABC))
                      (store (initialState storeABC baseABC)).
Proof.
  split; [discriminate|].
  apply (show_connected_focuses 10 20 "A" (initialState storeABC baseABC)).
  discriminate.
Defined.

Lemma menu_target_has_node_id_witness :
  reachable storeABC baseABC stateLocalA
  ∧ (ContextMenuState.type (contextMenu stateLocalA) = node
     ↔ is_Some (ContextMenuState.nodeId (contextMenu stateLocalA))).
Proof.
  assert (reachable storeABC baseABC stateLocalA) as Hr by reach_stateLocalA.
  split; [exact Hr|]. apply (menu_target_has_node_id storeABC baseABC stateLocalA Hr).
Defined.

Lemma graph_never_changes_witness :
  reachable storeABC baseABC stateLocalA
  ∧ store stateLocalA = storeABC ∧ base stateLocalA = baseABC.
Proof.
  assert (reachable storeABC baseABC stateLocalA) as Hr by reach_stateLocalA.
  split; [exact Hr|]. apply (graph_never_changes storeABC baseABC stateLocalA Hr).
Defined.

Lemma global_mode_iff_no_focus_witness :
  reachable storeABC baseABC stateLocalA
  ∧ (viewMode stateLocalA = GLOBAL ↔ focusNodeId stateLocalA = None).
Proof.
  assert (reachable storeABC baseABC stateLocalA) as Hr by reach_stateLocalA.
  split; [exact Hr|]. apply (global_mode_iff_no_focus storeABC baseABC stateLocalA Hr).
Defined.

Lemma only_menu_items_change_view_witness :
  PaneContextMenu 30 40 ≠ ReturnToWbs ∧ PaneContextMenu 30 40 ≠ ShowConnected
  ∧ handle (PaneContextMenu 30 40) stateLocalA = Some (stateCanvasMenu, [preventDefault])
  ∧ viewMode stateCanvasMenu = viewMode stateLocalA
  ∧ focusNodeId stateCanvasMenu = focusNodeId stateLocalA
  ∧ render stateCanvasMenu = render stateLocalA.
Proof.
  split; [discriminate|]. split; [discriminate|]. split; [reflexivity|].
  apply (only_menu_items_change_view (PaneContextMenu 30 40) stateLocalA stateCanvasMenu
           [preventDefault]); [discriminate | discriminate | reflexivity].
Defined.

Lemma leaving_local_needs_canvas_menu_witness :
  handle ReturnToWbs stateCanvasMenu = Some (onReturnToWbs stateCanvasMenu)
  ∧ viewMode stateCanvasMenu = LOCAL
  ∧ viewMode (onReturnToWbs stateCanvasMenu).1 = GLOBAL
  ∧ ReturnToWbs = ReturnToWbs
  ∧ ContextMenuState.visible (contextMenu stateCanvasMenu) = true
  ∧ ContextMenuState.type (contextMenu stateCanvasMenu) = canvas.
Proof.
  split; [reflexivity|]. split; [reflexivity|]. split; [reflexivity|].
  apply (leaving_local_needs_canvas_menu ReturnToWbs stateCanvasMenu
           (onReturnToWbs stateCanvasMenu).1 (onReturnToWbs stateCanvasMenu).2);
    reflexivity.
Defined.
